(** * GenericTrajectory: a shallow embedding of OpenRAVE's generic trajectory

    The development follows [GenericTrajectory] (the piecewise-polynomial
    trajectory container of OpenRAVE): the group ordering installed by
    [Init], the waypoint buffer and its mutators, the lazily rebuilt time
    index, the per-group interpolation kernels with the sampler that drives
    them, and the binary serializer.

    Conventions of the embedding

    - C++ integers ([size_t], [int], [uint16_t], [uint32_t]) are [Z]; every
      conversion that can wrap is written with [to_size_t], [to_int],
      [to_uint16] or [to_uint32].
    - [dReal] is idealised as the exact rationals [Q]: rounding, infinities
      and NaN are outside the model.  Where the source only copies values
      the statements use Leibniz equality; where it computes, they use the
      literal expression of the source, or [Qeq] against a closed form.
    - [std::vector] is [list]; [operator[]] is [vec_get] (it reads [0]
      outside the vector, where C++ leaves the behaviour undefined), [at]
      is [vec_at] and raises [std_out_of_range].
    - Exceptions are the [Err] branch of [Result]. *)

From Stdlib Require Import ZArith QArith Qabs Qround List Bool Lia Lqa.
From Stdlib Require Import Strings.String Strings.Ascii.
From Stdlib Require Import Sorting.Sorted Sorting.Permutation.
From Stdlib Require Import Structures.OrdersEx.
From stdpp Require Import gmap strings.

Import ListNotations.
Local Open Scope Z_scope.

(** ** Machine integers *)

Module Int.

Definition to_size_t (z : Z) : Z := z mod 2 ^ 64.
Definition to_uint32 (z : Z) : Z := z mod 2 ^ 32.
Definition to_uint16 (z : Z) : Z := z mod 2 ^ 16.

(** Conversion to a 32-bit two's complement [int]. *)
Definition to_int (z : Z) : Z := (z + 2 ^ 31) mod 2 ^ 32 - 2 ^ 31.

End Int.
Export Int.

(** ** Scalars *)

Abbreviation dReal := Q.

Definition Qltb (a b : Q) : bool := negb (Qle_bool b a).
Definition Qleb (a b : Q) : bool := Qle_bool a b.
Definition Qgeb (a b : Q) : bool := Qle_bool b a.
Definition Qgtb (a b : Q) : bool := negb (Qle_bool a b).

(** [std::min] and [std::max] on scalars, with the C++ tie rule. *)
Definition Qmaxb (a b : Q) : Q := if Qltb a b then b else a.

(** ** Exceptions *)

Inductive OpenRAVEErrorCode : Type :=
| ORE_Assert
| ORE_InvalidArguments
| ORE_InvalidState
| ORE_NotImplemented.

(** What an exception reports: the format string's role, with the values
    that the source substitutes into it. *)
Inductive Message : Type :=
| MsgAssertion (expr : string)
| MsgNotDivisible (remainder : Z)
| MsgCompare (lhs : string) (op : string) (rhs : string) (l r : Z)
| MsgNeedsOnePoint
| MsgNegativeDeltatime (deltatime : dReal) (point : Z) (npoints : Z)
| MsgNeedsDerivatives (interpolation name : string)
| MsgMissingData
| MsgIkNotImplemented (derivoffset ddoffset integoffset iioffset : Z)
| MsgInvalidSegment (name interpolation : string) (ipoint dof : Z)
| MsgUnsupportedVersion (version : Z)
| MsgEmptyStream.

Inductive exception : Type :=
| openrave_exception (msg : Message) (code : OpenRAVEErrorCode)
| std_out_of_range.

Inductive Result (A : Type) : Type :=
| Ok (a : A)
| Err (e : exception).
Arguments Ok {A} a.
Arguments Err {A} e.

Definition bind {A B} (m : Result A) (k : A -> Result B) : Result B :=
  match m with
  | Ok a => k a
  | Err e => Err e
  end.

Declare Scope result_scope.
Delimit Scope result_scope with result.
Notation "'let*' x ':=' m 'in' k" := (bind m (fun x => k))
  (at level 10, x name, m at level 100, k at level 200) : result_scope.
Notation "'check' m 'in' k" := (bind m (fun _ => k))
  (at level 10, m at level 100, k at level 200) : result_scope.
Local Open Scope result_scope.

Definition is_ok {A} (m : Result A) : bool :=
  match m with Ok _ => true | Err _ => false end.

Definition failed {A} (m : Result A) : Prop := exists e, m = Err e.

(** [BOOST_ASSERT]: the macro is configured outside the trajectory source;
    OpenRAVE installs an assertion handler that throws, so a failed
    assertion is a structured error of kind [ORE_Assert]. *)
Definition BOOST_ASSERT (cond : bool) (expr : string) : Result unit :=
  if cond then Ok tt else Err (openrave_exception (MsgAssertion expr) ORE_Assert).

(** [OPENRAVE_ASSERT_OP(lhs, op, rhs)] throws an [ORE_Assert] exception that
    carries both operands. *)
Definition OPENRAVE_ASSERT_OP (cond : bool) (lhs op rhs : string) (l r : Z)
  : Result unit :=
  if cond then Ok tt
  else Err (openrave_exception (MsgCompare lhs op rhs l r) ORE_Assert).

Definition throw {A} (msg : Message) (code : OpenRAVEErrorCode) : Result A :=
  Err (openrave_exception msg code).

(** ** Vectors *)

Section Vectors.
Context {A : Type}.

Definition vsize (v : list A) : Z := Z.of_nat (List.length v).

(** [v[k]] *)
Definition vec_get (d : A) (v : list A) (k : Z) : A :=
  if k <? 0 then d else nth (Z.to_nat k) v d.

(** [v.at(k)] *)
Definition vec_at (v : list A) (k : Z) : Result A :=
  if (0 <=? k) && (k <? vsize v)
  then match nth_error v (Z.to_nat k) with
       | Some x => Ok x
       | None => Err std_out_of_range
       end
  else Err std_out_of_range.

(** [*(it + k) = x] for an iterator at the start of [v]; a store outside
    the vector (undefined in C++) is dropped. *)
Definition vec_set (v : list A) (k : Z) (x : A) : list A :=
  if k <? 0 then v else <[Z.to_nat k := x]> v.

(** [std::copy(src.begin(), src.end(), v.begin() + k)] *)
Fixpoint vec_write (v : list A) (k : Z) (src : list A) : list A :=
  match src with
  | [] => v
  | x :: src' => vec_write (vec_set v k x) (k + 1) src'
  end.

(** The elements of [v] in [[from, from + n)]. *)
Definition vec_slice (v : list A) (from n : Z) : list A :=
  firstn (Z.to_nat n) (skipn (Z.to_nat from) v).

(** [v.insert(v.begin() + k, src.begin(), src.end())] *)
Definition vec_insert (v : list A) (k : Z) (src : list A) : list A :=
  firstn (Z.to_nat k) v ++ src ++ skipn (Z.to_nat k) v.

(** [v.erase(v.begin() + from, v.begin() + to)] *)
Definition vec_erase (v : list A) (from to : Z) : list A :=
  firstn (Z.to_nat from) v ++ skipn (Z.to_nat to) v.

End Vectors.

(** ** Strings *)

Module Str.

(** [s.size()] *)
Definition size (s : string) : Z := Z.of_nat (String.length s).

(** [s.find_first_of(c)], with [None] for [npos]. *)
Fixpoint find_first_of (s : string) (c : ascii) : option nat :=
  match s with
  | EmptyString => None
  | String a s' =>
      if Ascii.eqb a c then Some O
      else match find_first_of s' c with
           | Some i => Some (S i)
           | None => None
           end
  end.

(** [s.substr(pos, n)] and [s.substr(pos)] for [pos <= s.size()]. *)
Definition substr (s : string) (pos n : nat) : string := String.substring pos n s.
Definition substr_from (s : string) (pos : nat) : string :=
  String.substring pos (String.length s - pos) s.

(** The idiom [s.size() >= n && s.substr(0,n) == lit] of the source; the
    literal is compared with the [m] leading characters that the source
    extracts, which is not always the literal's own length. *)
Definition has_prefix (s : string) (n m : nat) (lit : string) : bool :=
  (Z.of_nat n <=? size s) && String.eqb (substr s 0 m) lit.

End Str.

(** ** Configuration specification *)

Record Group : Type := mkGroup {
  name : string;
  offset : Z;
  dof : Z;
  interpolation : string
}.

Record ConfigurationSpecification : Type := mkSpec {
  _vgroups : list Group
}.

Definition Group_eqb (g1 g2 : Group) : bool :=
  String.eqb (name g1) (name g2) && (offset g1 =? offset g2)
  && (dof g1 =? dof g2) && String.eqb (interpolation g1) (interpolation g2).

(** Modelled from the spec: [ConfigurationSpecification::GetDOF] is not part
    of the source tree.  The data model gives the total DOF as the extent of
    the covered channel range, that is the largest [offset + dof] of a group
    and [0] for a specification without groups; for a layout without gaps
    this is the sum of the groups' [dof]. *)
Definition GetDOF (spec : ConfigurationSpecification) : Z :=
  fold_left (fun m g => Z.max m (offset g + dof g)) (_vgroups spec) 0.

(** Four-component vector of the geometry library, as far as the rotation
    kernels use it. *)
Record Vector : Type := mkVector { vx : dReal; vy : dReal; vz : dReal; vw : dReal }.

Module Vec.
Local Open Scope Q_scope.
Definition zero : Vector := mkVector 0 0 0 0.
Definition add (a b : Vector) : Vector :=
  mkVector (vx a + vx b) (vy a + vy b) (vz a + vz b) (vw a + vw b).
Definition sub (a b : Vector) : Vector :=
  mkVector (vx a - vx b) (vy a - vy b) (vz a - vz b) (vw a - vw b).
Definition scale (a : Vector) (k : dReal) : Vector :=
  mkVector (vx a * k) (vy a * k) (vz a * k) (vw a * k).
Definition cross (a b : Vector) : Vector :=
  mkVector (vy a * vz b - vz a * vy b) (vz a * vx b - vx a * vz b)
           (vx a * vy b - vy a * vx b) 0.
Definition lengthsqr3 (a : Vector) : dReal := vx a * vx a + vy a * vy a + vz a * vz a.
(** [Vector(x,y,z)] *)
Definition make3 (x y z : dReal) : Vector := mkVector x y z 0.
End Vec.

(** *** The parts of OpenRAVE outside the source tree

    The trajectory calls into the OpenRAVE core (specification queries, data
    conversion, constants, quaternion algebra) and into the XML readers.
    None of that code is in the tree, so it enters as an interface; every
    statement below holds for each implementation of it. *)
Class RaveCore : Type := {
  (** numeric constants and functions *)
  g_fEpsilon : dReal;
  PI : dReal;
  RavePow : dReal -> dReal -> dReal;
  RaveSqrt : dReal -> dReal;
  RaveAsin : dReal -> dReal;
  (** [ConfigurationSpecification::operator==] *)
  spec_eqb : ConfigurationSpecification -> ConfigurationSpecification -> bool;
  (** group queries; [None] stands for the iterator [_vgroups.end()] *)
  FindCompatibleGroup : ConfigurationSpecification -> Group -> option Group;
  FindTimeDerivativeGroup : ConfigurationSpecification -> Group -> option Group;
  FindTimeIntegralGroup : ConfigurationSpecification -> Group -> option Group;
  GetInterpolationDerivative : string -> string;
  GetInterpolationIntegral : string -> string;
  (** [ConvertGroupData(ittarget, targetstride, gtarget, itsource,
      sourcestride, gsource, numpoints, env, filluninitialized)]: the stores
      it performs, each as the distance from [ittarget] and the value; the
      source data is what [itsource] points at. *)
  ConvertGroupData :
    Z -> Group -> list dReal -> Z -> Group -> Z -> bool -> list (Z * dReal);
  (** [stringstream ss(s); ss >> robotname >> affinedofs], with [None] when
      the stream fails *)
  parse_affinedofs : string -> option Z;
  RaveGetAffineDOF : Z -> Z;
  (** [RaveGetAffineDOFValuesFromTransform(v.begin(), Transform(), affinedofs)] *)
  RaveGetAffineDOFValuesFromIdentity : list dReal -> Z -> list dReal;
  (** [stringstream ss(s); int niktype = 0; ss >> niktype] *)
  parse_iktype : string -> Z;
  IKP_Rotation3D : Z;
  IKP_Transform6D : Z;
  IKP_TranslationDirection5D : Z;
  (** quaternion algebra *)
  quatSlerp : Vector -> Vector -> dReal -> Vector;
  quatMultiply : Vector -> Vector -> Vector;
  quatInverse : Vector -> Vector;
  quatFromAxisAngle : Vector -> Vector;
  quatRotate : Vector -> Vector -> Vector
}.

(** Debug level of the process, as the two tests the trajectory makes on
    it: [IS_DEBUGLEVEL(Level_Verbose) || (RaveGetDebugLevel() &
    Level_VerifyPlans)] and the same with [Level_Debug]. *)
Record DebugLevel : Type := mkDebugLevel {
  verbose_or_verifyplans : bool;
  debug_or_verifyplans : bool
}.

(** ** The trajectory *)

(** An interpolation kernel bound to a group by [_InitializeGroupFunctions];
    the rotation-aware ones carry the parsed [IkParameterizationType]. *)
Inductive Interpolator : Type :=
| InterpolatePrevious
| InterpolateNext
| InterpolateLinear
| InterpolateLinearIk (iktype : Z)
| InterpolateQuadratic
| InterpolateQuadraticIk (iktype : Z)
| InterpolateCubic
| InterpolateCubicIk (iktype : Z)
| InterpolateQuartic
| InterpolateQuintic
| InterpolateSextic
| InterpolateMax.

Inductive Validator : Type :=
| ValidateLinear
| ValidateQuadratic
| ValidateCubic
| ValidateQuartic
| ValidateQuintic
| ValidateSextic.

(** The state of a [GenericTrajectory].  An empty [boost::function] is
    [None].  The readable annotations and the description belong to the
    interface base class; [R] is the type of readable objects. *)
Record GenericTrajectory (R : Type) : Type := mkTraj {
  _spec : ConfigurationSpecification;
  _vgroupinterpolators : list (option Interpolator);
  _vgroupvalidators : list (option Validator);
  _vderivoffsets : list Z;
  _vddoffsets : list Z;
  _vdddoffsets : list Z;
  _vintegraloffsets : list Z;
  _viioffsets : list Z;
  _timeoffset : Z;
  _vtrajdata : list dReal;
  _vaccumtime : list dReal;
  _vdeltainvtime : list dReal;
  _bInit : bool;
  _bChanged : bool;
  _bSamplingVerified : bool;
  __description : string;
  __mapReadableInterfaces : gmap string R
}.
Arguments mkTraj {R}.
Arguments _spec {R}.
Arguments _vgroupinterpolators {R}.
Arguments _vgroupvalidators {R}.
Arguments _vderivoffsets {R}.
Arguments _vddoffsets {R}.
Arguments _vdddoffsets {R}.
Arguments _vintegraloffsets {R}.
Arguments _viioffsets {R}.
Arguments _timeoffset {R}.
Arguments _vtrajdata {R}.
Arguments _vaccumtime {R}.
Arguments _vdeltainvtime {R}.
Arguments _bInit {R}.
Arguments _bChanged {R}.
Arguments _bSamplingVerified {R}.
Arguments __description {R}.
Arguments __mapReadableInterfaces {R}.

(** The group functions: everything [_InitializeGroupFunctions] computes. *)
Record GroupFunctions : Type := mkGroupFunctions {
  gf_interpolators : list (option Interpolator);
  gf_validators : list (option Validator);
  gf_deriv : list Z;
  gf_dd : list Z;
  gf_ddd : list Z;
  gf_integral : list Z;
  gf_ii : list Z
}.

(** *** Group order *)

(** [_maporder], filled by the constructor. *)
Definition _maporder : list (string * Z) :=
  [ ("deltatime", 0); ("joint_snaps", 1); ("affine_snaps", 2);
    ("joint_jerks", 3); ("affine_jerks", 4); ("joint_accelerations", 5);
    ("affine_accelerations", 6); ("joint_velocities", 7);
    ("affine_velocities", 8); ("joint_values", 9); ("affine_transform", 10);
    ("joint_torques", 11) ]%string.

(** [_maporder.find(key)] *)
Fixpoint map_find (m : list (string * Z)) (key : string) : option Z :=
  match m with
  | [] => None
  | (k, v) :: m' => if String.eqb k key then Some v else map_find m' key
  end.

(** The text of a group name before its first space. *)
Definition group_prefix (g : Group) : string :=
  let index :=
    match Str.find_first_of (name g) " "%char with
    | Some i => i
    | None => String.length (name g)
    end in
  Str.substr (name g) 0 index.

Definition SortGroups (g1 g2 : Group) : bool :=
  let g1prefix := group_prefix g1 in
  let g2prefix := group_prefix g2 in
  match map_find _maporder g1prefix, map_find _maporder g2prefix with
  | None, None => String.ltb g1prefix g2prefix
  | None, _ => false
  | _, None => true
  | Some o1, Some o2 => o1 <? o2
  end.

(** [std::stable_sort(first, last, comp)].  For a strict weak ordering the
    standard fixes the result: the sorted arrangement in which equivalent
    elements keep their order.  Insertion from the right computes it. *)
Section StableSort.
Context {A : Type} (comp : A -> A -> bool).

Fixpoint stable_insert (x : A) (l : list A) : list A :=
  match l with
  | [] => [x]
  | y :: l' => if comp y x then y :: stable_insert x l' else x :: l
  end.

Fixpoint stable_sort (l : list A) : list A :=
  match l with
  | [] => []
  | x :: l' => stable_insert x (stable_sort l')
  end.
End StableSort.

Section Trajectory.
Context {core : RaveCore}.
Context {R : Type}.

Local Abbreviation Traj := (GenericTrajectory R).

Definition is_ik_linear (n : string) : bool :=
  Str.has_prefix n 14 14 "ikparam_values"
  || Str.has_prefix n 18 14 "ikparam_velocities"
  || Str.has_prefix n 21 21 "ikparam_accelerations".

Definition is_ik_quadratic (n : string) : bool :=
  Str.has_prefix n 14 14 "ikparam_values"
  || Str.has_prefix n 18 18 "ikparam_velocities".

Definition is_ik_cubic (n : string) : bool :=
  Str.has_prefix n 14 14 "ikparam_values".

Definition niktype_of (n : string) : Z := parse_iktype (Str.substr_from n 14).

(** The kernel, the validator and [nNeedNeighboringInfo] of one group. *)
Definition select_functions (g : Group)
  : option Interpolator * option Validator * Z :=
  let interp := interpolation g in
  let '(i1, v1, need) :=
    if String.eqb interp "previous" then (Some InterpolatePrevious, None, 0)
    else if String.eqb interp "next" then (Some InterpolateNext, None, 0)
    else if String.eqb interp "linear" then
      if is_ik_linear (name g)
      then (Some (InterpolateLinearIk (niktype_of (name g))), None, 2)
      else (Some InterpolateLinear, Some ValidateLinear, 2)
    else if String.eqb interp "quadratic" then
      if is_ik_quadratic (name g)
      then (Some (InterpolateQuadraticIk (niktype_of (name g))), None, 3)
      else (Some InterpolateQuadratic, Some ValidateQuadratic, 3)
    else if String.eqb interp "cubic" then
      if is_ik_cubic (name g)
      then (Some (InterpolateCubicIk (niktype_of (name g))), None, 3)
      else (Some InterpolateCubic, Some ValidateCubic, 3)
    else if String.eqb interp "quartic"
      then (Some InterpolateQuartic, Some ValidateQuartic, 3)
    else if String.eqb interp "quintic"
      then (Some InterpolateQuintic, Some ValidateQuintic, 3)
    else if String.eqb interp "sextic"
      then (Some InterpolateSextic, Some ValidateSextic, 3)
    else (None, None, 0) in
  let i2 :=
    if String.eqb interp "max" then Some InterpolateMax
    else if String.eqb interp "" then Some InterpolateNext
    else i1 in
  (i2, v1, need).

(** [for j in [0, g.dof): v[g.offset + j] = f j] *)
Definition set_channels (v : list Z) (g : Group) (f : Z -> Z) : list Z :=
  fold_left (fun v j => vec_set v (offset g + Z.of_nat j) (f (Z.of_nat j)))
            (seq 0 (Z.to_nat (dof g))) v.

(** A related group counts only when its interpolation label is the one
    expected from the parent's. *)
Definition accept_related (found : option Group) (expected : string)
  : option Group :=
  match found with
  | Some r =>
      if (Str.size (interpolation r) =? 0)
         || negb (String.eqb (interpolation r) expected)
      then None else Some r
  | None => None
  end.

(** The resolution of the derivative and integral chains of one group. *)
Definition resolve_offsets (spec : ConfigurationSpecification) (g : Group)
    (need : Z) (gf : GroupFunctions) : GroupFunctions :=
  let unavailable := fun _ : Z => - need in
  let from := fun (r : Group) (j : Z) => offset r + j in
  let gf :=
    match accept_related (FindTimeDerivativeGroup spec g)
                         (GetInterpolationDerivative (interpolation g)) with
    | None =>
        mkGroupFunctions (gf_interpolators gf) (gf_validators gf)
          (set_channels (gf_deriv gf) g unavailable)
          (gf_dd gf) (gf_ddd gf) (gf_integral gf) (gf_ii gf)
    | Some itderiv =>
        let deriv := set_channels (gf_deriv gf) g (from itderiv) in
        match accept_related (FindTimeDerivativeGroup spec itderiv)
                (GetInterpolationDerivative (interpolation itderiv)) with
        | None =>
            mkGroupFunctions (gf_interpolators gf) (gf_validators gf) deriv
              (set_channels (gf_dd gf) g unavailable)
              (gf_ddd gf) (gf_integral gf) (gf_ii gf)
        | Some itdd =>
            let dd := set_channels (gf_dd gf) g (from itdd) in
            match accept_related (FindTimeDerivativeGroup spec itdd)
                    (GetInterpolationDerivative (interpolation itdd)) with
            | None =>
                mkGroupFunctions (gf_interpolators gf) (gf_validators gf)
                  deriv dd (set_channels (gf_ddd gf) g unavailable)
                  (gf_integral gf) (gf_ii gf)
            | Some itddd =>
                mkGroupFunctions (gf_interpolators gf) (gf_validators gf)
                  deriv dd (set_channels (gf_ddd gf) g (from itddd))
                  (gf_integral gf) (gf_ii gf)
            end
        end
    end in
  match accept_related (FindTimeIntegralGroup spec g)
                       (GetInterpolationIntegral (interpolation g)) with
  | None =>
      mkGroupFunctions (gf_interpolators gf) (gf_validators gf)
        (gf_deriv gf) (gf_dd gf) (gf_ddd gf)
        (set_channels (gf_integral gf) g unavailable) (gf_ii gf)
  | Some itintegral =>
      let integral := set_channels (gf_integral gf) g (from itintegral) in
      match accept_related (FindTimeIntegralGroup spec itintegral)
              (GetInterpolationIntegral (interpolation itintegral)) with
      | None =>
          mkGroupFunctions (gf_interpolators gf) (gf_validators gf)
            (gf_deriv gf) (gf_dd gf) (gf_ddd gf) integral
            (set_channels (gf_ii gf) g unavailable)
      | Some itii =>
          mkGroupFunctions (gf_interpolators gf) (gf_validators gf)
            (gf_deriv gf) (gf_dd gf) (gf_ddd gf) integral
            (set_channels (gf_ii gf) g (from itii))
      end
  end.

(** One iteration of the loop over the groups. *)
Definition initialize_group (spec : ConfigurationSpecification)
    (gf : GroupFunctions) (g : Group) : GroupFunctions :=
  let '(i, v, need) := select_functions g in
  let gf :=
    mkGroupFunctions (gf_interpolators gf ++ [i]) (gf_validators gf ++ [v])
      (gf_deriv gf) (gf_dd gf) (gf_ddd gf) (gf_integral gf) (gf_ii gf) in
  if need =? 0 then gf else resolve_offsets spec g need gf.

Definition _InitializeGroupFunctions (spec : ConfigurationSpecification)
  : GroupFunctions :=
  let unset := repeat (-1) (Z.to_nat (GetDOF spec)) in
  fold_left (initialize_group spec) (_vgroups spec)
    (mkGroupFunctions [] [] unset unset unset unset unset).

(** [_timeoffset] after the loop of [Init]: the offset of the last group
    whose whole name is [deltatime]. *)
Definition find_timeoffset (groups : list Group) : Z :=
  fold_left (fun t g => if String.eqb (name g) "deltatime" then offset g else t)
            groups (-1).

(** [Init(spec, nWayPointsToReserve, options)].  The reservation only sets
    vector capacities and leaves no trace in the state. *)
Definition Init (spec : ConfigurationSpecification) (t : Traj) : Traj :=
  let t1 :=
    if _bInit t && spec_eqb (_spec t) spec then t
    else
      let sorted := mkSpec (stable_sort SortGroups (_vgroups spec)) in
      let gf := _InitializeGroupFunctions sorted in
      mkTraj sorted (gf_interpolators gf) (gf_validators gf)
        (gf_deriv gf) (gf_dd gf) (gf_ddd gf) (gf_integral gf) (gf_ii gf)
        (find_timeoffset (_vgroups sorted))
        (_vtrajdata t) (_vaccumtime t) (_vdeltainvtime t)
        false (_bChanged t) (_bSamplingVerified t)
        (__description t) (__mapReadableInterfaces t) in
  mkTraj (_spec t1) (_vgroupinterpolators t1) (_vgroupvalidators t1)
    (_vderivoffsets t1) (_vddoffsets t1) (_vdddoffsets t1)
    (_vintegraloffsets t1) (_viioffsets t1) (_timeoffset t1)
    [] [] [] true true false
    (__description t1) (__mapReadableInterfaces t1).

(** The trajectory as its constructor leaves it ([_bChanged] is not set by
    the constructor; [Init] sets it before anything reads it). *)
Definition new_trajectory : Traj :=
mkTraj (mkSpec []) [] [] [] [] [] [] [] (-1) [] [] [] false false false
  ""%string ∅.

(** *** Waypoint buffer *)

Definition with_trajdata (t : Traj) (data : list dReal) (changed verified : bool)
  : Traj :=
mkTraj (_spec t) (_vgroupinterpolators t) (_vgroupvalidators t)
  (_vderivoffsets t) (_vddoffsets t) (_vdddoffsets t)
  (_vintegraloffsets t) (_viioffsets t) (_timeoffset t)
  data (_vaccumtime t) (_vdeltainvtime t)
  (_bInit t) changed verified
  (__description t) (__mapReadableInterfaces t).

(** [_spec.GetDOF()] where the source uses it in [size_t] arithmetic. *)
Definition dof_size (t : Traj) : Z := to_size_t (GetDOF (_spec t)).

(** [index*_spec.GetDOF()] in [size_t]. *)
Definition row_begin (t : Traj) (index : Z) : Z := to_size_t (index * dof_size t).

(** [GetNumWaypoints()] *)
Definition GetNumWaypoints (t : Traj) : Z := vsize (_vtrajdata t) / dof_size t.

Definition ClearWaypoints (t : Traj) : Traj :=
if _bInit t then
  if vsize (_vtrajdata t) >? 0 then with_trajdata t [] true false else t
else t.

(** [OPENRAVE_ASSERT_FORMAT((n % dof) == 0, "%d does not divide dof %d", ...,
    ORE_InvalidArguments)] *)
Definition assert_divides (n d : Z) : Result unit :=
if (n mod d) =? 0 then Ok tt
else throw (MsgNotDivisible (n mod d)) ORE_InvalidArguments.

(** [Insert(index, pdata, nDataElements, bOverwrite)]; [pdata] is the array
    of [nDataElements] values. *)
Definition Insert (index : Z) (pdata : list dReal) (bOverwrite : bool) (t : Traj)
  : Result Traj :=
let nDataElements := vsize pdata in
check BOOST_ASSERT (_bInit t) "_bInit" in
if nDataElements =? 0 then Ok t
else
  check BOOST_ASSERT (GetDOF (_spec t) >? 0) "_spec.GetDOF()>0" in
  check assert_divides nDataElements (dof_size t) in
  check OPENRAVE_ASSERT_OP (row_begin t index <=? vsize (_vtrajdata t))
          "index*_spec.GetDOF()" "<=" "_vtrajdata.size()"
          (row_begin t index) (vsize (_vtrajdata t)) in
  let data :=
    if bOverwrite && (row_begin t index <? vsize (_vtrajdata t)) then
      let copysize := Z.min nDataElements (vsize (_vtrajdata t) - row_begin t index) in
      let data := vec_write (_vtrajdata t) (row_begin t index)
                            (firstn (Z.to_nat copysize) pdata) in
      if copysize <? nDataElements
      then vec_insert data (vsize data) (skipn (Z.to_nat copysize) pdata)
      else data
    else vec_insert (_vtrajdata t) (row_begin t index) pdata in
  Ok (with_trajdata t data true (_bSamplingVerified t)).

(** The default values of a group that has no source group. *)
Definition default_values (g : Group) : Result (list dReal) :=
let vdefaultvalues := repeat (0%Q : dReal) (Z.to_nat (dof g)) in
if Str.has_prefix (name g) 16 16 "affine_transform" then
  match parse_affinedofs (Str.substr_from (name g) 16) with
  | Some affinedofs =>
      check BOOST_ASSERT (to_int (vsize vdefaultvalues) =? RaveGetAffineDOF affinedofs)
              "(int)vdefaultvalues.size()==RaveGetAffineDOF(affinedofs)" in
      Ok (RaveGetAffineDOFValuesFromIdentity vdefaultvalues affinedofs)
  | None => Ok vdefaultvalues
  end
else if Str.has_prefix (name g) 13 13 "outputSignals" then
  Ok (repeat ((-1)%Q : dReal) (Z.to_nat (dof g)))
else Ok vdefaultvalues.

(** The stores [*(ittargetdata+offset+j) = vdefaultvalues[j]] of every
    element and channel. *)
Definition fill_defaults (target : list dReal) (base : Z) (g : Group)
    (stride numelements : Z) (vdefaultvalues : list dReal) : list dReal :=
fold_left
  (fun tgt ielement =>
     fold_left
       (fun tgt j =>
          vec_set tgt (base + (offset g + Z.of_nat ielement * stride) + Z.of_nat j)
                  (vec_get (0%Q : dReal) vdefaultvalues (Z.of_nat j)))
       (seq 0 (Z.to_nat (dof g))) tgt)
  (seq 0 (Z.to_nat numelements)) target.

(** [_ConvertData(ittargetdata, psourcedata, vconvertgroups, spec,
    numelements, filluninitialized)], where [ittargetdata] is [base] places
    into [target] and [psourcedata] is the start of [source]. *)
Definition _ConvertData (t : Traj) (target : list dReal) (base : Z)
    (source : list dReal) (vconvertgroups : list (option Group))
    (spec : ConfigurationSpecification) (numelements : Z)
    (filluninitialized : bool) : Result (list dReal) :=
fold_left
  (fun acc '(g, found) =>
     let* tgt := acc in
     match found with
     | Some gsource =>
         let stores :=
           ConvertGroupData (GetDOF (_spec t)) g
             (skipn (Z.to_nat (offset gsource)) source)
             (GetDOF spec) gsource numelements filluninitialized in
         Ok (fold_left (fun tgt '(k, x) => vec_set tgt (base + offset g + k) x)
                       stores tgt)
     | None =>
         if filluninitialized then
           let* vdefaultvalues := default_values g in
           Ok (fill_defaults tgt base g (GetDOF (_spec t)) numelements vdefaultvalues)
         else Ok tgt
     end)
  (combine (_vgroups (_spec t)) vconvertgroups) (Ok target).

(** [Insert(index, pdata, nDataElements, spec, bOverwrite)] *)
Definition InsertSpec (index : Z) (pdata : list dReal)
    (spec : ConfigurationSpecification) (bOverwrite : bool) (t : Traj)
  : Result Traj :=
let nDataElements := vsize pdata in
let sdof := to_size_t (GetDOF spec) in
check BOOST_ASSERT (_bInit t) "_bInit" in
if nDataElements =? 0 then Ok t
else
  check BOOST_ASSERT (GetDOF spec >? 0) "spec.GetDOF()>0" in
  check assert_divides nDataElements sdof in
  check OPENRAVE_ASSERT_OP (row_begin t index <=? vsize (_vtrajdata t))
          "index*_spec.GetDOF()" "<=" "_vtrajdata.size()"
          (row_begin t index) (vsize (_vtrajdata t)) in
  if spec_eqb (_spec t) spec then Insert index pdata bOverwrite t
  else
    let vconvertgroups := map (FindCompatibleGroup spec) (_vgroups (_spec t)) in
    let numpoints := nDataElements / sdof in
    let* overwritten :=
      if bOverwrite && (row_begin t index <? vsize (_vtrajdata t)) then
        let copyelements :=
          Z.min numpoints (to_size_t (vsize (_vtrajdata t) / dof_size t - index)) in
        let* data := _ConvertData t (_vtrajdata t) (row_begin t index) pdata
                       vconvertgroups spec copyelements false in
        Ok (data, to_size_t (copyelements * sdof), to_size_t (index + copyelements))
      else Ok (_vtrajdata t, 0, index) in
    let '(data, sourceindex, index) := overwritten in
    let* data :=
      if sourceindex <? nDataElements then
        let numelements := (nDataElements - sourceindex) / sdof in
        let vtemp := repeat (0%Q : dReal) (Z.to_nat (to_size_t (numelements * dof_size t))) in
        let* vtemp := _ConvertData t vtemp 0 (skipn (Z.to_nat sourceindex) pdata)
                        vconvertgroups spec numelements true in
        Ok (vec_insert data (row_begin t index) vtemp)
      else Ok data in
    Ok (with_trajdata t data true (_bSamplingVerified t)).

(** [Remove(startindex, endindex)] *)
Definition Remove (startindex endindex : Z) (t : Traj) : Result Traj :=
check BOOST_ASSERT (_bInit t) "_bInit" in
if startindex =? endindex then Ok t
else
  check BOOST_ASSERT ((row_begin t startindex <=? vsize (_vtrajdata t))
                      && (row_begin t endindex <=? vsize (_vtrajdata t)))
          "startindex*_spec.GetDOF() <= _vtrajdata.size() && endindex*_spec.GetDOF() <= _vtrajdata.size()" in
  check OPENRAVE_ASSERT_OP (startindex <? endindex) "startindex" "<" "endindex"
          startindex endindex in
  Ok (with_trajdata t
        (vec_erase (_vtrajdata t) (row_begin t startindex) (row_begin t endindex))
        true (_bSamplingVerified t)).
End Trajectory.

(** ** Time index *)

Section TimeIndex.
Context {core : RaveCore}.
Context {R : Type}.

Local Abbreviation Traj := (GenericTrajectory R).

Definition with_times (t : Traj) (accum inv : list dReal) (changed verified : bool)
  : Traj :=
mkTraj (_spec t) (_vgroupinterpolators t) (_vgroupvalidators t)
  (_vderivoffsets t) (_vddoffsets t) (_vdddoffsets t)
  (_vintegraloffsets t) (_viioffsets t) (_timeoffset t)
  (_vtrajdata t) accum inv
  (_bInit t) changed verified
  (__description t) (__mapReadableInterfaces t).

(** [_vtrajdata[k]] *)
Definition traj_get (t : Traj) (k : Z) : dReal := vec_get 0%Q (_vtrajdata t) k.

(** The loop of [_ComputeInternal] over the points [i = 1 .. n-1]: the
    arrays built so far with the last accumulated time, or the exception
    of the first negative [deltatime].  For a [deltatime] of zero the
    source stores the floating-point infinity [1/0.0] as reciprocal; the
    rationals have no such value and [1 / 0] is [0] here, so whatever is
    proved of a value computed from a stored reciprocal is proved for a
    positive [deltatime] only. *)
Definition accumulate_point (t : Traj) (n : Z)
    (acc : Result (list dReal * list dReal * dReal)) (i : nat)
  : Result (list dReal * list dReal * dReal) :=
let* state := acc in
let '(accum, inv, last) := state in
let deltatime := traj_get t (dof_size t * Z.of_nat i + _timeoffset t) in
if Qltb deltatime 0
then throw (MsgNegativeDeltatime deltatime (Z.of_nat i) n) ORE_InvalidState
else Ok (accum ++ [(last + deltatime)%Q], inv ++ [(1 / deltatime)%Q],
         (last + deltatime)%Q).

(** [_ComputeInternal()].  The function is [const] in the source and
    writes the [mutable] members; here it returns the trajectory with the
    rebuilt arrays.  When it throws, the source leaves [_bChanged] set. *)
Definition _ComputeInternal (t : Traj) : Result Traj :=
if negb (_bChanged t) then Ok t
else if _timeoffset t <? 0 then Ok (with_times t [] [] false false)
else
  let n := GetNumWaypoints t in
  if n =? 0 then Ok (with_times t [] [] (_bChanged t) (_bSamplingVerified t))
  else
    let* first := vec_at (_vtrajdata t) (_timeoffset t) in
    let* arrays :=
      fold_left (accumulate_point t n) (seq 1 (Z.to_nat n - 1))
                (Ok ([first], [(1 / first)%Q], first)) in
    let '(accum, inv, _) := arrays in
    Ok (with_times t accum inv false false).

(** [GetDuration()] *)
Definition GetDuration (t : Traj) : Result (Traj * dReal) :=
check BOOST_ASSERT (_bInit t) "_bInit" in
let* t := _ComputeInternal t in
Ok (t, if vsize (_vaccumtime t) >? 0 then List.last (_vaccumtime t) 0%Q else 0%Q).

(** [std::lower_bound(v.begin(), v.end(), x) - v.begin()]: the first
    position whose element is not less than [x].  The accumulated times are
    non-decreasing (see [accum_sorted]), which is what the binary search of
    the library needs to return this position. *)
Fixpoint lower_bound (v : list dReal) (x : dReal) : Z :=
match v with
| [] => 0
| y :: v' => if Qltb y x then 1 + lower_bound v' x else 0
end.

(** [GetFirstWaypointIndexAfterTime(time)] *)
Definition GetFirstWaypointIndexAfterTime (t : Traj) (time : dReal)
  : Result (Traj * Z) :=
check BOOST_ASSERT (_bInit t) "_bInit" in
check BOOST_ASSERT (_timeoffset t >=? 0) "_timeoffset>=0" in
let* t := _ComputeInternal t in
if vsize (_vaccumtime t) =? 0 then Ok (t, 0)
else
  let* first := vec_at (_vaccumtime t) 0 in
  if Qltb time first then Ok (t, 0)
  else
    let* last := vec_at (_vaccumtime t) (vsize (_vaccumtime t) - 1) in
    if Qgeb time last then Ok (t, GetNumWaypoints t)
    else Ok (t, lower_bound (_vaccumtime t) time).
End TimeIndex.

(** ** Interpolation kernels *)

Section Kernels.
Context {core : RaveCore}.
Context {R : Type}.

Local Abbreviation Traj := (GenericTrajectory R).
Local Open Scope Q_scope.

(** [for(int i = 0; i < g.dof; ++i) *(itdata + g.offset+i) = f i], where
    evaluating [f i] may throw. *)
Definition for_channels (g : Group) (f : Z -> Result dReal) (itdata : list dReal)
  : Result (list dReal) :=
fold_left
  (fun acc i =>
     let* out := acc in
     let* x := f (Z.of_nat i) in
     Ok (vec_set out (offset g + Z.of_nat i)%Z x))
  (seq 0 (Z.to_nat (dof g))) (Ok itdata).

(** [std::copy(_vtrajdata.begin()+from, _vtrajdata.begin()+from+g.dof,
    itdata+g.offset)] *)
Definition copy_group (t : Traj) (g : Group) (from : Z) (itdata : list dReal)
  : list dReal :=
vec_write itdata (offset g) (vec_slice (_vtrajdata t) from (dof g)).

(** [_spec.GetDOF()] as the stride between two waypoints. *)
Definition stride (t : Traj) : Z := GetDOF (_spec t).

(** [v.Set4(&_vtrajdata[k])] and [v.Set3(&_vtrajdata[k])] *)
Definition Set4 (t : Traj) (k : Z) : Vector :=
mkVector (traj_get t k) (traj_get t (k + 1)) (traj_get t (k + 2)) (traj_get t (k + 3)).
Definition Set3 (t : Traj) (k : Z) : Vector :=
Vec.make3 (traj_get t k) (traj_get t (k + 1)) (traj_get t (k + 2)).

(** The stores of the first four, or three, components at [itdata + g.offset]. *)
Definition store4 (g : Group) (q : Vector) (itdata : list dReal) : list dReal :=
vec_set (vec_set (vec_set (vec_set itdata (offset g + 0) (vx q))
  (offset g + 1) (vy q)) (offset g + 2) (vz q)) (offset g + 3) (vw q).
Definition store3 (g : Group) (q : Vector) (itdata : list dReal) : list dReal :=
vec_set (vec_set (vec_set itdata (offset g + 0) (vx q))
  (offset g + 1) (vy q)) (offset g + 2) (vz q).

Definition is_rotation (iktype : Z) : bool :=
((iktype =? IKP_Rotation3D) || (iktype =? IKP_Transform6D))%Z.
Definition is_direction (iktype : Z) : bool :=
(iktype =? IKP_TranslationDirection5D)%Z.

Definition _InterpolatePrevious (t : Traj) (g : Group) (ipoint : Z)
    (deltatime : dReal) (itdata : list dReal) : Result (list dReal) :=
let offset0 := (ipoint * stride t + offset g)%Z in
let* from :=
  if ((ipoint + 1) * stride t <? vsize (_vtrajdata t))%Z then
    let* inv := vec_at (_vdeltainvtime t) (ipoint + 1) in
    let f := inv * deltatime in
    Ok (if Qgtb f (1 - g_fEpsilon) then (offset0 + stride t)%Z else offset0)
  else Ok offset0 in
Ok (copy_group t g from itdata).

Definition _InterpolateNext (t : Traj) (g : Group) (ipoint : Z)
    (deltatime : dReal) (itdata : list dReal) : Result (list dReal) :=
let ipoint :=
  if ((ipoint + 1) * stride t <? vsize (_vtrajdata t))%Z
  then (ipoint + 1)%Z else ipoint in
let offset0 := (ipoint * stride t + offset g)%Z in
let from :=
  if Qleb deltatime g_fEpsilon && (ipoint >? 0)%Z
  then (offset0 - stride t)%Z else offset0 in
Ok (copy_group t g from itdata).

Definition _InterpolateLinear (t : Traj) (g : Group) (ipoint : Z)
    (deltatime : dReal) (itdata : list dReal) : Result (list dReal) :=
let off := (ipoint * stride t)%Z in
let derivoffset := vec_get (0%Z) (_vderivoffsets t) (offset g) in
if (derivoffset <? 0)%Z then
  let* inv := vec_at (_vdeltainvtime t) (ipoint + 1) in
  let f := inv * deltatime in
  for_channels g
    (fun i => Ok (traj_get t (off + offset g + i) * (1 - f)
                  + f * traj_get t (stride t + off + offset g + i)))
    itdata
else
  for_channels g
    (fun i =>
       let deriv0 := traj_get t (stride t + off + derivoffset + i) in
       Ok (traj_get t (off + offset g + i) + deltatime * deriv0))
    itdata.

Definition _InterpolateLinearIk (t : Traj) (g : Group) (ipoint : Z)
    (deltatime : dReal) (itdata : list dReal) (iktype : Z)
  : Result (list dReal) :=
let* itdata := _InterpolateLinear t g ipoint deltatime itdata in
if Qgtb deltatime g_fEpsilon then
  let off := (ipoint * stride t)%Z in
  let* inv := vec_at (_vdeltainvtime t) (ipoint + 1) in
  let f := inv * deltatime in
  if is_rotation iktype then
    let q0 := Set4 t (off + offset g) in
    let q1 := Set4 t (stride t + off + offset g) in
    Ok (store4 g (quatSlerp q0 q1 f) itdata)
  else if is_direction iktype then
    let dir0 := Set3 t (off + offset g) in
    let dir1 := Set3 t (stride t + off + offset g) in
    let axisangle := Vec.cross dir0 dir1 in
    let fsinangle := RaveSqrt (Vec.lengthsqr3 axisangle) in
    if Qgtb fsinangle g_fEpsilon then
      let axisangle :=
        Vec.scale axisangle
          (f * RaveAsin (if Qltb fsinangle 1 then fsinangle else 1) / fsinangle) in
      Ok (store3 g (quatRotate (quatFromAxisAngle axisangle) dir0) itdata)
    else Ok itdata
  else Ok itdata
else Ok itdata.

Definition _InterpolateQuadratic (t : Traj) (g : Group) (ipoint : Z)
    (deltatime : dReal) (itdata : list dReal) : Result (list dReal) :=
let off := (ipoint * stride t)%Z in
if Qgtb deltatime g_fEpsilon then
  let derivoffset := vec_get (0%Z) (_vderivoffsets t) (offset g) in
  if (derivoffset >=? 0)%Z then
    for_channels g
      (fun i =>
         let deriv0 := traj_get t (off + derivoffset + i) in
         let deriv1 := traj_get t (stride t + off + derivoffset + i) in
         let* inv := vec_at (_vdeltainvtime t) (ipoint + 1) in
         let coeff := 0.5 * inv * (deriv1 - deriv0) in
         Ok (traj_get t (off + offset g + i) + deltatime * (deriv0 + deltatime * coeff)))
      itdata
  else
    let* ideltatime := vec_at (_vdeltainvtime t) (ipoint + 1) in
    let ideltatime2 := ideltatime * ideltatime in
    let integraloffset := vec_get (0%Z) (_vintegraloffsets t) (offset g) in
    for_channels g
      (fun i =>
         let integral0 := traj_get t (off + integraloffset + i) in
         let integral1 := traj_get t (stride t + off + integraloffset + i) in
         let value0 := traj_get t (off + offset g + i) in
         let value1 := traj_get t (stride t + off + offset g + i) in
         let c1TimesDelta :=
           6 * (integral1 - integral0) * ideltatime - 4 * value0 - 2 * value1 in
         let c1 := c1TimesDelta * ideltatime in
         let c2 := (value1 - value0 - c1TimesDelta) * ideltatime2 in
         Ok (value0 + deltatime * (c1 + deltatime * c2)))
      itdata
else
  for_channels g (fun i => Ok (traj_get t (off + offset g + i))) itdata.

Definition _InterpolateQuadraticIk (t : Traj) (g : Group) (ipoint : Z)
    (deltatime : dReal) (itdata : list dReal) (iktype : Z)
  : Result (list dReal) :=
let* itdata := _InterpolateQuadratic t g ipoint deltatime itdata in
if Qgtb deltatime g_fEpsilon then
  let derivoffset := vec_get (0%Z) (_vderivoffsets t) (offset g) in
  let off := (ipoint * stride t)%Z in
  if is_rotation iktype then
    let q0 := Set4 t (off + offset g) in
    let q0vel := Set4 t (off + derivoffset) in
    let q1 := Set4 t (stride t + off + offset g) in
    let q1vel := Set4 t (stride t + off + derivoffset) in
    let angularvelocity0 := Vec.scale (quatMultiply q0vel (quatInverse q0)) 2 in
    let angularvelocity1 := Vec.scale (quatMultiply q1vel (quatInverse q1)) 2 in
    let* inv := vec_at (_vdeltainvtime t) (ipoint + 1) in
    let coeff := Vec.scale (Vec.sub angularvelocity1 angularvelocity0) (0.5 * inv) in
    let vtotaldelta :=
      Vec.add (Vec.scale angularvelocity0 deltatime)
              (Vec.scale coeff (deltatime * deltatime)) in
    let q := quatMultiply
               (quatFromAxisAngle
                  (Vec.make3 (vy vtotaldelta) (vz vtotaldelta) (vw vtotaldelta)))
               q0 in
    Ok (store4 g q itdata)
  else if is_direction iktype then
    let dir0 := Set3 t (off + offset g) in
    let dir1 := Set3 t (stride t + off + offset g) in
    let axisangle := Vec.cross dir0 dir1 in
    if Qgtb (Vec.lengthsqr3 axisangle) g_fEpsilon then
      let angularvelocity0 := Set3 t (off + derivoffset) in
      let angularvelocity1 := Set3 t (stride t + off + derivoffset) in
      let* inv := vec_at (_vdeltainvtime t) (ipoint + 1) in
      let coeff := Vec.scale (Vec.sub angularvelocity1 angularvelocity0) (0.5 * inv) in
      let vtotaldelta :=
        Vec.add (Vec.scale angularvelocity0 deltatime)
                (Vec.scale coeff (deltatime * deltatime)) in
      Ok (store3 g (quatRotate (quatFromAxisAngle vtotaldelta) dir0) itdata)
    else Ok itdata
  else Ok itdata
else Ok itdata.
Definition _InterpolateCubic (t : Traj) (g : Group) (ipoint : Z)
    (deltatime : dReal) (itdata : list dReal) : Result (list dReal) :=
let off := (ipoint * stride t)%Z in
if Qgtb deltatime g_fEpsilon then
  let derivoffset := vec_get (0%Z) (_vderivoffsets t) (offset g) in
  let integoffset := vec_get (0%Z) (_vintegraloffsets t) (offset g) in
  let iioffset := vec_get (0%Z) (_viioffsets t) (offset g) in
  if (derivoffset >=? 0)%Z then
    let* ideltatime := vec_at (_vdeltainvtime t) (ipoint + 1) in
    let ideltatime2 := ideltatime * ideltatime in
    let ideltatime3 := ideltatime2 * ideltatime in
    for_channels g
      (fun i =>
         let deriv0 := traj_get t (off + derivoffset + i) in
         let deriv1 := traj_get t (stride t + off + derivoffset + i) in
         let* next := vec_at (_vtrajdata t) (stride t + off + offset g + i) in
         let px := next - traj_get t (off + offset g + i) in
         let c3 := (deriv1 + deriv0) * ideltatime2 - 2 * px * ideltatime3 in
         let c2 := 3 * px * ideltatime2 - (2 * deriv0 + deriv1) * ideltatime in
         Ok (traj_get t (off + offset g + i)
             + deltatime * (deriv0 + deltatime * (c2 + deltatime * c3))))
      itdata
  else if (integoffset >=? 0)%Z && (iioffset >=? 0)%Z then
    let* ideltatime := vec_at (_vdeltainvtime t) (ipoint + 1) in
    let ideltatime2 := ideltatime * ideltatime in
    let ideltatime3 := ideltatime2 * ideltatime in
    let ideltatime4 := ideltatime3 * ideltatime in
    let ideltatime5 := ideltatime4 * ideltatime in
    for_channels g
      (fun i =>
         let integ0 := traj_get t (off + integoffset + i) in
         let idiff := traj_get t (stride t + off + integoffset + i) - integ0 in
         let temp := traj_get t (stride t + off + iioffset + i)
                     - traj_get t (off + iioffset + i) - integ0 * deltatime in
         let x0 := traj_get t (off + offset g + i) in
         let* x1 := vec_at (_vtrajdata t) (stride t + off + offset g + i) in
         let c3 := 10 * (x1 - x0) * ideltatime3 - 60 * idiff * ideltatime4
                   + 120 * temp * ideltatime5 in
         let c2 := (18 * x0 - 12 * x1) * ideltatime2 + 84 * idiff * ideltatime3
                   - 180 * temp * ideltatime4 in
         let c1 := (-9 * x0 + 3 * x1) * ideltatime - 24 * idiff * ideltatime2
                   + 60 * temp * ideltatime3 in
         Ok (x0 + deltatime * (c1 + deltatime * (c2 + deltatime * c3))))
      itdata
  else throw MsgMissingData ORE_InvalidArguments
else
  for_channels g (fun i => Ok (traj_get t (off + offset g + i))) itdata.

Definition _InterpolateCubicIk (t : Traj) (g : Group) (ipoint : Z)
    (deltatime : dReal) (itdata : list dReal) (iktype : Z)
  : Result (list dReal) :=
let* itdata := _InterpolateCubic t g ipoint deltatime itdata in
if Qgtb deltatime g_fEpsilon then
  let derivoffset := vec_get (0%Z) (_vderivoffsets t) (offset g) in
  let ddoffset := vec_get (0%Z) (_vddoffsets t) (offset g) in
  let integoffset := vec_get (0%Z) (_vintegraloffsets t) (offset g) in
  let iioffset := vec_get (0%Z) (_viioffsets t) (offset g) in
  if (derivoffset >=? 0)%Z && (ddoffset >=? 0)%Z then
    let off := (ipoint * stride t)%Z in
    let nextoffset := (off + stride t)%Z in
    if is_rotation iktype then
      let q0 := Set4 t (off + offset g) in
      let q0vel := Set4 t (off + derivoffset) in
      let q0acc := Set4 t (off + ddoffset) in
      let q1 := Set4 t (nextoffset + offset g) in
      let q1acc := Set4 t (nextoffset + ddoffset) in
      let angularVelocityPrev := Vec.scale (quatMultiply q0vel (quatInverse q0)) 2.0 in
      let angularAccelerationPrev :=
        Vec.scale (quatMultiply q0acc (quatInverse q0)) 2.0 in
      let angularAcceleration :=
        Vec.scale (quatMultiply q1acc (quatInverse q1)) 2.0 in
      let* inv := vec_at (_vdeltainvtime t) (ipoint + 1) in
      let j := Vec.scale (Vec.sub angularAcceleration angularAccelerationPrev) inv in
      let totalDelta :=
        Vec.scale
          (Vec.add angularVelocityPrev
             (Vec.scale
                (Vec.add (Vec.scale angularAccelerationPrev 0.5)
                         (Vec.scale j (deltatime / 6.0)))
                deltatime))
          deltatime in
      let q := quatMultiply
                 (quatFromAxisAngle
                    (Vec.make3 (vy totalDelta) (vz totalDelta) (vw totalDelta)))
                 q0 in
      Ok (store4 g q itdata)
    else Ok itdata
  else
    throw (MsgIkNotImplemented derivoffset ddoffset integoffset iioffset)
          ORE_NotImplemented
else Ok itdata.

Definition _InterpolateQuartic (t : Traj) (g : Group) (ipoint : Z)
    (deltatime : dReal) (itdata : list dReal) : Result (list dReal) :=
let off := (ipoint * stride t)%Z in
if Qgtb deltatime g_fEpsilon then
  let derivoffset := vec_get (0%Z) (_vderivoffsets t) (offset g) in
  let ddoffset := vec_get (0%Z) (_vddoffsets t) (offset g) in
  let integoffset := vec_get (0%Z) (_vintegraloffsets t) (offset g) in
  if (derivoffset >=? 0)%Z && (ddoffset >=? 0)%Z then
    let* ideltatime := vec_at (_vdeltainvtime t) (ipoint + 1) in
    let ideltatime2 := ideltatime * ideltatime in
    let ideltatime3 := ideltatime2 * ideltatime in
    for_channels g
      (fun i =>
         let deriv0 := traj_get t (off + derivoffset + i) in
         let deriv1 := traj_get t (stride t + off + derivoffset + i) in
         let dd0 := traj_get t (off + ddoffset + i) in
         let dd1 := traj_get t (stride t + off + ddoffset + i) in
         let c4 := -0.5 * (deriv1 - deriv0) * ideltatime3
                   + (dd0 + dd1) * ideltatime2 * 0.25 in
         let c3 := (deriv1 - deriv0) * ideltatime2
                   - (2 * dd0 + dd1) * ideltatime / 3.0 in
         Ok (traj_get t (off + offset g + i)
             + deltatime * (deriv0 + deltatime * (0.5 * dd0
                 + deltatime * (c3 + deltatime * c4)))))
      itdata
  else if (derivoffset >=? 0)%Z && (integoffset >=? 0)%Z then
    let* ideltatime := vec_at (_vdeltainvtime t) (ipoint + 1) in
    let ideltatime2 := ideltatime * ideltatime in
    let ideltatime3 := ideltatime2 * ideltatime in
    let ideltatime4 := ideltatime3 * ideltatime in
    let ideltatime5 := ideltatime4 * ideltatime in
    for_channels g
      (fun i =>
         let deriv0 := traj_get t (off + derivoffset + i) in
         let deriv1 := traj_get t (stride t + off + derivoffset + i) in
         let pos0 := traj_get t (off + offset g + i) in
         let pos1 := traj_get t (stride t + off + offset g + i) in
         let idiff := traj_get t (stride t + off + integoffset + i)
                      - traj_get t (off + integoffset + i) in
         let c4 := 2.5 * (deriv1 - deriv0) * ideltatime3
                   - 15 * (pos0 + pos1) * ideltatime4 + 30 * idiff * ideltatime5 in
         let c3 := (6 * deriv0 - 4 * deriv1) * ideltatime2
                   + (32 * pos0 + 28 * pos1) * ideltatime3
                   - 60 * idiff * ideltatime4 in
         let c2 := (-4.5 * deriv0 + 1.5 * deriv1) * ideltatime
                   - (18 * pos0 + 12 * pos1) * ideltatime2
                   + 30 * idiff * ideltatime3 in
         Ok (pos0 + deltatime * (deriv0 + deltatime * (c2
                 + deltatime * (c3 + deltatime * c4)))))
      itdata
  else throw MsgMissingData ORE_InvalidArguments
else
  for_channels g (fun i => Ok (traj_get t (off + offset g + i))) itdata.

Definition _InterpolateQuintic (t : Traj) (g : Group) (ipoint : Z)
    (deltatime : dReal) (itdata : list dReal) : Result (list dReal) :=
let off := (ipoint * stride t)%Z in
if Qgtb deltatime g_fEpsilon then
  let derivoffset := vec_get (0%Z) (_vderivoffsets t) (offset g) in
  let ddoffset := vec_get (0%Z) (_vddoffsets t) (offset g) in
  if (derivoffset >=? 0)%Z && (ddoffset >=? 0)%Z then
    let* ideltatime := vec_at (_vdeltainvtime t) (ipoint + 1) in
    let ideltatime2 := ideltatime * ideltatime in
    let ideltatime3 := ideltatime2 * ideltatime in
    let ideltatime4 := ideltatime2 * ideltatime2 in
    let ideltatime5 := ideltatime4 * ideltatime in
    for_channels g
      (fun i =>
         let p0 := traj_get t (off + offset g + i) in
         let px := traj_get t (stride t + off + offset g + i) - p0 in
         let deriv0 := traj_get t (off + derivoffset + i) in
         let deriv1 := traj_get t (stride t + off + derivoffset + i) in
         let dd0 := traj_get t (off + ddoffset + i) in
         let dd1 := traj_get t (stride t + off + ddoffset + i) in
         let c5 := (-0.5 * dd0 + dd1 * 0.5) * ideltatime3
                   - (3 * deriv0 + 3 * deriv1) * ideltatime4
                   + px * 6 * ideltatime5 in
         let c4 := (1.5 * dd0 - dd1) * ideltatime2
                   + (8 * deriv0 + 7 * deriv1) * ideltatime3
                   - px * 15 * ideltatime4 in
         let c3 := (-1.5 * dd0 + dd1 * 0.5) * ideltatime
                   + (-6 * deriv0 - 4 * deriv1) * ideltatime2
                   + px * 10 * ideltatime3 in
         Ok (p0 + deltatime * (deriv0 + deltatime * (0.5 * dd0
                 + deltatime * (c3 + deltatime * (c4 + deltatime * c5))))))
      itdata
  else throw MsgMissingData ORE_InvalidArguments
else
  for_channels g (fun i => Ok (traj_get t (off + offset g + i))) itdata.

Definition _InterpolateSextic (t : Traj) (g : Group) (ipoint : Z)
    (deltatime : dReal) (itdata : list dReal) : Result (list dReal) :=
let off := (ipoint * stride t)%Z in
if Qgtb deltatime g_fEpsilon then
  let derivoffset := vec_get (0%Z) (_vderivoffsets t) (offset g) in
  let ddoffset := vec_get (0%Z) (_vddoffsets t) (offset g) in
  let dddoffset := vec_get (0%Z) (_vdddoffsets t) (offset g) in
  if (derivoffset >=? 0)%Z && (ddoffset >=? 0)%Z && (dddoffset >=? 0)%Z then
    let* ideltatime := vec_at (_vdeltainvtime t) (ipoint + 1) in
    let ideltatime2 := ideltatime * ideltatime in
    let ideltatime3 := ideltatime2 * ideltatime in
    let ideltatime4 := ideltatime2 * ideltatime2 in
    let ideltatime5 := ideltatime4 * ideltatime in
    for_channels g
      (fun i =>
         let p0 := traj_get t (off + offset g + i) in
         let deriv0 := traj_get t (off + derivoffset + i) in
         let deriv1 := traj_get t (stride t + off + derivoffset + i) in
         let dd0 := traj_get t (off + ddoffset + i) in
         let dd1 := traj_get t (stride t + off + ddoffset + i) in
         let ddd0 := traj_get t (off + dddoffset + i) in
         let ddd1 := traj_get t (stride t + off + dddoffset + i) in
         let c6 := (- dd0 - dd1) * 0.5 * ideltatime4
                   + (- ddd0 + ddd1) / 12.0 * ideltatime3
                   + (- deriv0 + deriv1) * ideltatime5 in
         let c5 := (1.6 * dd0 + 1.4 * dd1) * ideltatime3
                   + (0.3 * ddd0 - ddd1 * 0.2) * ideltatime2
                   + (3 * deriv0 - 3 * deriv1) * ideltatime4 in
         let c4 := (-1.5 * dd0 - dd1) * ideltatime2
                   + (-0.375 * ddd0 + ddd1 * 0.125) * ideltatime
                   + (-2.5 * deriv0 + 2.5 * deriv1) * ideltatime3 in
         Ok (p0 + deltatime * (deriv0 + deltatime * (0.5 * dd0
                 + deltatime * (ddd0 / 6.0 + deltatime * (c4
                     + deltatime * (c5 + deltatime * c6)))))))
      itdata
  else throw MsgMissingData ORE_InvalidArguments
else
  for_channels g (fun i => Ok (traj_get t (off + offset g + i))) itdata.

Definition _InterpolateMax (t : Traj) (g : Group) (ipoint : Z)
    (deltatime : dReal) (itdata : list dReal) : Result (list dReal) :=
let off := (ipoint * stride t + offset g)%Z in
for_channels g
  (fun i => Ok (Qmaxb (traj_get t (off + i)) (traj_get t (stride t + off + i))))
  itdata.

(** The call [_vgroupinterpolators[i](ipoint, deltatime, itdata)] of a bound
    kernel; the group is the one it was bound to, [_spec._vgroups[i]]. *)
Definition run_interpolator (t : Traj) (k : Interpolator) (g : Group)
    (ipoint : Z) (deltatime : dReal) (itdata : list dReal)
  : Result (list dReal) :=
match k with
| InterpolatePrevious => _InterpolatePrevious t g ipoint deltatime itdata
| InterpolateNext => _InterpolateNext t g ipoint deltatime itdata
| InterpolateLinear => _InterpolateLinear t g ipoint deltatime itdata
| InterpolateLinearIk iktype => _InterpolateLinearIk t g ipoint deltatime itdata iktype
| InterpolateQuadratic => _InterpolateQuadratic t g ipoint deltatime itdata
| InterpolateQuadraticIk iktype =>
    _InterpolateQuadraticIk t g ipoint deltatime itdata iktype
| InterpolateCubic => _InterpolateCubic t g ipoint deltatime itdata
| InterpolateCubicIk iktype => _InterpolateCubicIk t g ipoint deltatime itdata iktype
| InterpolateQuartic => _InterpolateQuartic t g ipoint deltatime itdata
| InterpolateQuintic => _InterpolateQuintic t g ipoint deltatime itdata
| InterpolateSextic => _InterpolateSextic t g ipoint deltatime itdata
| InterpolateMax => _InterpolateMax t g ipoint deltatime itdata
end.
End Kernels.

(** ** Sampling *)

Section Sampling.
Context {core : RaveCore}.
Context {R : Type}.

Local Abbreviation Traj := (GenericTrajectory R).
Local Open Scope Q_scope.

Definition g_fEpsilonLinear : dReal := RavePow g_fEpsilon 0.9.

(** [for(int i = 0; i < g.dof; ++i) body i], where the body may throw. *)
Definition for_dof (g : Group) (body : Z -> Result unit) : Result unit :=
fold_left (fun acc i => check acc in body (Z.of_nat i))
          (seq 0 (Z.to_nat (dof g))) (Ok tt).

Definition invalid_segment (g : Group) (ipoint i : Z) : Result unit :=
throw (MsgInvalidSegment (name g) (interpolation g) ipoint i) ORE_InvalidState.

Definition _ValidateLinear (t : Traj) (g : Group) (ipoint : Z) (deltatime : dReal)
  : Result unit :=
let off := (ipoint * stride t)%Z in
let derivoffset := vec_get (0%Z) (_vderivoffsets t) (offset g) in
if (derivoffset >=? 0)%Z then
  for_dof g
    (fun i =>
       let deriv0 := traj_get t (stride t + off + derivoffset + i) in
       let expected := traj_get t (off + offset g + i) + deltatime * deriv0 in
       let error := Qabs (traj_get t (stride t + off + offset g + i) - expected) in
       if Qgtb (Qabs (error - 2 * PI)) g_fEpsilonLinear then
         if Qleb error g_fEpsilonLinear then Ok tt else invalid_segment g ipoint i
       else Ok tt)
else Ok tt.

Definition _ValidateQuadratic (t : Traj) (g : Group) (ipoint : Z)
    (deltatime : dReal) : Result unit :=
if Qgtb deltatime g_fEpsilon then
  let off := (ipoint * stride t)%Z in
  let derivoffset := vec_get (0%Z) (_vderivoffsets t) (offset g) in
  if (derivoffset >=? 0)%Z then
    for_dof g
      (fun i =>
         let deriv0 := traj_get t (off + derivoffset + i) in
         let* inv := vec_at (_vdeltainvtime t) (ipoint + 1) in
         let coeff :=
           0.5 * inv * (traj_get t (stride t + off + derivoffset + i) - deriv0) in
         let expected :=
           traj_get t (off + offset g + i) + deltatime * (deriv0 + deltatime * coeff) in
         let* next := vec_at (_vtrajdata t) (stride t + off + offset g + i) in
         let error := Qabs (next - expected) in
         if Qgtb (Qabs (error - 2 * PI)) 1e-5 then
           if Qleb error 1e-4 then Ok tt else invalid_segment g ipoint i
         else Ok tt)
  else
    let integraloffset := vec_get (0%Z) (_vintegraloffsets t) (offset g) in
    BOOST_ASSERT (integraloffset >=? 0)%Z "integraloffset>=0"
else Ok tt.

(** The call [_vgroupvalidators[i](ipoint, deltatime)]; the validators of
    the higher degrees have empty bodies. *)
Definition run_validator (t : Traj) (v : Validator) (g : Group) (ipoint : Z)
    (deltatime : dReal) : Result unit :=
match v with
| ValidateLinear => _ValidateLinear t g ipoint deltatime
| ValidateQuadratic => _ValidateQuadratic t g ipoint deltatime
| ValidateCubic | ValidateQuartic | ValidateQuintic | ValidateSextic => Ok tt
end.

(** The test made for every channel of every group: a group that needs
    neighbouring information and has neither derivative nor integral. *)
Definition check_group_samplable (t : Traj) (g : Group) : Result unit :=
for_dof g
  (fun j =>
     let* d := vec_at (_vderivoffsets t) (offset g + j) in
     if (d <? -2)%Z then
       let* i := vec_at (_vintegraloffsets t) (offset g + j) in
       if (i <? -2)%Z
       then throw (MsgNeedsDerivatives (interpolation g) (name g)) ORE_InvalidArguments
       else Ok tt
     else Ok tt).

Definition with_verified (t : Traj) (verified : bool) : Traj :=
with_times t (_vaccumtime t) (_vdeltainvtime t) (_bChanged t) verified.

(** [_VerifySampling()].  The first loop of the source only logs a warning
    for each group without kernel; it reads [_spec._vgroups.at(i)] for every
    kernel slot. *)
Definition _VerifySampling (dbg : DebugLevel) (t : Traj) : Result Traj :=
check BOOST_ASSERT (negb (_bChanged t)) "!_bChanged" in
check BOOST_ASSERT (_bInit t) "_bInit" in
if _bSamplingVerified t then Ok t
else
  check (if (vsize (_vgroupinterpolators t) <=? vsize (_vgroups (_spec t)))%Z
         then Ok tt else Err std_out_of_range) in
  check fold_left (fun acc g => check acc in check_group_samplable t g)
          (_vgroups (_spec t)) (Ok tt) in
  check (if debug_or_verifyplans dbg then
           fold_left
             (fun acc ipoint =>
                check acc in
                let deltatime :=
                  vec_get 0 (_vaccumtime t) (Z.of_nat ipoint + 1)
                  - vec_get 0 (_vaccumtime t) (Z.of_nat ipoint) in
                fold_left
                  (fun acc '(v, g) =>
                     check acc in
                     match v with
                     | Some v => run_validator t v g (Z.of_nat ipoint) deltatime
                     | None => Ok tt
                     end)
                  (combine (_vgroupvalidators t) (_vgroups (_spec t))) (Ok tt))
             (seq 0 (List.length (_vaccumtime t) - 1)) (Ok tt)
         else Ok tt) in
  Ok (with_verified t true).

(** The loop of [Sample] over the bound kernels. *)
Definition interpolate_groups (t : Traj) (ipoint : Z) (deltatime : dReal)
    (data : list dReal) : Result (list dReal) :=
fold_left
  (fun acc '(k, g) =>
     let* data := acc in
     match k with
     | Some k => run_interpolator t k g ipoint deltatime data
     | None => Ok data
     end)
  (combine (_vgroupinterpolators t) (_vgroups (_spec t))) (Ok data).

(** [data.at(k) = x] *)
Definition vec_at_put (data : list dReal) (k : Z) (x : dReal) : Result (list dReal) :=
check vec_at data k in Ok (vec_set data k x).

(** [Sample(data, time)]: the trajectory with its refreshed caches, and
    the sampled row. *)
Definition Sample (dbg : DebugLevel) (t : Traj) (time : dReal)
  : Result (Traj * list dReal) :=
check BOOST_ASSERT (_bInit t) "_bInit" in
check BOOST_ASSERT (_timeoffset t >=? 0)%Z "_timeoffset>=0" in
check BOOST_ASSERT (Qgeb time 0) "time >= 0" in
let* t := _ComputeInternal t in
check (if (to_int (vsize (_vtrajdata t)) >=? stride t)%Z then Ok tt
       else throw MsgNeedsOnePoint ORE_InvalidArguments) in
let* t := if verbose_or_verifyplans dbg then _VerifySampling dbg t else Ok t in
let data := repeat (0 : dReal) (Z.to_nat (stride t)) in
let* td := GetDuration t in
let '(t, duration) := td in
if Qgeb time duration then
  Ok (t, vec_write data 0
           (vec_slice (_vtrajdata t) (vsize (_vtrajdata t) - stride t) (stride t)))
else
  let it := lower_bound (_vaccumtime t) time in
  if (it =? 0)%Z then
    let data := vec_write data 0 (vec_slice (_vtrajdata t) 0 (stride t)) in
    let* data := vec_at_put data (_timeoffset t) time in
    Ok (t, data)
  else
    let index := it in
    let* before := vec_at (_vaccumtime t) (index - 1) in
    let deltatime := time - before in
    let* waypointdeltatime :=
      vec_at (_vtrajdata t) (stride t * index + _timeoffset t) in
    let deltatime :=
      if Qltb deltatime 0 then 0
      else if Qgtb deltatime waypointdeltatime then waypointdeltatime
      else deltatime in
    let* data := interpolate_groups t (index - 1) deltatime data in
    let* data := vec_at_put data (_timeoffset t) deltatime in
    Ok (t, data).
End Sampling.

(** ** Binary serialization *)

(** A stream is the sequence of its bytes. *)
Definition stream : Type := list ascii.

Module Bin.

(** The [n] bytes of an unsigned value, least significant first (the
    layout written by [f.write((const char* ) &value, sizeof(value))] on the
    little-endian targets of the format). *)
Fixpoint bytes_of_uint (n : nat) (v : Z) : list ascii :=
match n with
| O => []
| S n' => ascii_of_N (Z.to_N (v mod 256)) :: bytes_of_uint n' (v / 256)
end.

Fixpoint uint_of_bytes (bs : list ascii) : Z :=
match bs with
| [] => 0
| b :: bs' => Z.of_N (N_of_ascii b) + 256 * uint_of_bytes bs'
end.

(** What a read of [n] bytes finds: the bytes, and the rest of the stream.
    A stream that ends early gives the bytes it has, completed with NUL
    (the source leaves the tail of the destination as it was and ignores
    the failure, except for the first read of [deserialize]). *)
Definition read_bytes (n : Z) (f : stream) : list ascii * stream :=
let got := firstn (Z.to_nat n) f in
(got ++ repeat zero (Z.to_nat n - List.length got), skipn (Z.to_nat n) f).

Definition WriteBinaryUInt16 (value : Z) : stream := bytes_of_uint 2 value.
Definition WriteBinaryUInt32 (value : Z) : stream := bytes_of_uint 4 value.
Definition WriteBinaryInt (value : Z) : stream := bytes_of_uint 4 (to_uint32 value).

Definition WriteBinaryString (s : string) : Result stream :=
check BOOST_ASSERT (Str.size s <=? 65535)
        "s.length() <= std::numeric_limits<uint16_t>::max()" in
let length := to_uint16 (Str.size s) in
Ok (WriteBinaryUInt16 length
    ++ (if length >? 0 then firstn (Z.to_nat length) (list_ascii_of_string s) else [])).

Definition ReadBinaryUInt16 (f : stream) : Z * stream :=
let '(bs, f) := read_bytes 2 f in (uint_of_bytes bs, f).

Definition ReadBinaryUInt32 (f : stream) : Z * stream :=
let '(bs, f) := read_bytes 4 f in (uint_of_bytes bs, f).

Definition ReadBinaryInt (f : stream) : Z * stream :=
let '(bs, f) := read_bytes 4 f in (to_int (uint_of_bytes bs), f).

Definition ReadBinaryString (f : stream) : string * stream :=
let '(length, f) := ReadBinaryUInt16 f in
if length >? 0 then
  let '(bs, f) := read_bytes length f in (string_of_list_ascii bs, f)
else (EmptyString, f).

End Bin.

(** The memory image of a [dReal]: [sizeof(dReal)] bytes, and every such
    block of bytes is the image of the scalar read from it. *)
Class DRealLayout : Type := {
  sizeof_dReal : Z;
  dReal_bytes : dReal -> list ascii;
  dReal_of_bytes : list ascii -> dReal;
  sizeof_dReal_pos : 0 < sizeof_dReal;
  dReal_bytes_length : forall x, vsize (dReal_bytes x) = sizeof_dReal;
  dReal_bytes_of_bytes :
    forall bs, vsize bs = sizeof_dReal -> dReal_bytes (dReal_of_bytes bs) = bs
}.

(** The readable annotations: what the serializer asks of an annotation,
    and what the deserializer builds.  [R] is the type of the objects a
    (non-null) [ReadablePtr] points to. *)
Class Readables (R : Type) : Type := {
  (** [r->SerializeJSON(rReadable, ...)], with the C string
      [rReadable.GetString()] when it returns true *)
  SerializeJSON : R -> option string;
  (** whether the dynamic cast to [HierarchicalXMLReadable] succeeds *)
  is_HierarchicalXMLReadable : R -> bool;
  (** the text streamed by a writer with root element [root] after
      [pHierarchical->SerializeXML(writer, options)] *)
  SerializeHierarchicalXML : R -> Z -> string;
  (** [r->SerializeXML(writer, 0)] with a writer without root element, and
      the text it streams when the call returns true *)
  SerializeXML : R -> option string;
  (** [new StringReadable(id, data)] *)
  StringReadable : string -> string -> R;
  (** the reader after [ParseXMLData(xmlreader, payload)], for
      [HierarchicalXMLReader xmlreader(id, AttributesList())] *)
  HierarchicalXMLReader : Type;
  ParseXMLData : string -> string -> HierarchicalXMLReader;
  GetHierarchicalReadable : HierarchicalXMLReader -> option R;
  GetReadable : HierarchicalXMLReader -> option R;
  _listchildren : R -> list R;
  (** the base class, for the textual format *)
  TSO_SerializeAsXML : Z;
  TrajectoryBase_serialize : GenericTrajectory R -> Z -> Result stream;
  TrajectoryBase_deserialize : stream -> GenericTrajectory R -> Result (GenericTrajectory R)
}.

Definition BINARY_TRAJECTORY_MAGIC_NUMBER : Z := 0x62ff.
Definition BINARY_TRAJECTORY_VERSION_NUMBER : Z := 0x0003.

Section Serializer.
Context {core : RaveCore}.
Context {layout : DRealLayout}.
Context {R : Type} {readables : Readables R}.

Local Abbreviation Traj := (GenericTrajectory R).
Import Bin.

(** [WriteBinaryVector(f, v)] *)
Definition WriteBinaryVector (v : list dReal) : stream :=
let numDataPoints := to_uint32 (vsize v) in
WriteBinaryUInt32 numDataPoints
++ concat (map dReal_bytes (firstn (Z.to_nat numDataPoints) v)).

(** The [count] scalars of a block of [count * sizeof(dReal)] bytes. *)
Fixpoint scalars_of_bytes (count : nat) (bs : list ascii) : list dReal :=
match count with
| O => []
| S count' =>
    dReal_of_bytes (firstn (Z.to_nat sizeof_dReal) bs)
    :: scalars_of_bytes count' (skipn (Z.to_nat sizeof_dReal) bs)
end.

(** [ReadBinaryVector(f, v)] *)
Definition ReadBinaryVector (f : stream) : list dReal * stream :=
let '(numDataPoints, f) := ReadBinaryUInt32 f in
let '(bs, f) := read_bytes (numDataPoints * sizeof_dReal) f in
(scalars_of_bytes (Z.to_nat numDataPoints) bs, f).

Definition write_group (g : Group) : Result stream :=
let* n := WriteBinaryString (name g) in
let* i := WriteBinaryString (interpolation g) in
Ok (n ++ WriteBinaryInt (offset g) ++ WriteBinaryInt (dof g) ++ i).

(** The payload and the reader-type tag written for one annotation. *)
Definition readable_payload (options : Z) (r : R) : string * string :=
match SerializeJSON r with
| Some json => (json, "StringReadable"%string)
| None =>
    if is_HierarchicalXMLReadable r
    then (SerializeHierarchicalXML r options, "HierarchicalXMLReadable"%string)
    else match SerializeXML r with
         | Some xml => (xml, "StringReadable"%string)
         | None => (EmptyString, "StringReadable"%string)
         end
end.

Definition write_readable (options : Z) (entry : string * R) : Result stream :=
let '(payload, tag) := readable_payload options (snd entry) in
let* i := WriteBinaryString (fst entry) in
let* p := WriteBinaryString payload in
let* k := WriteBinaryString tag in
Ok (i ++ p ++ k).

(** The concatenation of the pieces written by a loop. *)
Definition write_all {A} (w : A -> Result stream) (l : list A) : Result stream :=
fold_right (fun x rest => let* a := w x in let* b := rest in Ok (a ++ b))
           (Ok []) l.

(** Modelled from the spec: the readable annotations are an ordered
    mapping from id, kept by the interface base class, which is not in
    the source tree.  [GetReadableInterfaces()] is walked by increasing
    id, the order in which such a map iterates. *)
Definition GetReadableInterfaces (t : Traj) : list (string * R) :=
stable_sort (fun a b => String.ltb (fst a) (fst b))
            (map_to_list (__mapReadableInterfaces t)).

(** The binary branch of [serialize(O, options)].  The annotations are
    written in the iteration order of the map. *)
Definition serialize_binary (t : Traj) (options : Z) : Result stream :=
let numGroups := to_uint16 (vsize (_vgroups (_spec t))) in
let* groups := write_all write_group (_vgroups (_spec t)) in
let* description := WriteBinaryString (__description t) in
let numReadableInterfaces := to_uint16 (Z.of_nat (size (__mapReadableInterfaces t))) in
let* annotations :=
  write_all (write_readable options) (GetReadableInterfaces t) in
Ok (WriteBinaryUInt16 BINARY_TRAJECTORY_MAGIC_NUMBER
    ++ WriteBinaryUInt16 BINARY_TRAJECTORY_VERSION_NUMBER
    ++ WriteBinaryUInt16 numGroups
    ++ groups
    ++ WriteBinaryVector (_vtrajdata t)
    ++ description
    ++ WriteBinaryUInt16 numReadableInterfaces
    ++ annotations).

Definition serialize (t : Traj) (options : Z) : Result stream :=
if negb (Z.land options TSO_SerializeAsXML =? 0)
then TrajectoryBase_serialize t options
else serialize_binary t options.

(** The loop that reads [numGroups] groups. *)
Fixpoint read_groups (n : nat) (f : stream) : list Group * stream :=
match n with
| O => ([], f)
| S n' =>
    let '(gname, f) := ReadBinaryString f in
    let '(goffset, f) := ReadBinaryInt f in
    let '(gdof, f) := ReadBinaryInt f in
    let '(ginterpolation, f) := ReadBinaryString f in
    let '(rest, f) := read_groups n' f in
    (mkGroup gname goffset gdof ginterpolation :: rest, f)
end.

(** Modelled from the spec: [SetReadableInterface] belongs to the interface
    base class, which is not in the source tree.  An annotation is stored
    verbatim under its id and replaces an earlier one; a null pointer
    stores nothing and removes the entry. *)
Definition SetReadableInterface (id : string) (readable : option R)
    (m : gmap string R) : gmap string R :=
match readable with
| Some r => <[id := r]> m
| None => delete id m
end.

(** The annotation built from one record of the stream. *)
Definition read_readable (versionNumber : Z) (xmlid payload readerType : string)
  : option R :=
if versionNumber >=? 3 then
  if String.eqb readerType "HierarchicalXMLReadable" then
    let xmlreader := ParseXMLData xmlid payload in
    match GetHierarchicalReadable xmlreader with
    | Some h =>
        if vsize (_listchildren h) =? 1
        then List.head (_listchildren h)
        else Some h
    | None => GetReadable xmlreader
    end
  else Some (StringReadable xmlid payload)
else Some (StringReadable xmlid payload).

(** The loop over the annotations, with the reader type of each
    record; it is read only from version 3 on. *)
Fixpoint read_readables (versionNumber : Z) (n : nat) (f : stream)
    (m : gmap string R) : gmap string R * stream :=
match n with
| O => (m, f)
| S n' =>
    let '(xmlid, f) := ReadBinaryString f in
    let '(payload, f) := ReadBinaryString f in
    let '(readerType, f) :=
      if versionNumber >=? 3 then ReadBinaryString f else (EmptyString, f) in
    read_readables versionNumber n' f
      (SetReadableInterface xmlid (read_readable versionNumber xmlid payload readerType) m)
end.

Definition with_contents (t : Traj) (data : list dReal) (description : string)
    (m : gmap string R) : Traj :=
mkTraj (_spec t) (_vgroupinterpolators t) (_vgroupvalidators t)
  (_vderivoffsets t) (_vddoffsets t) (_vdddoffsets t)
  (_vintegraloffsets t) (_viioffsets t) (_timeoffset t)
  data (_vaccumtime t) (_vdeltainvtime t)
  (_bInit t) (_bChanged t) (_bSamplingVerified t)
  description m.

Definition uninitialized (t : Traj) : Traj :=
mkTraj (_spec t) (_vgroupinterpolators t) (_vgroupvalidators t)
  (_vderivoffsets t) (_vddoffsets t) (_vdddoffsets t)
  (_vintegraloffsets t) (_viioffsets t) (_timeoffset t)
  (_vtrajdata t) (_vaccumtime t) (_vdeltainvtime t)
  false (_bChanged t) (_bSamplingVerified t)
  (__description t) (__mapReadableInterfaces t).

(** [deserialize(I)] *)
Definition deserialize (I : stream) (t : Traj) : Result Traj :=
if vsize I <? 2 then throw MsgEmptyStream ORE_InvalidArguments
else
  let '(binaryFileHeader, f) := ReadBinaryUInt16 I in
  if binaryFileHeader =? BINARY_TRAJECTORY_MAGIC_NUMBER then
    let '(versionNumber, f) := ReadBinaryUInt16 f in
    if (versionNumber >? BINARY_TRAJECTORY_VERSION_NUMBER) || (versionNumber <? 1)
    then throw (MsgUnsupportedVersion versionNumber) ORE_InvalidArguments
    else
      let '(numGroups, f) := ReadBinaryUInt16 f in
      let '(groups, f) := read_groups (Z.to_nat numGroups) f in
      let t := Init (mkSpec groups) (uninitialized t) in
      let '(data, f) := ReadBinaryVector f in
      let '(description, f) := ReadBinaryString f in
      let '(m, f) :=
        if versionNumber >=? 2 then
          let '(numReadableInterfaces, f) := ReadBinaryUInt16 f in
          read_readables versionNumber (Z.to_nat numReadableInterfaces) f ∅
        else (∅, f) in
      Ok (with_contents t data description m)
  else TrajectoryBase_deserialize I t.
End Serializer.

(** * Further operations

    The operations of the source that read the trajectory or copy it, and
    the string helpers of the JSON downloader that precede the trajectory
    in the source file. *)

(** ** Reading waypoints *)

Section Access.
Context {core : RaveCore}.
Context {R : Type}.

Local Abbreviation Traj := (GenericTrajectory R).

(** [data.resize(n, 0)]: the first [n] elements that [data] has, completed
    with zeros. *)
Definition vec_resize (data : list dReal) (n : Z) : list dReal :=
firstn (Z.to_nat n) data ++ repeat (0%Q : dReal) (Z.to_nat n - List.length data).

(** [GetWaypoints(startindex, endindex, data)]; [data] is the vector the
    caller passes, with whatever it holds, and the result is that vector
    after the call.  The copy of a range whose end lies before its start
    (possible only when a product wraps in [size_t]) is undefined in C++
    and copies nothing here. *)
Definition GetWaypoints (startindex endindex : Z) (data : list dReal) (t : Traj)
  : Result (list dReal) :=
check BOOST_ASSERT (_bInit t) "_bInit" in
check BOOST_ASSERT ((startindex <=? endindex)
                    && (row_begin t startindex <=? vsize (_vtrajdata t))
                    && (row_begin t endindex <=? vsize (_vtrajdata t)))
        "startindex<=endindex && startindex*_spec.GetDOF() <= _vtrajdata.size() && endindex*_spec.GetDOF() <= _vtrajdata.size()" in
let data := vec_resize data (to_size_t ((endindex - startindex) * dof_size t)) in
Ok (vec_write data 0
      (vec_slice (_vtrajdata t) (row_begin t startindex)
                 (row_begin t endindex - row_begin t startindex))).

(** The members of the interface base class. *)
Definition with_base (t : Traj) (base : string * gmap string R) : Traj :=
mkTraj (_spec t) (_vgroupinterpolators t) (_vgroupvalidators t)
  (_vderivoffsets t) (_vddoffsets t) (_vdddoffsets t)
  (_vintegraloffsets t) (_viioffsets t) (_timeoffset t)
  (_vtrajdata t) (_vaccumtime t) (_vdeltainvtime t)
  (_bInit t) (_bChanged t) (_bSamplingVerified t)
  (fst base) (snd base).

Section Cloning.
(** [InterfaceBase::Clone(preference, cloningoptions)] is outside the
    source tree.  It is a method of the base class and works on the members
    of the base class: from the cloning options, the members of the
    preference and those of this object it gives the new members of this
    object. *)
Variable InterfaceBase_Clone :
  Z -> string * gmap string R -> string * gmap string R -> string * gmap string R.

(** [Clone(preference, cloningoptions)] for a preference [r] that is a
    [GenericTrajectory] other than this object. *)
Definition Clone (r : Traj) (cloningoptions : Z) (t : Traj) : Result Traj :=
let t := with_base t
           (InterfaceBase_Clone cloningoptions
              (__description r, __mapReadableInterfaces r)
              (__description t, __mapReadableInterfaces t)) in
let t := Init (_spec r) t in
check BOOST_ASSERT (_bInit r) "_bInit" in
let* data := GetWaypoints 0 (GetNumWaypoints r) (_vtrajdata t) r in
Ok (with_trajdata t data true (_bSamplingVerified t)).
End Cloning.
End Access.

(** ** URI helpers of the JSON downloader *)

Module URI.

(** [s.find_last_of(c)], with [None] for [npos]. *)
Fixpoint find_last_of (s : string) (c : ascii) : option nat :=
match s with
| EmptyString => None
| String a s' =>
    match find_last_of s' c with
    | Some i => Some (S i)
    | None => if Ascii.eqb a c then Some O else None
    end
end.

(** [_EndsWith(fullString, endString)]; [compare(pos, len, str) == 0] holds
    when the [len] characters from [pos] are the string [str]. *)
Definition _EndsWith (fullString endString : string) : bool :=
if (String.length endString <=? String.length fullString)%nat then
  String.eqb
    (Str.substr fullString (String.length fullString - String.length endString)
                (String.length endString))
    endString
else false.

(** [_GetPath(uri)] *)
Definition _GetPath (uri : string) : string :=
match find_last_of uri "#" with
| Some hashindex => Str.substr uri 0 hashindex
| None => uri
end.

(** [ParseURI(uri, scheme, path, fragment)].  The three results are
    reference parameters; [path] is always assigned, [scheme] and
    [fragment] keep the value the caller passed when the uri has no colon,
    or no hash.  The result is [(scheme, path, fragment)]. *)
Definition ParseURI (uri scheme fragment : string) : string * string * string :=
let path := uri in
let '(path, fragment) :=
  match find_last_of path "#" with
  | Some hashindex =>
      (Str.substr path 0 hashindex, Str.substr_from path (hashindex + 1))
  | None => (path, fragment)
  end in
match Str.find_first_of path ":" with
| Some colonindex =>
    (Str.substr path 0 colonindex, Str.substr_from path (colonindex + 1), fragment)
| None => (scheme, path, fragment)
end.

Section Resolve.
(** [RaveFindLocalFile(filename, curdir)] of the OpenRAVE core. *)
Variable RaveFindLocalFile : string -> string -> string.

(** [ResolveURI(scheme, path, curdir, vOpenRAVESchemeAliases)] *)
Definition ResolveURI_scheme (scheme path curdir : string)
    (vOpenRAVESchemeAliases : list string) : string :=
if String.eqb scheme "" && String.eqb path "" then ""%string
else if String.eqb scheme "file" then RaveFindLocalFile path curdir
else if existsb (String.eqb scheme) vOpenRAVESchemeAliases
     then RaveFindLocalFile path curdir
else ""%string.

(** [ResolveURI(uri, curdir, vOpenRAVESchemeAliases)] *)
Definition ResolveURI (uri curdir : string) (vOpenRAVESchemeAliases : list string)
  : string :=
let '(scheme, path, fragment) := ParseURI uri "" "" in
ResolveURI_scheme scheme path curdir vOpenRAVESchemeAliases.
End Resolve.

End URI.

(** * An implementation of the interfaces

    The examples below evaluate the model.  For that the interfaces need
    an implementation; this one follows the specification where it says
    what the operation does (group lookup, the derivative and integral
    tables, channel-by-channel conversion) and uses rational stand-ins for
    the transcendental functions. *)

Module Ref.

Definition category (n : string) : string := group_prefix (mkGroup n 0 0 "").

Definition parameters (n : string) : string :=
Str.substr_from n (String.length (category n)).

Definition find_group (spec : ConfigurationSpecification) (p : Group -> bool)
  : option Group := List.find p (_vgroups spec).

Definition derivative_table : list (string * string) :=
[ ("joint_values", "joint_velocities"); ("joint_velocities", "joint_accelerations");
  ("joint_accelerations", "joint_jerks"); ("joint_jerks", "joint_snaps");
  ("affine_transform", "affine_velocities");
  ("affine_velocities", "affine_accelerations");
  ("affine_accelerations", "affine_jerks"); ("affine_jerks", "affine_snaps");
  ("ikparam_values", "ikparam_velocities");
  ("ikparam_velocities", "ikparam_accelerations") ]%string.

Definition interpolation_table : list (string * string) :=
[ ("sextic", "quintic"); ("quintic", "quartic"); ("quartic", "cubic");
  ("cubic", "quadratic"); ("quadratic", "linear"); ("linear", "next") ]%string.

Fixpoint lookup (table : list (string * string)) (key : string) : option string :=
match table with
| [] => None
| (k, v) :: table' => if String.eqb k key then Some v else lookup table' key
end.

Definition swap_table (table : list (string * string)) : list (string * string) :=
map (fun kv => (snd kv, fst kv)) table.

Definition related (table : list (string * string))
    (spec : ConfigurationSpecification) (g : Group) : option Group :=
match lookup table (category (name g)) with
| Some target =>
    find_group spec
      (fun r => String.eqb (name r) (String.append target (parameters (name g))))
| None => None
end.

Definition label (table : list (string * string)) (s : string) : string :=
match lookup table s with Some r => r | None => EmptyString end.

(** Channel-by-channel copy of [numpoints] rows between two groups. *)
Definition copy_stores (targetstride : Z) (gtarget : Group) (source : list dReal)
    (sourcestride : Z) (gsource : Group) (numpoints : Z) (fill : bool)
  : list (Z * dReal) :=
flat_map
  (fun e =>
     map (fun j => (Z.of_nat e * targetstride + Z.of_nat j,
                    vec_get 0%Q source (Z.of_nat e * sourcestride + Z.of_nat j)))
         (seq 0 (Z.to_nat (Z.min (dof gtarget) (dof gsource)))))
  (seq 0 (Z.to_nat numpoints)).

Definition quat_mul (a b : Vector) : Vector :=
mkVector (vx a * vx b - vy a * vy b - vz a * vz b - vw a * vw b)%Q
         (vx a * vy b + vy a * vx b + vz a * vw b - vw a * vz b)%Q
         (vx a * vz b + vz a * vx b + vw a * vy b - vy a * vw b)%Q
         (vx a * vw b + vw a * vx b + vy a * vz b - vz a * vy b)%Q.

Definition quat_inv (a : Vector) : Vector :=
mkVector (vx a) (- vy a)%Q (- vz a)%Q (- vw a)%Q.

#[export] Instance core : RaveCore := {
  g_fEpsilon := 1e-15%Q;
  PI := 3.14159265358979%Q;
  RavePow := fun b _ => b;
  RaveSqrt := fun x => x;
  RaveAsin := fun x => x;
  spec_eqb := fun a b =>
    (Nat.eqb (List.length (_vgroups a)) (List.length (_vgroups b)))
    && forallb (fun gg => Group_eqb (fst gg) (snd gg))
               (combine (_vgroups a) (_vgroups b));
  FindCompatibleGroup := fun spec g =>
    find_group spec
      (fun r => String.eqb (category (name r)) (category (name g))
                && (dof r =? dof g));
  FindTimeDerivativeGroup := related derivative_table;
  FindTimeIntegralGroup := related (swap_table derivative_table);
  GetInterpolationDerivative := label interpolation_table;
  GetInterpolationIntegral := label (swap_table interpolation_table);
  ConvertGroupData := copy_stores;
  parse_affinedofs := fun _ => None;
  RaveGetAffineDOF := fun _ => 0;
  RaveGetAffineDOFValuesFromIdentity := fun v _ => v;
  parse_iktype := fun _ => 0;
  IKP_Rotation3D := 0x34000002;
  IKP_Transform6D := 0x67000001;
  IKP_TranslationDirection5D := 0x56000007;
  quatSlerp := fun q0 q1 f => Vec.add q0 (Vec.scale (Vec.sub q1 q0) f);
  quatMultiply := quat_mul;
  quatInverse := quat_inv;
  quatFromAxisAngle := fun a => mkVector 1%Q (vx a) (vy a) (vz a);
  quatRotate := fun q v => v
}.

(** Annotations are plain strings here. *)
#[export] Instance readables : Readables string := {
  SerializeJSON := fun r => Some r;
  is_HierarchicalXMLReadable := fun _ => false;
  SerializeHierarchicalXML := fun r _ => r;
  SerializeXML := fun _ => None;
  StringReadable := fun _ data => data;
  HierarchicalXMLReader := unit;
  ParseXMLData := fun _ _ => tt;
  GetHierarchicalReadable := fun _ => None;
  GetReadable := fun _ => None;
  _listchildren := fun _ => [];
  TSO_SerializeAsXML := 0x8000;
  TrajectoryBase_serialize := fun _ _ => Ok [];
  TrajectoryBase_deserialize := fun _ t => Ok t
}.

Definition Traj : Type := GenericTrajectory string.

Definition group (n : string) (o d : Z) (i : string) : Group := mkGroup n o d i.

(** Positions with velocities and time, one joint; both labelled linear. *)
Definition spec_linear : ConfigurationSpecification :=
mkSpec [ group "joint_values" 0 1 "linear";
         group "joint_velocities" 1 1 "linear";
         group "deltatime" 2 1 "" ].

(** A position that steps to the next waypoint, and time. *)
Definition spec_next : ConfigurationSpecification :=
mkSpec [ group "joint_values" 0 1 "next"; group "deltatime" 1 1 "" ].


Definition empty : Traj := new_trajectory.

Definition quiet : DebugLevel := mkDebugLevel false false.
Definition verifying : DebugLevel := mkDebugLevel true true.

Definition unwrap {A} (default : A) (r : Result A) : A :=
match r with Ok a => a | Err _ => default end.

(** The trajectory after [Init(spec)] and [Insert(0, data)]; the data of
    the examples are whole rows, so the insertion succeeds. *)
Definition make (spec : ConfigurationSpecification) (data : list dReal) : Traj :=
match Insert 0 data false (Init spec empty) with
| Ok t => t
| Err _ => Init spec empty
end.

End Ref.

(** * Mutations of the waypoint buffer, as values *)

(** The mutating operations, as values. *)
Inductive Mutation : Type :=
| MInsert (index : Z) (data : list dReal) (bOverwrite : bool)
| MInsertSpec (index : Z) (data : list dReal) (spec : ConfigurationSpecification)
    (bOverwrite : bool)
| MRemove (startindex endindex : Z)
| MClear.

Section Mutations.
Context {core : RaveCore}.
Context {R : Type}.

Local Abbreviation Traj := (GenericTrajectory R).

Definition apply_mutation (m : Mutation) (t : Traj) : Result Traj :=
match m with
| MInsert index data bOverwrite => Insert index data bOverwrite t
| MInsertSpec index data spec bOverwrite => InsertSpec index data spec bOverwrite t
| MRemove startindex endindex => Remove startindex endindex t
| MClear => Ok (ClearWaypoints t)
end.

Fixpoint apply_mutations (ms : list Mutation) (t : Traj) : Result Traj :=
match ms with
| [] => Ok t
| m :: ms' => let* t' := apply_mutation m t in apply_mutations ms' t'
end.

(** The buffer holds whole rows. *)
Definition whole_rows (t : Traj) : Prop := (dof_size t | vsize (_vtrajdata t)).

(** An index argument of the operation lies beyond the waypoint count. *)
Definition out_of_bounds (t : Traj) (m : Mutation) : Prop :=
match m with
| MInsert index _ _ | MInsertSpec index _ _ _ => GetNumWaypoints t < index
| MRemove startindex endindex =>
    0 <= startindex /\ 0 <= endindex
    /\ (GetNumWaypoints t < startindex \/ GetNumWaypoints t < endindex)
| MClear => False
end.

(** The operation has something to do: data to insert, rows to erase. *)
Definition has_work (m : Mutation) : Prop :=
match m with
| MInsert _ data _ | MInsertSpec _ data _ _ => data <> []
| MRemove startindex endindex => startindex <> endindex
| MClear => True
end.

(** The position of each index argument is computed without [size_t]
    wrap-around. *)
Definition positions_fit (t : Traj) (m : Mutation) : Prop :=
match m with
| MInsert index _ _ | MInsertSpec index _ _ _ => index * dof_size t < 2 ^ 64
| MRemove startindex endindex =>
    startindex * dof_size t < 2 ^ 64 /\ endindex * dof_size t < 2 ^ 64
| MClear => True
end.

(** The preconditions of the operations: whole rows of data, indices
    within the waypoint count; and what the machine guarantees, that the
    buffer and the rows to add fit in the address space. *)
Definition precondition (t : Traj) (m : Mutation) : Prop :=
vsize (_vtrajdata t) < 2 ^ 64 /\
match m with
| MInsert index data _ =>
    vsize data mod dof_size t = 0 /\ 0 <= index <= GetNumWaypoints t
| MInsertSpec index data spec _ =>
    0 < GetDOF spec < 2 ^ 31
    /\ vsize data mod GetDOF spec = 0 /\ 0 <= index <= GetNumWaypoints t
    /\ vsize data / GetDOF spec * dof_size t < 2 ^ 64
    /\ Forall (fun g => is_ok (default_values g) = true) (_vgroups (_spec t))
| MRemove startindex endindex =>
    0 <= startindex <= endindex /\ endindex <= GetNumWaypoints t
| MClear => True
end.

(** The preconditions hold at every step of a sequence. *)
Fixpoint preconditions_hold (ms : list Mutation) (t : Traj) : Prop :=
match ms with
| [] => True
| m :: ms' =>
    precondition t m
    /\ forall t', apply_mutation m t = Ok t' -> preconditions_hold ms' t'
end.
End Mutations.

(** * Properties *)

(** ** Machine integers, scalars, results *)

Lemma to_size_t_small z : 0 <= z < 2 ^ 64 -> to_size_t z = z.
Proof. intros H. unfold to_size_t. now apply Z.mod_small. Qed.

Lemma to_uint16_small z : 0 <= z < 2 ^ 16 -> to_uint16 z = z.
Proof. intros H. unfold to_uint16. now apply Z.mod_small. Qed.

Lemma to_uint32_small z : 0 <= z < 2 ^ 32 -> to_uint32 z = z.
Proof. intros H. unfold to_uint32. now apply Z.mod_small. Qed.

Lemma to_int_small z : - 2 ^ 31 <= z < 2 ^ 31 -> to_int z = z.
Proof. intros H. unfold to_int. rewrite Z.mod_small; lia. Qed.

Lemma Qltb_lt a b : Qltb a b = true <-> (a < b)%Q.
Proof.
  unfold Qltb. rewrite negb_true_iff, <- not_true_iff_false, Qle_bool_iff.
  split; [apply Qnot_le_lt | apply Qlt_not_le].
Qed.

Lemma Qltb_ge a b : Qltb a b = false <-> (b <= a)%Q.
Proof. unfold Qltb. now rewrite negb_false_iff, Qle_bool_iff. Qed.

Lemma Qgeb_le a b : Qgeb a b = true <-> (b <= a)%Q.
Proof. unfold Qgeb. apply Qle_bool_iff. Qed.

Lemma Qgtb_lt a b : Qgtb a b = true <-> (b < a)%Q.
Proof. unfold Qgtb. apply (Qltb_lt b a). Qed.

Lemma Qleb_le a b : Qleb a b = true <-> (a <= b)%Q.
Proof. unfold Qleb. apply Qle_bool_iff. Qed.

Lemma bind_ok {A B} (m : Result A) (k : A -> Result B) b :
  bind m k = Ok b -> exists a, m = Ok a /\ k a = Ok b.
Proof. destruct m as [a|e]; simpl; [eauto | discriminate]. Qed.


Lemma failed_Err {A} (e : exception) : failed (@Err A e).
Proof. now exists e. Qed.

Lemma not_failed_Ok {A} (a : A) : ~ failed (Ok a).
Proof. intros [e H]. discriminate. Qed.

(** ** Vectors *)

Section VectorFacts.
Context {A : Type}.
Implicit Types v w src : list A.

Lemma vsize_nonneg v : 0 <= vsize v.
Proof. unfold vsize. lia. Qed.

Lemma vsize_vec_set v k x : vsize (vec_set v k x) = vsize v.
Proof.
  unfold vec_set, vsize. destruct (k <? 0); [reflexivity|].
  now rewrite length_insert.
Qed.

Lemma vsize_vec_write src : forall v k, vsize (vec_write v k src) = vsize v.
Proof.
  induction src as [|x src IH]; intros v k; simpl; [reflexivity|].
  now rewrite IH, vsize_vec_set.
Qed.

Lemma vsize_app v w : vsize (v ++ w) = vsize v + vsize w.
Proof. unfold vsize. rewrite length_app. lia. Qed.

Lemma vsize_vec_insert v k src :
  vsize (vec_insert v k src) = vsize v + vsize src.
Proof.
  unfold vec_insert. rewrite !vsize_app.
  rewrite <- (firstn_skipn (Z.to_nat k) v) at 3.
  rewrite vsize_app. lia.
Qed.

Lemma vsize_vec_erase v from to :
  0 <= from <= to -> to <= vsize v ->
  vsize (vec_erase v from to) = vsize v - (to - from).
Proof.
  intros H1 H2. unfold vec_erase, vsize in *.
  rewrite length_app, length_firstn, length_skipn. lia.
Qed.

Lemma vsize_firstn v n :
  0 <= n <= vsize v -> vsize (firstn (Z.to_nat n) v) = n.
Proof. intros H. unfold vsize in *. rewrite length_firstn. lia. Qed.

Lemma vsize_skipn v n :
  0 <= n <= vsize v -> vsize (skipn (Z.to_nat n) v) = vsize v - n.
Proof. intros H. unfold vsize in *. rewrite length_skipn. lia. Qed.

Lemma vsize_repeat (x : A) n : vsize (repeat x n) = Z.of_nat n.
Proof. unfold vsize. now rewrite repeat_length. Qed.

Lemma vec_at_ok v k x : vec_at v k = Ok x -> 0 <= k < vsize v.
Proof.
  unfold vec_at.
  destruct (0 <=? k) eqn:H1; destruct (k <? vsize v) eqn:H2; simpl;
    try discriminate.
  intros _. lia.
Qed.

Lemma vec_at_in_range d v k :
  0 <= k < vsize v -> vec_at v k = Ok (vec_get d v k).
Proof.
  intros H. unfold vec_at, vec_get, vsize in *.
  replace (0 <=? k) with true by (symmetry; apply Z.leb_le; lia).
  replace (k <? Z.of_nat (List.length v)) with true
    by (symmetry; apply Z.ltb_lt; lia).
  replace (k <? 0) with false by (symmetry; apply Z.ltb_ge; lia).
  simpl. destruct (nth_error v (Z.to_nat k)) eqn:E.
  - now rewrite (nth_error_nth _ _ d E).
  - apply nth_error_None in E. lia.
Qed.

Lemma vec_at_out_of_range v k :
  ~ (0 <= k < vsize v) -> vec_at v k = Err std_out_of_range.
Proof.
  intros H. unfold vec_at.
  destruct (0 <=? k) eqn:H1; destruct (k <? vsize v) eqn:H2; simpl;
    try reflexivity.
  exfalso. apply H. lia.
Qed.
End VectorFacts.

Lemma Group_eqb_eq g1 g2 : Group_eqb g1 g2 = true <-> g1 = g2.
Proof.
  destruct g1 as [n1 o1 d1 i1], g2 as [n2 o2 d2 i2]. unfold Group_eqb. simpl.
  rewrite !andb_true_iff, !String.eqb_eq, !Z.eqb_eq.
  split; [intros [[[-> ->] ->] ->]; reflexivity | intros H; now inversion H].
Qed.


Section MutationFacts.
Context {core : RaveCore}.
Context {R : Type}.

Local Abbreviation Traj := (GenericTrajectory R).

Lemma dof_size_bounds (t : Traj) : 0 <= dof_size t < 2 ^ 64.
Proof. unfold dof_size, to_size_t. apply Z.mod_pos_bound. lia. Qed.

Lemma row_begin_small (t : Traj) index :
  0 <= index -> index * dof_size t < 2 ^ 64 ->
  row_begin t index = index * dof_size t.
Proof.
  intros H1 H2. unfold row_begin. apply to_size_t_small.
  pose proof (dof_size_bounds t). nia.
Qed.

Lemma count_nonneg (t : Traj) : 0 <= GetNumWaypoints t.
Proof.
  unfold GetNumWaypoints. pose proof (dof_size_bounds t).
  pose proof (vsize_nonneg (_vtrajdata t)).
  destruct (Z.eq_dec (dof_size t) 0) as [->|].
  - now rewrite Z.div_0_r.
  - apply Z.div_pos; lia.
Qed.

Lemma beyond_count (t : Traj) index :
  0 < dof_size t -> GetNumWaypoints t < index ->
  vsize (_vtrajdata t) < index * dof_size t.
Proof.
  unfold GetNumWaypoints. intros Hd Hi.
  pose proof (Z.div_mod (vsize (_vtrajdata t)) (dof_size t) ltac:(lia)).
  pose proof (Z.mod_pos_bound (vsize (_vtrajdata t)) (dof_size t) Hd).
  nia.
Qed.

Lemma within_count (t : Traj) index :
  0 < dof_size t -> 0 <= index <= GetNumWaypoints t ->
  index * dof_size t <= vsize (_vtrajdata t).
Proof.
  unfold GetNumWaypoints. intros Hd Hi.
  pose proof (Z.div_mod (vsize (_vtrajdata t)) (dof_size t) ltac:(lia)).
  pose proof (Z.mod_pos_bound (vsize (_vtrajdata t)) (dof_size t) Hd).
  nia.
Qed.

Lemma vsize_zero_nil {A} (v : list A) : vsize v = 0 -> v = [].
Proof. destruct v; [reflexivity | unfold vsize; simpl; lia]. Qed.

Lemma insert_beyond_count_fails (t : Traj) index pdata bOverwrite :
  0 < dof_size t -> pdata <> [] -> GetNumWaypoints t < index ->
  index * dof_size t < 2 ^ 64 ->
  failed (Insert index pdata bOverwrite t).
Proof.
  intros Hd Hdata Hi Hfit. unfold Insert.
  destruct (_bInit t); simpl; [|apply failed_Err].
  destruct (vsize pdata =? 0) eqn:En.
  { apply Z.eqb_eq, vsize_zero_nil in En. contradiction. }
  destruct (GetDOF (_spec t) >? 0); simpl; [|apply failed_Err].
  destruct (assert_divides (vsize pdata) (dof_size t)); simpl; [|apply failed_Err].
  pose proof (count_nonneg t).
  rewrite row_begin_small by lia.
  pose proof (beyond_count t index Hd Hi).
  replace (index * dof_size t <=? vsize (_vtrajdata t)) with false
    by (symmetry; apply Z.leb_gt; lia).
  simpl. apply failed_Err.
Qed.

Lemma insert_spec_beyond_count_fails (t : Traj) index pdata spec bOverwrite :
  0 < dof_size t -> pdata <> [] -> GetNumWaypoints t < index ->
  index * dof_size t < 2 ^ 64 ->
  failed (InsertSpec index pdata spec bOverwrite t).
Proof.
  intros Hd Hdata Hi Hfit. unfold InsertSpec.
  destruct (_bInit t); simpl; [|apply failed_Err].
  destruct (vsize pdata =? 0) eqn:En.
  { apply Z.eqb_eq, vsize_zero_nil in En. contradiction. }
  destruct (GetDOF spec >? 0); simpl; [|apply failed_Err].
  destruct (assert_divides (vsize pdata) (to_size_t (GetDOF spec))); simpl;
    [|apply failed_Err].
  pose proof (count_nonneg t).
  rewrite row_begin_small by lia.
  pose proof (beyond_count t index Hd Hi).
  replace (index * dof_size t <=? vsize (_vtrajdata t)) with false
    by (symmetry; apply Z.leb_gt; lia).
  simpl. apply failed_Err.
Qed.

Lemma remove_beyond_count_fails (t : Traj) startindex endindex :
  0 < dof_size t -> startindex <> endindex ->
  0 <= startindex -> 0 <= endindex ->
  GetNumWaypoints t < startindex \/ GetNumWaypoints t < endindex ->
  startindex * dof_size t < 2 ^ 64 -> endindex * dof_size t < 2 ^ 64 ->
  failed (Remove startindex endindex t).
Proof.
  intros Hd Hne Hs He Hout Hfs Hfe. unfold Remove.
  destruct (_bInit t); simpl; [|apply failed_Err].
  replace (startindex =? endindex) with false
    by (symmetry; apply Z.eqb_neq; exact Hne).
  rewrite !row_begin_small by lia.
  assert ((startindex * dof_size t <=? vsize (_vtrajdata t))
          && (endindex * dof_size t <=? vsize (_vtrajdata t)) = false) as ->.
  { apply andb_false_iff. destruct Hout as [Ho|Ho];
      [left|right]; apply Z.leb_gt; now apply beyond_count. }
  simpl. apply failed_Err.
Qed.

(** C10: on an initialized trajectory, [Insert] with an empty data array
    returns at once for every index, in both variants: no exception, and
    the trajectory it returns is the one it was given, so the waypoint
    buffer and the dirty flag are untouched.  The index is not examined. *)
Theorem insert_of_nothing_is_identity (t : Traj) (index : Z) (bOverwrite : bool)
    (spec : ConfigurationSpecification) :
  _bInit t = true ->
  Insert index [] bOverwrite t = Ok t
  /\ InsertSpec index [] spec bOverwrite t = Ok t.
Proof.
  intros Hinit. unfold Insert, InsertSpec. rewrite Hinit. simpl. split; reflexivity.
Qed.

(** C7 (as amended): an [Insert] of non-empty data, in either variant, or
    a [Remove] with [startindex <> endindex], raises an exception when an
    index argument lies beyond the waypoint count, provided the position
    [index * DOF] is computed without wrap-around and the specification has
    at least one channel. *)
Theorem out_of_bounds_raises (t : Traj) (m : Mutation) :
  0 < dof_size t -> has_work m -> out_of_bounds t m -> positions_fit t m ->
  failed (apply_mutation m t).
Proof.
  intros Hd Hwork Hout Hfit.
  destruct m as [index data ow|index data spec ow|s e|]; simpl in *.
  - now apply insert_beyond_count_fails.
  - now apply insert_spec_beyond_count_fails.
  - destruct Hout as (Hs & He & Hout). destruct Hfit as [Hfs Hfe].
    now apply remove_beyond_count_fails.
  - contradiction.
Qed.

(** *** Rows stay whole *)

Lemma vsize_stores (stores : list (Z * dReal)) base :
  forall tgt : list dReal,
  vsize (fold_left (fun tgt '(k, x) => vec_set tgt (base + k) x) stores tgt)
  = vsize tgt.
Proof.
  induction stores as [|[k x] stores IH]; intros tgt; simpl; [reflexivity|].
  now rewrite IH, vsize_vec_set.
Qed.

Lemma vsize_fill_defaults (g : Group) base stride numelements defaults :
  forall tgt : list dReal,
  vsize (fill_defaults tgt base g stride numelements defaults) = vsize tgt.
Proof.
  unfold fill_defaults.
  induction (seq 0 (Z.to_nat numelements)) as [|e es IH]; intros tgt; simpl;
    [reflexivity|].
  rewrite IH. clear IH. revert tgt.
  induction (seq 0 (Z.to_nat (dof g))) as [|j js IH]; intros tgt; simpl;
    [reflexivity|].
  now rewrite IH, vsize_vec_set.
Qed.

(** One step of the loop of [_ConvertData]. *)
Definition convert_step (t : Traj) (base : Z) (source : list dReal)
    (spec : ConfigurationSpecification) (numelements : Z) (fill : bool)
    (acc : Result (list dReal)) (gf : Group * option Group)
  : Result (list dReal) :=
let '(g, found) := gf in
bind acc (fun tgt =>
  match found with
  | Some gsource =>
      Ok (fold_left (fun tgt '(k, x) => vec_set tgt (base + offset g + k) x)
            (ConvertGroupData (GetDOF (_spec t)) g
               (skipn (Z.to_nat (offset gsource)) source)
               (GetDOF spec) gsource numelements fill) tgt)
  | None =>
      if fill then
        bind (default_values g) (fun vdefaultvalues =>
          Ok (fill_defaults tgt base g (GetDOF (_spec t)) numelements vdefaultvalues))
      else Ok tgt
  end).

Lemma _ConvertData_unfold (t : Traj) target base source vc spec n fill :
  _ConvertData t target base source vc spec n fill
  = fold_left (convert_step t base source spec n fill)
      (combine (_vgroups (_spec t)) vc) (Ok target).
Proof.
  unfold _ConvertData. f_equal.
Qed.

Lemma convert_loop_size (t : Traj) base source spec n fill l :
  forall acc r,
  fold_left (convert_step t base source spec n fill) l acc = Ok r ->
  exists a, acc = Ok a /\ vsize r = vsize a.
Proof.
  induction l as [|[g found] l IH]; intros acc r H; simpl in H.
  - exists r. now split.
  - apply IH in H. destruct H as (a & Hstep & Hsize).
    unfold convert_step in Hstep. apply bind_ok in Hstep.
    destruct Hstep as (tgt & -> & Hstep). exists tgt. split; [reflexivity|].
    rewrite Hsize. destruct found as [gsource|].
    + inversion Hstep; subst a.
      exact (vsize_stores _ (base + offset g) tgt).
    + destruct fill.
      * apply bind_ok in Hstep. destruct Hstep as (dv & _ & Hstep).
        inversion Hstep; subst a. apply vsize_fill_defaults.
      * now inversion Hstep.
Qed.

Lemma convert_loop_ok (t : Traj) base source spec n fill l :
  Forall (fun gf : Group * option Group =>
            fill = true -> is_ok (default_values (fst gf)) = true) l ->
  forall a, exists r,
    fold_left (convert_step t base source spec n fill) l (Ok a) = Ok r.
Proof.
  induction 1 as [|[g found] l Hg Hl IH]; intros a; simpl.
  - now exists a.
  - destruct found as [gsource|]; [apply IH|].
    destruct fill; [|apply IH].
    simpl in Hg. specialize (Hg eq_refl).
    destruct (default_values g) as [dv|e]; [|discriminate]. simpl. apply IH.
Qed.

Lemma _ConvertData_size (t : Traj) target base source vc spec n fill r :
  _ConvertData t target base source vc spec n fill = Ok r ->
  vsize r = vsize target.
Proof.
  rewrite _ConvertData_unfold. intros H. apply convert_loop_size in H.
  destruct H as (a & Ha & Hsize). now inversion Ha; subst a.
Qed.

Lemma Forall_combine_fst {A B} (P : A -> Prop) (l : list A) :
  Forall P l -> forall l' : list B, Forall (fun ab => P (fst ab)) (combine l l').
Proof.
  induction 1 as [|x l Hx Hl IH]; intros [|y l']; simpl; constructor; auto.
Qed.

Lemma _ConvertData_ok (t : Traj) target base source vc spec n fill :
  (fill = true ->
   Forall (fun g => is_ok (default_values g) = true) (_vgroups (_spec t))) ->
  exists r, _ConvertData t target base source vc spec n fill = Ok r.
Proof.
  intros H. rewrite _ConvertData_unfold. apply convert_loop_ok.
  destruct fill.
  - specialize (H eq_refl).
    pose proof (Forall_combine_fst _ _ H vc) as F.
    eapply Forall_impl; [exact F|]. intros gf Hgf _. exact Hgf.
  - apply Forall_forall. intros ? _ Hf. discriminate.
Qed.

(** An initialized trajectory whose row width is a positive [int]. *)
Definition layout_ok (t : Traj) : Prop :=
_bInit t = true /\ 0 < GetDOF (_spec t) < 2 ^ 31.

(** What a mutation establishes: success, whole rows, the same layout. *)
Definition keeps_rows (t : Traj) (r : Result Traj) : Prop :=
exists t', r = Ok t' /\ whole_rows t' /\ _spec t' = _spec t /\ _bInit t' = _bInit t.

Lemma dof_size_eq (t : Traj) :
  0 < GetDOF (_spec t) < 2 ^ 31 -> dof_size t = GetDOF (_spec t).
Proof. intros H. unfold dof_size. apply to_size_t_small. lia. Qed.

Lemma whole_rows_with (t : Traj) data changed verified :
  (dof_size t | vsize data) -> whole_rows (with_trajdata t data changed verified).
Proof. intros H. exact H. Qed.

Lemma keeps_rows_same (t : Traj) : whole_rows t -> keeps_rows t (Ok t).
Proof. intros H. exists t. repeat split; auto. Qed.

Lemma keeps_rows_with (t : Traj) data changed verified :
  (dof_size t | vsize data) ->
  keeps_rows t (Ok (with_trajdata t data changed verified)).
Proof. intros H. eexists. repeat split; auto. Qed.

Lemma Insert_keeps_rows (t : Traj) index pdata bOverwrite :
  layout_ok t -> whole_rows t -> precondition t (MInsert index pdata bOverwrite) ->
  keeps_rows t (Insert index pdata bOverwrite t).
Proof.
  intros [Hinit Hdof] Hrows (Hsize & Hmod & Hindex).
  pose proof (dof_size_eq t Hdof) as Hd.
  assert (0 < dof_size t) as Hpos by lia.
  pose proof (within_count t index Hpos Hindex) as Hin.
  unfold Insert. rewrite Hinit. simpl.
  destruct (vsize pdata =? 0); [now apply keeps_rows_same|].
  replace (GetDOF (_spec t) >? 0) with true by (symmetry; apply Z.gtb_lt; lia).
  unfold assert_divides. rewrite Hmod. simpl.
  rewrite row_begin_small by lia.
  replace (index * dof_size t <=? vsize (_vtrajdata t)) with true
    by (symmetry; apply Z.leb_le; lia).
  simpl. apply keeps_rows_with.
  assert (dof_size t | vsize pdata) as Hdata
    by (apply Z.mod_divide; [lia | exact Hmod]).
  assert (dof_size t | index * dof_size t) as Hrow by apply Z.divide_factor_r.
  pose proof (vsize_nonneg pdata) as Hn.
  destruct (bOverwrite && (index * dof_size t <? vsize (_vtrajdata t))) eqn:Eow.
  - apply andb_true_iff in Eow. destruct Eow as [_ Elt]. apply Z.ltb_lt in Elt.
    destruct (Z.min (vsize pdata) (vsize (_vtrajdata t) - index * dof_size t)
              <? vsize pdata) eqn:Ecopy.
    + apply Z.ltb_lt in Ecopy.
      rewrite vsize_vec_insert, vsize_vec_write, vsize_skipn by lia.
      rewrite Z.min_r by lia.
      replace (vsize (_vtrajdata t)
               + (vsize pdata - (vsize (_vtrajdata t) - index * dof_size t)))
        with (vsize pdata + index * dof_size t) by lia.
      now apply Z.divide_add_r.
    + rewrite vsize_vec_write. exact Hrows.
  - rewrite vsize_vec_insert. now apply Z.divide_add_r.
Qed.

Lemma Remove_keeps_rows (t : Traj) startindex endindex :
  layout_ok t -> whole_rows t -> precondition t (MRemove startindex endindex) ->
  keeps_rows t (Remove startindex endindex t).
Proof.
  intros [Hinit Hdof] Hrows (Hsize & Hse & He).
  pose proof (dof_size_eq t Hdof) as Hd.
  assert (0 < dof_size t) as Hpos by lia.
  pose proof (within_count t endindex Hpos ltac:(lia)) as Hein.
  pose proof (within_count t startindex Hpos ltac:(lia)) as Hsin.
  unfold Remove. rewrite Hinit. simpl.
  destruct (startindex =? endindex) eqn:Eeq; [now apply keeps_rows_same|].
  apply Z.eqb_neq in Eeq.
  rewrite !row_begin_small by nia.
  replace (startindex * dof_size t <=? vsize (_vtrajdata t)) with true
    by (symmetry; apply Z.leb_le; lia).
  replace (endindex * dof_size t <=? vsize (_vtrajdata t)) with true
    by (symmetry; apply Z.leb_le; lia).
  replace (startindex <? endindex) with true by (symmetry; apply Z.ltb_lt; lia).
  simpl. apply keeps_rows_with.
  rewrite vsize_vec_erase by nia.
  replace (vsize (_vtrajdata t) - (endindex * dof_size t - startindex * dof_size t))
    with (vsize (_vtrajdata t) + (startindex - endindex) * dof_size t) by lia.
  apply Z.divide_add_r; [exact Hrows | apply Z.divide_factor_r].
Qed.

Lemma ClearWaypoints_keeps_rows (t : Traj) :
  whole_rows t -> keeps_rows t (Ok (ClearWaypoints t)).
Proof.
  intros Hrows. unfold ClearWaypoints.
  destruct (_bInit t); [|now apply keeps_rows_same].
  destruct (vsize (_vtrajdata t) >? 0); [|now apply keeps_rows_same].
  apply keeps_rows_with. apply Z.divide_0_r.
Qed.

(** Specifications that compare equal have the same row width. *)
Definition spec_eqb_respects_DOF : Prop :=
forall a b, spec_eqb a b = true -> GetDOF a = GetDOF b.

Lemma converted_rows_fit (n sd d sourceindex : Z) :
  0 < sd -> 0 <= d -> 0 <= sourceindex < n -> n / sd * d < 2 ^ 64 ->
  0 <= (n - sourceindex) / sd * d < 2 ^ 64.
Proof.
  intros Hsd Hd Hsi Hfit.
  assert (0 <= (n - sourceindex) / sd) by (apply Z.div_pos; lia).
  assert ((n - sourceindex) / sd <= n / sd) by (apply Z.div_le_mono; lia).
  nia.
Qed.

Lemma InsertSpec_keeps_rows (t : Traj) index pdata spec bOverwrite :
  spec_eqb_respects_DOF ->
  layout_ok t -> whole_rows t ->
  precondition t (MInsertSpec index pdata spec bOverwrite) ->
  keeps_rows t (InsertSpec index pdata spec bOverwrite t).
Proof.
  intros Hlaw [Hinit Hdof] Hrows (Hsize & Hsdof & Hmod & Hindex & Hfit & Hdefaults).
  pose proof (dof_size_eq t Hdof) as Hd.
  assert (0 < dof_size t) as Hpos by lia.
  pose proof (within_count t index Hpos Hindex) as Hin.
  unfold InsertSpec. rewrite Hinit. simpl.
  destruct (vsize pdata =? 0); [now apply keeps_rows_same|].
  replace (GetDOF spec >? 0) with true by (symmetry; apply Z.gtb_lt; lia).
  rewrite (to_size_t_small (GetDOF spec)) by lia.
  unfold assert_divides. rewrite Hmod. simpl.
  rewrite (row_begin_small t index) by lia.
  replace (index * dof_size t <=? vsize (_vtrajdata t)) with true
    by (symmetry; apply Z.leb_le; lia).
  simpl.
  destruct (spec_eqb (_spec t) spec) eqn:Eeq.
  { apply Insert_keeps_rows; [now split | exact Hrows |].
    split; [exact Hsize|]. split; [|exact Hindex].
    rewrite Hd, (Hlaw _ _ Eeq). exact Hmod. }
  assert (forall data sourceindex index',
    vsize data = vsize (_vtrajdata t) -> 0 <= sourceindex ->
    keeps_rows t
      (let* data :=
         if sourceindex <? vsize pdata then
           let numelements := (vsize pdata - sourceindex) / GetDOF spec in
           let vtemp :=
             repeat (0%Q : dReal) (Z.to_nat (to_size_t (numelements * dof_size t))) in
           let* vtemp :=
             _ConvertData t vtemp 0 (skipn (Z.to_nat sourceindex) pdata)
               (map (FindCompatibleGroup spec) (_vgroups (_spec t))) spec
               numelements true in
           Ok (vec_insert data (row_begin t index') vtemp)
         else Ok data in
       Ok (with_trajdata t data true (_bSamplingVerified t)))) as Htail.
  { intros data sourceindex index' Hdata Hsi.
    destruct (sourceindex <? vsize pdata) eqn:Elt.
    - apply Z.ltb_lt in Elt. cbv zeta.
      destruct (_ConvertData_ok t
                  (repeat (0%Q : dReal)
                     (Z.to_nat (to_size_t
                        ((vsize pdata - sourceindex) / GetDOF spec * dof_size t))))
                  0 (skipn (Z.to_nat sourceindex) pdata)
                  (map (FindCompatibleGroup spec) (_vgroups (_spec t))) spec
                  ((vsize pdata - sourceindex) / GetDOF spec) true
                  (fun _ => Hdefaults)) as [vtemp Hvtemp].
      rewrite Hvtemp. simpl. apply keeps_rows_with.
      rewrite vsize_vec_insert, Hdata.
      apply _ConvertData_size in Hvtemp. rewrite Hvtemp, vsize_repeat.
      pose proof (converted_rows_fit (vsize pdata) (GetDOF spec) (dof_size t)
                    sourceindex ltac:(lia) ltac:(lia) ltac:(lia) Hfit) as Hrowsfit.
      rewrite to_size_t_small by lia. rewrite Z2Nat.id by lia.
      apply Z.divide_add_r; [exact Hrows | apply Z.divide_factor_r].
    - simpl. apply keeps_rows_with. rewrite Hdata. exact Hrows. }
  destruct (bOverwrite && (index * dof_size t <? vsize (_vtrajdata t))).
  - match goal with
    | |- context [_ConvertData t ?tg ?b ?s ?vc ?sp ?n false] =>
        destruct (_ConvertData_ok t tg b s vc sp n false
                    ltac:(intros Hf; discriminate)) as [data Hdata];
        rewrite Hdata
    end.
    apply _ConvertData_size in Hdata. simpl.
    apply Htail; [exact Hdata|].
    unfold to_size_t. apply Z.mod_pos_bound. lia.
  - simpl. apply Htail; [reflexivity | lia].
Qed.

Lemma mutation_keeps_rows (t : Traj) (m : Mutation) :
  spec_eqb_respects_DOF ->
  layout_ok t -> whole_rows t -> precondition t m ->
  keeps_rows t (apply_mutation m t).
Proof.
  intros Hlaw Hlayout Hrows Hpre.
  destruct m as [index data ow|index data spec ow|s e|]; simpl.
  - now apply Insert_keeps_rows.
  - now apply InsertSpec_keeps_rows.
  - now apply Remove_keeps_rows.
  - now apply ClearWaypoints_keeps_rows.
Qed.

Lemma run_keeps_rows (ms : list Mutation) :
  forall t : Traj,
  spec_eqb_respects_DOF ->
  layout_ok t -> whole_rows t -> preconditions_hold ms t ->
  exists t', apply_mutations ms t = Ok t'
             /\ (GetDOF (_spec t') | vsize (_vtrajdata t')).
Proof.
  induction ms as [|m ms IH]; intros t Hlaw Hlayout Hrows Hpre; simpl.
  - exists t. split; [reflexivity|].
    destruct Hlayout as [_ Hdof]. rewrite <- (dof_size_eq t Hdof). exact Hrows.
  - destruct Hpre as [Hm Hrest].
    destruct (mutation_keeps_rows t m Hlaw Hlayout Hrows Hm)
      as (t1 & Hstep & Hrows1 & Hspec & Hinit).
    rewrite Hstep. simpl. apply IH; auto.
    destruct Hlayout as [Hi Hdof]. split; [congruence | now rewrite Hspec].
Qed.

Lemma preconditions_hold_prefix (ms : list Mutation) :
  forall (t : Traj) (k : nat),
  preconditions_hold ms t -> preconditions_hold (firstn k ms) t.
Proof.
  induction ms as [|m ms IH]; intros t k H.
  - now rewrite firstn_nil.
  - destruct k as [|k]; simpl; [exact I|].
    destruct H as [Hm Hrest]. split; [exact Hm|].
    intros t' Ht'. apply IH. now apply Hrest.
Qed.

(** C9: from an initialized trajectory with whole rows, every sequence of
    mutations (insert with or without overwrite, insert with a foreign
    specification, remove, clear) whose preconditions hold at each step
    runs without exception, and after each of its operations (that is,
    after every prefix of the sequence) the buffer length is a multiple of
    the total DOF. *)
Theorem mutations_keep_rows_whole (ms : list Mutation) (t : Traj) (k : nat) :
  spec_eqb_respects_DOF ->
  layout_ok t -> whole_rows t -> preconditions_hold ms t ->
  exists t', apply_mutations (firstn k ms) t = Ok t'
             /\ (GetDOF (_spec t') | vsize (_vtrajdata t')).
Proof.
  intros Hlaw Hlayout Hrows Hpre.
  apply run_keeps_rows; auto. now apply preconditions_hold_prefix.
Qed.
End MutationFacts.

(** *** The claims on examples *)

Module MutationExamples.
Import Ref.

(** One waypoint in the layout of [spec_linear]. *)
Definition one_point : Traj := make spec_linear [0; 0; 0]%Q.

Lemma ref_spec_eqb_respects_DOF : spec_eqb_respects_DOF.
Proof.
  intros [a] [b]. simpl. rewrite andb_true_iff. intros [Hlen Hall].
  apply Nat.eqb_eq in Hlen. enough (a = b) as -> by reflexivity.
  revert b Hlen Hall.
  induction a as [|g a IH]; intros [|h b] Hlen Hall; simpl in *;
    try discriminate; [reflexivity|].
  apply andb_true_iff in Hall. destruct Hall as [Hg Hall].
  apply Group_eqb_eq in Hg. subst h. f_equal. apply IH; [lia | exact Hall].
Qed.

Lemma insert_of_nothing_witness :
  _bInit one_point = true
  /\ (Insert 7 [] true one_point = Ok one_point
      /\ InsertSpec 7 [] spec_next true one_point = Ok one_point).
Proof.
  split; [reflexivity|].
  apply (insert_of_nothing_is_identity one_point 7 true spec_next). reflexivity.
Defined.

(** C7 as stated fails: with one waypoint stored, [Insert] at index 7 with
    an empty data array and [Remove(7, 7)] both have an index beyond the
    waypoint count and both return normally. *)
Lemma out_of_bounds_returns_silently :
  out_of_bounds one_point (MInsert 7 [] false)
  /\ out_of_bounds one_point (MRemove 7 7)
  /\ ~ failed (apply_mutation (MInsert 7 [] false) one_point)
  /\ ~ failed (apply_mutation (MRemove 7 7) one_point).
Proof.
  split; [vm_compute; reflexivity|].
  split; [vm_compute; intuition discriminate|].
  split; apply not_failed_Ok.
Qed.

Lemma out_of_bounds_raises_witness :
  0 < dof_size one_point
  /\ has_work (MInsert 5 [1; 2; 3]%Q true)
  /\ out_of_bounds one_point (MInsert 5 [1; 2; 3]%Q true)
  /\ positions_fit one_point (MInsert 5 [1; 2; 3]%Q true)
  /\ failed (apply_mutation (MInsert 5 [1; 2; 3]%Q true) one_point).
Proof.
  assert (0 < dof_size one_point) as H1 by (vm_compute; reflexivity).
  assert (has_work (MInsert 5 [1; 2; 3]%Q true)) as H2 by (simpl; discriminate).
  assert (out_of_bounds one_point (MInsert 5 [1; 2; 3]%Q true)) as H3
    by (vm_compute; reflexivity).
  assert (positions_fit one_point (MInsert 5 [1; 2; 3]%Q true)) as H4
    by (vm_compute; reflexivity).
  repeat split; auto.
  exact (out_of_bounds_raises one_point (MInsert 5 [1; 2; 3]%Q true) H1 H2 H3 H4).
Defined.

(** A run through every kind of mutation: two rows inserted, one
    overwritten with a third appended, one row converted from another
    layout, two rows removed, and the rest cleared. *)
Definition sample_run : list Mutation :=
[ MInsert 0 [0; 0; 0; 1; 2; 0.5]%Q false;
  MInsert 1 [5; 5; 5; 6; 6; 6]%Q true;
  MInsertSpec 1 [9; 0.25]%Q spec_next false;
  MRemove 0 2;
  MClear ].

Definition initialized : Traj := Init spec_linear empty.

Ltac evaluate_fact :=
  first [ vm_compute; reflexivity
        | vm_compute; discriminate
        | vm_compute; intuition discriminate
        | repeat constructor ].

Ltac evaluate_step :=
  split;
  [ repeat split; evaluate_fact
  | let t' := fresh "t" in let H := fresh "H" in
    intros t' H; vm_compute in H; injection H as <- ].

Lemma sample_run_preconditions : preconditions_hold sample_run initialized.
Proof.
  unfold sample_run.
  do 5 (cbn [preconditions_hold]; evaluate_step). exact I.
Qed.

Lemma mutations_keep_rows_whole_witness :
  spec_eqb_respects_DOF
  /\ layout_ok initialized
  /\ whole_rows initialized
  /\ preconditions_hold sample_run initialized
  /\ exists t', apply_mutations (firstn 3 sample_run) initialized = Ok t'
                /\ (GetDOF (_spec t') | vsize (_vtrajdata t')).
Proof.
  assert (layout_ok initialized) as H1 by (split; evaluate_fact).
  assert (whole_rows initialized) as H2 by (exists 0; reflexivity).
  split; [exact ref_spec_eqb_respects_DOF|].
  split; [exact H1|]. split; [exact H2|].
  split; [exact sample_run_preconditions|].
  exact (mutations_keep_rows_whole sample_run initialized 3
           ref_spec_eqb_respects_DOF H1 H2 sample_run_preconditions).
Defined.
End MutationExamples.

(** ** The time index *)

Section TimeIndexFacts.
Context {core : RaveCore}.
Context {R : Type}.

Local Abbreviation Traj := (GenericTrajectory R).

(** The stored [deltatime] of waypoint [i]. *)
Definition deltatime_of (t : Traj) (i : Z) : dReal :=
traj_get t (dof_size t * i + _timeoffset t).

Definition negative_deltatime (t : Traj) (j : Z) : exception :=
openrave_exception
  (MsgNegativeDeltatime (deltatime_of t j) j (GetNumWaypoints t)) ORE_InvalidState.

Lemma accumulate_after_error (t : Traj) n e (l : list nat) :
  fold_left (accumulate_point t n) l (Err e) = Err e.
Proof. induction l as [|i l IH]; simpl; [reflexivity | exact IH]. Qed.

Lemma accumulate_first_negative (t : Traj) (count : nat) :
  forall (a : nat) st,
  (exists i, (a <= i < a + count)%nat
             /\ Qltb (deltatime_of t (Z.of_nat i)) 0 = true) ->
  exists j, (a <= j < a + count)%nat
    /\ Qltb (deltatime_of t (Z.of_nat j)) 0 = true
    /\ (forall k, (a <= k < j)%nat -> Qltb (deltatime_of t (Z.of_nat k)) 0 = false)
    /\ fold_left (accumulate_point t (GetNumWaypoints t)) (seq a count) (Ok st)
       = Err (negative_deltatime t (Z.of_nat j)).
Proof.
  induction count as [|count IH]; intros a st (i & Hi & Hneg); [lia|].
  simpl. destruct st as [[accum inv] last].
  fold (deltatime_of t (Z.of_nat a)).
  destruct (Qltb (deltatime_of t (Z.of_nat a)) 0) eqn:Ea.
  - exists a. repeat split; try lia; [exact Ea|].
    simpl. apply accumulate_after_error.
  - assert (i <> a) as Hia by (intros ->; congruence).
    destruct (IH (S a)
                 (accum ++ [(last + deltatime_of t (Z.of_nat a))%Q],
                  inv ++ [(1 / deltatime_of t (Z.of_nat a))%Q],
                  (last + deltatime_of t (Z.of_nat a))%Q))
      as (j & Hj & Hjneg & Hfirst & Hfold).
    { exists i. split; [lia | exact Hneg]. }
    exists j. repeat split; try lia; [exact Hjneg | | exact Hfold].
    intros k Hk. destruct (Nat.eq_dec k a) as [->|]; [exact Ea|].
    apply Hfirst. lia.
Qed.

Lemma _ComputeInternal_negative (t : Traj) (i : Z) :
  _bChanged t = true ->
  0 <= _timeoffset t < dof_size t ->
  1 <= i < GetNumWaypoints t ->
  Qltb (deltatime_of t i) 0 = true ->
  exists j, 1 <= j <= i
    /\ Qltb (deltatime_of t j) 0 = true
    /\ (forall k, 1 <= k < j -> Qltb (deltatime_of t k) 0 = false)
    /\ _ComputeInternal t = Err (negative_deltatime t j).
Proof.
  intros Hchanged Htoff Hi Hneg.
  destruct (accumulate_first_negative t (Z.to_nat (GetNumWaypoints t) - 1) 1
              ([traj_get t (_timeoffset t)],
               [(1 / traj_get t (_timeoffset t))%Q],
               traj_get t (_timeoffset t)))
    as (j & Hj & Hjneg & Hfirst & Hfold).
  { exists (Z.to_nat i). split; [lia|]. now rewrite Z2Nat.id by lia. }
  assert (Z.of_nat j <= i) as Hji.
  { destruct (Z_le_gt_dec (Z.of_nat j) i) as [|Hgt]; [assumption|].
    specialize (Hfirst (Z.to_nat i) ltac:(lia)).
    rewrite Z2Nat.id in Hfirst by lia. congruence. }
  exists (Z.of_nat j). split; [lia|]. split; [exact Hjneg|]. split.
  { intros k Hk. specialize (Hfirst (Z.to_nat k) ltac:(lia)).
    now rewrite Z2Nat.id in Hfirst by lia. }
  assert (vec_at (_vtrajdata t) (_timeoffset t) = Ok (traj_get t (_timeoffset t)))
    as Hfirstpoint.
  { apply vec_at_in_range.
    assert (0 < dof_size t) as Hd by lia.
    assert (0 <= 2 <= GetNumWaypoints t) as H2 by lia.
    pose proof (within_count t 2 Hd H2). lia. }
  unfold _ComputeInternal. rewrite Hchanged, Hfirstpoint.
  replace (_timeoffset t <? 0) with false by (symmetry; apply Z.ltb_ge; lia).
  replace (GetNumWaypoints t =? 0) with false by (symmetry; apply Z.eqb_neq; lia).
  cbn [negb bind]. rewrite Hfold. reflexivity.
Qed.

(** C4 (as amended): when the stored [deltatime] of a waypoint [i >= 1]
    is negative, the rebuild of the time index made by the first duration
    query or sample after a mutation throws an [ORE_InvalidState]
    exception; it reports the first waypoint [j >= 1] with a negative
    [deltatime] (so [j <= i], and [j = i] when no earlier one is negative),
    the value stored there and the waypoint count.  The [deltatime] of
    waypoint [0] is not examined. *)
Theorem negative_deltatime_is_rejected (t : Traj) (i : Z) :
  _bInit t = true -> _bChanged t = true ->
  0 <= _timeoffset t < dof_size t ->
  1 <= i < GetNumWaypoints t ->
  Qltb (deltatime_of t i) 0 = true ->
  exists j, 1 <= j <= i
    /\ Qltb (deltatime_of t j) 0 = true
    /\ (forall k, 1 <= k < j -> Qltb (deltatime_of t k) 0 = false)
    /\ _ComputeInternal t = Err (negative_deltatime t j)
    /\ GetDuration t = Err (negative_deltatime t j)
    /\ forall dbg time, Qgeb time 0 = true ->
         Sample dbg t time = Err (negative_deltatime t j).
Proof.
  intros Hinit Hchanged Htoff Hi Hneg.
  destruct (_ComputeInternal_negative t i Hchanged Htoff Hi Hneg)
    as (j & Hj & Hjneg & Hfirst & Hcompute).
  exists j. repeat split; try lia; auto.
  - unfold GetDuration. rewrite Hinit, Hcompute. reflexivity.
  - intros dbg time Htime. unfold Sample. rewrite Hinit, Htime, Hcompute.
    replace (_timeoffset t >=? 0) with true by (symmetry; apply Z.geb_le; lia).
    reflexivity.
Qed.
End TimeIndexFacts.

Module TimeIndexExamples.
Import Ref.

(** Three waypoints whose second [deltatime] is negative. *)
Definition backwards : Traj := make spec_next [0; 0; 1; -1; 2; 1]%Q.

(** Two waypoints; only the first carries a negative [deltatime]. *)
Definition early_start : Traj := make spec_next [0; -1; 1; 1]%Q.

Lemma negative_deltatime_is_rejected_witness :
  _bInit backwards = true /\ _bChanged backwards = true
  /\ 0 <= _timeoffset backwards < dof_size backwards
  /\ 1 <= 1 < GetNumWaypoints backwards
  /\ Qltb (deltatime_of backwards 1) 0 = true
  /\ exists j, 1 <= j <= 1
       /\ Qltb (deltatime_of backwards j) 0 = true
       /\ (forall k, 1 <= k < j -> Qltb (deltatime_of backwards k) 0 = false)
       /\ _ComputeInternal backwards = Err (negative_deltatime backwards j)
       /\ GetDuration backwards = Err (negative_deltatime backwards j)
       /\ forall dbg time, Qgeb time 0 = true ->
            Sample dbg backwards time = Err (negative_deltatime backwards j).
Proof.
  assert (0 <= _timeoffset backwards < dof_size backwards) as H1
    by (vm_compute; intuition discriminate).
  assert (1 <= 1 < GetNumWaypoints backwards) as H2
    by (vm_compute; intuition discriminate).
  split; [reflexivity|]. split; [reflexivity|].
  split; [exact H1|]. split; [exact H2|]. split; [reflexivity|].
  exact (negative_deltatime_is_rejected backwards 1 eq_refl eq_refl H1 H2 eq_refl).
Defined.

(** C4 as stated fails at waypoint [0]: its stored [deltatime] is negative
    and the rebuild succeeds, as does the duration query. *)
Lemma negative_first_deltatime_is_accepted :
  _bInit early_start = true /\ _bChanged early_start = true
  /\ Qltb (deltatime_of early_start 0) 0 = true
  /\ ~ failed (_ComputeInternal early_start)
  /\ ~ failed (GetDuration early_start).
Proof.
  split; [reflexivity|]. split; [reflexivity|]. split; [reflexivity|].
  split; intros [e H]; vm_compute in H; discriminate.
Qed.
End TimeIndexExamples.

(** ** The sampler *)

Section SamplerFacts.
Context {core : RaveCore}.
Context {R : Type}.

Local Abbreviation Traj := (GenericTrajectory R).

(** The first and the last waypoint as stored. *)
Definition first_row (t : Traj) : list dReal :=
vec_slice (_vtrajdata t) 0 (stride t).

Definition last_row (t : Traj) : list dReal :=
vec_slice (_vtrajdata t) (vsize (_vtrajdata t) - stride t) (stride t).

Lemma vec_set_middle {A} (pre post : list A) (o x : A) :
  vec_set (pre ++ o :: post) (vsize pre) x = pre ++ x :: post.
Proof.
  unfold vec_set, vsize.
  replace (Z.of_nat (List.length pre) <? 0) with false
    by (symmetry; apply Z.ltb_ge; lia).
  rewrite Nat2Z.id. induction pre as [|p pre IH]; simpl; [reflexivity|].
  now rewrite IH.
Qed.

Lemma vec_write_over {A} (src : list A) :
  forall pre old post,
  List.length old = List.length src ->
  vec_write (pre ++ old ++ post) (vsize pre) src = pre ++ src ++ post.
Proof.
  induction src as [|x src IH]; intros pre [|o old] post Hlen;
    simpl in Hlen; try discriminate; [reflexivity|].
  cbn [vec_write app]. rewrite vec_set_middle.
  replace (vsize pre + 1) with (vsize (pre ++ [x]))
    by (rewrite vsize_app; reflexivity).
  replace (pre ++ x :: old ++ post) with ((pre ++ [x]) ++ old ++ post)
    by (rewrite <- app_assoc; reflexivity).
  rewrite IH by lia. rewrite <- app_assoc. reflexivity.
Qed.

Lemma vec_write_whole {A} (d : A) (src : list A) :
  vec_write (repeat d (List.length src)) 0 src = src.
Proof.
  pose proof (vec_write_over src [] (repeat d (List.length src)) []) as H.
  rewrite !app_nil_r in H. simpl in H. apply H. apply repeat_length.
Qed.

Lemma length_slice {A} (v : list A) from n :
  0 <= from -> 0 <= n -> from + n <= vsize v ->
  List.length (vec_slice v from n) = Z.to_nat n.
Proof.
  intros Hf Hn Hv. unfold vec_slice, vsize in *.
  rewrite length_firstn, length_skipn. lia.
Qed.

(** The row buffer of [Sample] after a whole row has been copied in. *)
Lemma copy_row_into_zeroes (t : Traj) from :
  0 <= from -> 0 <= stride t -> from + stride t <= vsize (_vtrajdata t) ->
  vec_write (repeat (0%Q : dReal) (Z.to_nat (stride t))) 0
            (vec_slice (_vtrajdata t) from (stride t))
  = vec_slice (_vtrajdata t) from (stride t).
Proof.
  intros Hf Hs Hv.
  rewrite <- (length_slice (_vtrajdata t) from (stride t)) by lia.
  apply vec_write_whole.
Qed.

Lemma _ComputeInternal_frame (t t1 : Traj) :
  _ComputeInternal t = Ok t1 ->
  _spec t1 = _spec t /\ _vtrajdata t1 = _vtrajdata t
  /\ _timeoffset t1 = _timeoffset t /\ _bInit t1 = _bInit t
  /\ _vgroupinterpolators t1 = _vgroupinterpolators t
  /\ (GetNumWaypoints t <> 0 -> _bChanged t1 = false).
Proof.
  unfold _ComputeInternal.
  destruct (_bChanged t) eqn:Ec; simpl.
  2:{ intros H. inversion H; subst t1. repeat split; auto. }
  destruct (_timeoffset t <? 0).
  { intros H. inversion H; subst t1. repeat split; auto. }
  destruct (GetNumWaypoints t =? 0) eqn:En.
  { intros H. inversion H; subst t1. apply Z.eqb_eq in En.
    repeat split; auto. intros; contradiction. }
  intros H. apply bind_ok in H. destruct H as (first & _ & H).
  apply bind_ok in H. destruct H as ([[accum inv] last] & _ & H).
  inversion H; subst t1. repeat split; auto.
Qed.

Lemma _ComputeInternal_clean (t : Traj) :
  _bChanged t = false -> _ComputeInternal t = Ok t.
Proof. intros H. unfold _ComputeInternal. now rewrite H. Qed.

Lemma _VerifySampling_frame dbg (t t2 : Traj) :
  _VerifySampling dbg t = Ok t2 -> t2 = t \/ t2 = with_verified t true.
Proof.
  unfold _VerifySampling. intros H.
  apply bind_ok in H. destruct H as (_ & _ & H).
  apply bind_ok in H. destruct H as (_ & _ & H).
  destruct (_bSamplingVerified t); [left; now inversion H|].
  apply bind_ok in H. destruct H as (_ & _ & H).
  apply bind_ok in H. destruct H as (_ & _ & H).
  apply bind_ok in H. destruct H as (_ & _ & H).
  right. now inversion H.
Qed.

(** The verification step of [Sample]. *)
Definition verify_if_asked (dbg : DebugLevel) (t : Traj) : Result Traj :=
if verbose_or_verifyplans dbg then _VerifySampling dbg t else Ok t.

Lemma verify_if_asked_frame dbg (t t2 : Traj) :
  verify_if_asked dbg t = Ok t2 -> t2 = t \/ t2 = with_verified t true.
Proof.
  unfold verify_if_asked. destruct (verbose_or_verifyplans dbg).
  - apply _VerifySampling_frame.
  - intros H. left. now inversion H.
Qed.

(** [_vaccumtime.back()], or [0] for an empty time index. *)
Definition duration_of (t : Traj) : dReal :=
if vsize (_vaccumtime t) >? 0 then List.last (_vaccumtime t) 0%Q else 0%Q.

(** The common prefix of every [Sample]: the checks, the rebuild, the
    verification and the duration query. *)
Lemma Sample_prefix dbg (t t1 t2 : Traj) (time : dReal) :
  _bInit t = true -> 0 <= _timeoffset t ->
  stride t <= vsize (_vtrajdata t) < 2 ^ 31 -> 0 < stride t < 2 ^ 64 ->
  Qgeb time 0 = true ->
  _ComputeInternal t = Ok t1 -> verify_if_asked dbg t1 = Ok t2 ->
  Sample dbg t time =
  let data := repeat (0%Q : dReal) (Z.to_nat (stride t)) in
  if Qgeb time (duration_of t1) then Ok (t2, vec_write data 0 (last_row t))
  else
    let it := lower_bound (_vaccumtime t1) time in
    if it =? 0 then
      let data := vec_write data 0 (first_row t) in
      let* data := vec_at_put data (_timeoffset t) time in
      Ok (t2, data)
    else
      let* before := vec_at (_vaccumtime t1) (it - 1) in
      let deltatime := (time - before)%Q in
      let* waypointdeltatime :=
        vec_at (_vtrajdata t) (stride t * it + _timeoffset t) in
      let deltatime :=
        if Qltb deltatime 0 then 0%Q
        else if Qgtb deltatime waypointdeltatime then waypointdeltatime
        else deltatime in
      let* data := interpolate_groups t2 (it - 1) deltatime data in
      let* data := vec_at_put data (_timeoffset t) deltatime in
      Ok (t2, data).
Proof.
  intros Hinit Htoff Hsize Hstride Htime Hcompute Hverify.
  destruct (_ComputeInternal_frame t t1 Hcompute)
    as (Hspec & Hdata & Htoff1 & Hinit1 & _ & Hclean).
  assert (GetNumWaypoints t <> 0) as Hcount.
  { unfold GetNumWaypoints, dof_size. fold (stride t).
    rewrite to_size_t_small by lia.
    intros H0. apply Z.div_small_iff in H0; lia. }
  specialize (Hclean Hcount).
  assert (_spec t2 = _spec t /\ _vtrajdata t2 = _vtrajdata t
          /\ _timeoffset t2 = _timeoffset t /\ _bInit t2 = true
          /\ _bChanged t2 = false /\ _vaccumtime t2 = _vaccumtime t1) as Ht2.
  { destruct (verify_if_asked_frame dbg t1 t2 Hverify) as [->| ->]; simpl;
      repeat split; congruence. }
  destruct Ht2 as (Hspec2 & Hdata2 & Htoff2 & Hinit2 & Hclean2 & Haccum2).
  assert (stride t1 = stride t) as Hs1 by (unfold stride; now rewrite Hspec).
  assert (stride t2 = stride t) as Hs2 by (unfold stride; now rewrite Hspec2).
  unfold Sample. rewrite Hinit, Htime, Hcompute.
  replace (_timeoffset t >=? 0) with true by (symmetry; apply Z.geb_le; lia).
  cbn [BOOST_ASSERT bind].
  rewrite Hdata, Hs1, to_int_small by lia.
  replace (vsize (_vtrajdata t) >=? stride t) with true
    by (symmetry; apply Z.geb_le; lia).
  cbn [bind]. fold (verify_if_asked dbg t1). rewrite Hverify. cbn [bind].
  unfold GetDuration. rewrite Hinit2, (_ComputeInternal_clean t2 Hclean2).
  cbn [BOOST_ASSERT bind]. rewrite Haccum2, Hdata2, Hs2, Htoff2.
  fold (duration_of t1). unfold last_row, first_row. reflexivity.
Qed.

Lemma vec_get_slice {A} (d : A) (v : list A) from n k :
  0 <= from -> 0 <= k < n ->
  vec_get d (vec_slice v from n) k = vec_get d v (from + k).
Proof.
  intros Hf Hk. unfold vec_get, vec_slice.
  replace (k <? 0) with false by (symmetry; apply Z.ltb_ge; lia).
  replace (from + k <? 0) with false by (symmetry; apply Z.ltb_ge; lia).
  rewrite !nth_lookup, lookup_take_lt by lia. rewrite lookup_drop.
  now replace (Z.to_nat from + Z.to_nat k)%nat with (Z.to_nat (from + k)) by lia.
Qed.

Lemma lower_bound_at_begin (v : list dReal) (x : dReal) :
  Qltb (vec_get 0%Q v 0) x = false -> lower_bound v x = 0.
Proof.
  destruct v as [|y v]; simpl; [reflexivity|].
  unfold vec_get. simpl. now intros ->.
Qed.

(** A verification that fails stops [Sample] at every time. *)
Lemma Sample_verify_error dbg (t t1 : Traj) (time : dReal) e :
  _bInit t = true -> 0 <= _timeoffset t ->
  stride t <= vsize (_vtrajdata t) < 2 ^ 31 ->
  Qgeb time 0 = true ->
  _ComputeInternal t = Ok t1 -> verify_if_asked dbg t1 = Err e ->
  Sample dbg t time = Err e.
Proof.
  intros Hinit Htoff Hsize Htime Hcompute Hverify.
  destruct (_ComputeInternal_frame t t1 Hcompute)
    as (Hspec & Hdata & _).
  assert (stride t1 = stride t) as Hs1 by (unfold stride; now rewrite Hspec).
  pose proof (vsize_nonneg (_vtrajdata t)) as Hnonneg.
  unfold Sample. rewrite Hinit, Htime, Hcompute.
  replace (_timeoffset t >=? 0) with true by (symmetry; apply Z.geb_le; lia).
  cbn [BOOST_ASSERT bind].
  rewrite Hdata, Hs1, to_int_small by lia.
  replace (vsize (_vtrajdata t) >=? stride t) with true
    by (symmetry; apply Z.geb_le; lia).
  cbn [bind]. fold (verify_if_asked dbg t1). rewrite Hverify. reflexivity.
Qed.

(** C1 (as amended): take an initialized trajectory with a [deltatime]
    group inside the row and at least one waypoint, whose buffer length
    fits an [int] and whose time index can be rebuilt.  When the debug
    level does not ask for the verification of the sampling, or when that
    verification passes, [Sample] at every time [t >= 0] with
    [t >= duration], in particular at [duration + k] for [k >= 0], returns
    the last waypoint row verbatim, so its [t_off] slot holds the stored
    [deltatime] of the last row; and when the duration is positive and the
    time of the first waypoint is not negative, [Sample] at [0] returns the
    first row with its [t_off] slot set to [0].  When the verification is
    asked for and fails, [Sample] throws its error at every time
    [t >= 0]. *)
Theorem sample_at_boundaries dbg (t t1 : Traj) :
  _bInit t = true ->
  0 <= _timeoffset t < stride t ->
  stride t <= vsize (_vtrajdata t) < 2 ^ 31 ->
  _ComputeInternal t = Ok t1 ->
  (verbose_or_verifyplans dbg = false -> verify_if_asked dbg t1 = Ok t1)
  /\ (forall t2, verify_if_asked dbg t1 = Ok t2 ->
        (forall time, Qgeb time 0 = true -> Qgeb time (duration_of t1) = true ->
           Sample dbg t time = Ok (t2, last_row t))
        /\ (forall k, (0 <= duration_of t1)%Q -> (0 <= k)%Q ->
              Sample dbg t (duration_of t1 + k)%Q = Ok (t2, last_row t))
        /\ (Qgeb 0 (duration_of t1) = false ->
            Qltb (vec_get 0%Q (_vaccumtime t1) 0) 0 = false ->
            Sample dbg t 0%Q = Ok (t2, vec_set (first_row t) (_timeoffset t) 0%Q)))
  /\ vec_get 0%Q (last_row t) (_timeoffset t)
     = traj_get t (vsize (_vtrajdata t) - stride t + _timeoffset t)
  /\ (forall e, verify_if_asked dbg t1 = Err e ->
        forall time, Qgeb time 0 = true -> Sample dbg t time = Err e).
Proof.
  intros Hinit Htoff Hsize Hcompute.
  split; [|split; [|split]].
  - intros Hquiet. unfold verify_if_asked. now rewrite Hquiet.
  - intros t2 Hverify.
    assert (forall time, Qgeb time 0 = true -> Qgeb time (duration_of t1) = true ->
              Sample dbg t time = Ok (t2, last_row t)) as Hlast.
    { intros time Htime Hend.
      rewrite (Sample_prefix dbg t t1 t2 time) by (auto; lia).
      cbv zeta. rewrite Hend. unfold last_row.
      now rewrite copy_row_into_zeroes by lia. }
    split; [exact Hlast|]. split.
    + intros k Hd Hk. apply Hlast; apply Qgeb_le; lra.
    + intros Hpositive Hfirst.
      rewrite (Sample_prefix dbg t t1 t2 0%Q) by (auto; lia).
      cbv zeta. rewrite Hpositive, (lower_bound_at_begin _ _ Hfirst).
      cbn [Z.eqb]. unfold first_row.
      rewrite copy_row_into_zeroes by lia.
      unfold vec_at_put.
      rewrite (vec_at_in_range 0%Q); [reflexivity|].
      unfold vsize. rewrite length_slice by lia. lia.
  - unfold last_row, traj_get. apply vec_get_slice; lia.
  - intros e Hverify time Htime.
    apply (Sample_verify_error dbg t t1 time e); auto; lia.
Qed.
End SamplerFacts.

Module SamplerExamples.
Import Ref.

(** Two waypoints half a second apart. *)
Definition segment : Traj := make spec_linear [0; 0; 0; 1; 2; 0.5]%Q.
Definition segment_indexed : Traj := unwrap segment (_ComputeInternal segment).

(** Two waypoints at the same time: a trajectory of duration zero. *)
Definition instant : Traj := make spec_next [0; 0; 1; 0]%Q.

Lemma sample_at_boundaries_witness :
  _bInit segment = true
  /\ 0 <= _timeoffset segment < stride segment
  /\ stride segment <= vsize (_vtrajdata segment) < 2 ^ 31
  /\ _ComputeInternal segment = Ok segment_indexed
  /\ verify_if_asked quiet segment_indexed = Ok segment_indexed
  /\ (forall time, Qgeb time 0 = true ->
        Qgeb time (duration_of segment_indexed) = true ->
        Sample quiet segment time = Ok (segment_indexed, last_row segment))
  /\ (forall k, (0 <= duration_of segment_indexed)%Q -> (0 <= k)%Q ->
        Sample quiet segment (duration_of segment_indexed + k)%Q
        = Ok (segment_indexed, last_row segment))
  /\ (Qgeb 0 (duration_of segment_indexed) = false ->
      Qltb (vec_get 0%Q (_vaccumtime segment_indexed) 0) 0 = false ->
      Sample quiet segment 0%Q
      = Ok (segment_indexed,
            vec_set (first_row segment) (_timeoffset segment) 0%Q)).
Proof.
  assert (0 <= _timeoffset segment < stride segment) as H1
    by (vm_compute; intuition discriminate).
  assert (stride segment <= vsize (_vtrajdata segment) < 2 ^ 31) as H2
    by (vm_compute; intuition discriminate).
  split; [reflexivity|]. split; [exact H1|]. split; [exact H2|].
  split; [reflexivity|]. split; [reflexivity|].
  exact (proj1 (proj2 (sample_at_boundaries quiet segment segment_indexed
                         eq_refl H1 H2 eq_refl))
           segment_indexed eq_refl).
Defined.

(** C1 as stated fails on a trajectory of duration zero with two
    waypoints: [Sample] at [0] returns the last row, whose joint value [1]
    is not the joint value [0] of the first waypoint. *)
Lemma sample_at_zero_returns_last_row :
  _bInit instant = true /\ 0 <= _timeoffset instant
  /\ first_row instant = [0; 0]%Q
  /\ last_row instant = [1; 0]%Q
  /\ exists t', Sample quiet instant 0%Q = Ok (t', [1; 0]%Q).
Proof.
  split; [reflexivity|]. split; [vm_compute; discriminate|].
  split; [reflexivity|]. split; [reflexivity|].
  eexists. vm_compute. reflexivity.
Qed.
End SamplerExamples.

(** ** The kernels *)

Ltac bool_to_Z :=
  repeat match goal with
  | H : (_ && _) = true |- _ => apply andb_true_iff in H; destruct H
  | H : (_ && _) = false |- _ => apply andb_false_iff in H; destruct H
  | H : (_ <=? _) = true |- _ => apply Z.leb_le in H
  | H : (_ <=? _) = false |- _ => apply Z.leb_gt in H
  | H : (_ <? _) = true |- _ => apply Z.ltb_lt in H
  | H : (_ <? _) = false |- _ => apply Z.ltb_ge in H
  | H : (_ >=? _) = true |- _ => apply Z.geb_le in H
  | H : (_ >? _) = true |- _ => apply Z.gtb_lt in H
  end.

Section StoreFacts.
Context {A : Type}.
Implicit Types v src : list A.

Lemma vec_get_set_same (d : A) v k x :
  0 <= k < vsize v -> vec_get d (vec_set v k x) k = x.
Proof.
  intros H. unfold vec_get, vec_set, vsize in *.
  replace (k <? 0) with false by (symmetry; apply Z.ltb_ge; lia).
  rewrite nth_lookup, list_lookup_insert_eq by lia. reflexivity.
Qed.

Lemma vec_get_set_other (d : A) v k x p :
  p <> k -> vec_get d (vec_set v k x) p = vec_get d v p.
Proof.
  intros H. unfold vec_get, vec_set.
  destruct (p <? 0) eqn:Ep; [reflexivity|]. apply Z.ltb_ge in Ep.
  destruct (k <? 0) eqn:Ek; [reflexivity|]. apply Z.ltb_ge in Ek.
  rewrite !nth_lookup, list_lookup_insert_ne by lia. reflexivity.
Qed.

(** Reading after a block copy. *)
Lemma vec_get_write (d : A) src :
  forall v k p,
  0 <= k -> k + vsize src <= vsize v ->
  vec_get d (vec_write v k src) p
  = if (k <=? p) && (p <? k + vsize src) then vec_get d src (p - k)
    else vec_get d v p.
Proof.
  induction src as [|x src IH]; intros v k p Hk Hfit.
  - assert (vsize (@nil A) = 0) as Hnil by reflexivity. rewrite Hnil.
    simpl. destruct ((k <=? p) && (p <? k + 0)) eqn:E; [|reflexivity].
    bool_to_Z. lia.
  - assert (vsize (x :: src) = 1 + vsize src) as Hcons
      by (unfold vsize; simpl; lia).
    rewrite Hcons in *. pose proof (vsize_nonneg src) as Hs.
    cbn [vec_write]. rewrite IH by (rewrite ?vsize_vec_set; lia).
    destruct ((k + 1 <=? p) && (p <? k + 1 + vsize src)) eqn:E1;
      destruct ((k <=? p) && (p <? k + (1 + vsize src))) eqn:E2;
      bool_to_Z; try lia.
    + unfold vec_get.
      replace (p - (k + 1) <? 0) with false by (symmetry; apply Z.ltb_ge; lia).
      replace (p - k <? 0) with false by (symmetry; apply Z.ltb_ge; lia).
      replace (Z.to_nat (p - k)) with (S (Z.to_nat (p - (k + 1)))) by lia.
      reflexivity.
    + assert (p = k) as -> by lia. rewrite vec_get_set_same by lia.
      replace (k - k) with 0 by lia. reflexivity.
    + apply vec_get_set_other. lia.
    + apply vec_get_set_other. lia.
Qed.

(** Reading after a loop of stores at consecutive places. *)
Lemma vec_get_stores (d : A) (f : Z -> A) base (count : nat) :
  forall (a : nat) v p,
  0 <= base -> base + Z.of_nat (a + count) <= vsize v ->
  vec_get d
    (fold_left (fun out i => vec_set out (base + Z.of_nat i) (f (Z.of_nat i)))
               (seq a count) v) (base + p)
  = if (Z.of_nat a <=? p) && (p <? Z.of_nat (a + count)) then f p
    else vec_get d v (base + p).
Proof.
  induction count as [|count IH]; intros a v p Hb Hfit.
  - simpl. destruct ((Z.of_nat a <=? p) && (p <? Z.of_nat (a + 0))) eqn:E;
      [|reflexivity].
    bool_to_Z. lia.
  - cbn [seq fold_left]. rewrite IH by (rewrite ?vsize_vec_set; lia).
    destruct ((Z.of_nat (S a) <=? p) && (p <? Z.of_nat (S a + count))) eqn:E1;
      destruct ((Z.of_nat a <=? p) && (p <? Z.of_nat (a + S count))) eqn:E2;
      bool_to_Z; try lia; try reflexivity.
    + assert (p = Z.of_nat a) as -> by lia. apply vec_get_set_same. lia.
    + apply vec_get_set_other. lia.
    + apply vec_get_set_other. lia.
Qed.
End StoreFacts.

Section KernelFacts.
Context {core : RaveCore}.
Context {R : Type}.

Local Abbreviation Traj := (GenericTrajectory R).

Lemma for_channels_pure (g : Group) (f : Z -> dReal) (itdata : list dReal) :
  for_channels g (fun i => Ok (f i)) itdata
  = Ok (fold_left
          (fun out i => vec_set out (offset g + Z.of_nat i) (f (Z.of_nat i)))
          (seq 0 (Z.to_nat (dof g))) itdata).
Proof.
  unfold for_channels. generalize (seq 0 (Z.to_nat (dof g))). intros l.
  revert itdata. induction l as [|i l IH]; intros itdata; simpl; [reflexivity|].
  apply IH.
Qed.

(** What a loop over the channels of a group leaves in the output row. *)
Lemma for_channels_get (g : Group) (f : Z -> dReal) (itdata : list dReal) j :
  0 <= offset g -> offset g + dof g <= vsize itdata -> 0 <= j < dof g ->
  exists out, for_channels g (fun i => Ok (f i)) itdata = Ok out
              /\ vec_get 0%Q out (offset g + j) = f j.
Proof.
  intros Hoff Hfit Hj. rewrite for_channels_pure. eexists. split; [reflexivity|].
  rewrite (vec_get_stores 0%Q f (offset g) (Z.to_nat (dof g)) 0 itdata j)
    by lia.
  destruct ((Z.of_nat 0 <=? j) && (j <? Z.of_nat (0 + Z.to_nat (dof g)))) eqn:E;
    [reflexivity|].
  bool_to_Z; lia.
Qed.

Lemma copy_group_get (t : Traj) (g : Group) from (itdata : list dReal) j :
  0 <= offset g -> offset g + dof g <= vsize itdata -> 0 <= j < dof g ->
  0 <= from -> from + dof g <= vsize (_vtrajdata t) ->
  vec_get 0%Q (copy_group t g from itdata) (offset g + j) = traj_get t (from + j).
Proof.
  intros Hoff Hfit Hj Hfrom Hdata. unfold copy_group, traj_get.
  assert (vsize (vec_slice (_vtrajdata t) from (dof g)) = dof g) as Hlen.
  { unfold vsize. rewrite length_slice by lia. lia. }
  rewrite vec_get_write by (rewrite ?Hlen; lia). rewrite Hlen.
  destruct ((offset g <=? offset g + j) && (offset g + j <? offset g + dof g))
    eqn:E; [|bool_to_Z; lia].
  replace (offset g + j - offset g) with j by lia.
  apply vec_get_slice; lia.
Qed.

(** C5 (as amended): within a stored segment [[i, i+1]] the [next] kernel
    copies the group from waypoint [i+1], unless [deltatime <= epsilon], in
    which case it copies it from waypoint [i]; this holds for [i = 0] as for
    every other [i]. *)
Theorem next_kernel_value (t : Traj) (g : Group) (ipoint : Z) (deltatime : dReal)
    (itdata : list dReal) (j : Z) :
  0 <= ipoint -> 0 <= stride t ->
  (ipoint + 1) * stride t + offset g + dof g <= vsize (_vtrajdata t) ->
  0 <= offset g -> offset g + dof g <= vsize itdata -> 0 <= j < dof g ->
  exists out, _InterpolateNext t g ipoint deltatime itdata = Ok out
    /\ vec_get 0%Q out (offset g + j)
       = traj_get t ((if Qleb deltatime g_fEpsilon then ipoint else ipoint + 1)
                     * stride t + offset g + j).
Proof.
  intros Hi Hs Hrow Hoff Hfit Hj. unfold _InterpolateNext.
  replace ((ipoint + 1) * stride t <? vsize (_vtrajdata t)) with true
    by (symmetry; apply Z.ltb_lt; lia).
  replace (ipoint + 1 >? 0) with true by (symmetry; apply Z.gtb_lt; lia).
  rewrite andb_true_r. eexists. split; [reflexivity|].
  destruct (Qleb deltatime g_fEpsilon).
  - rewrite copy_group_get by nia. f_equal. lia.
  - rewrite copy_group_get by nia. reflexivity.
Qed.
(** *** The linear kernel and the rebuilt reciprocals *)

Lemma accumulate_arrays (t : Traj) n (l : list nat) :
  forall accum inv last accum' inv' last',
  fold_left (accumulate_point t n) l (Ok (accum, inv, last))
  = Ok (accum', inv', last') ->
  inv' = inv ++ map (fun i => (1 / deltatime_of t (Z.of_nat i))%Q) l.
Proof.
  induction l as [|i l IH]; intros accum inv last accum' inv' last' H.
  - simpl in H. inversion H. now rewrite app_nil_r.
  - cbn [fold_left] in H. unfold accumulate_point at 2 in H. cbn [bind] in H.
    fold (deltatime_of t (Z.of_nat i)) in H.
    destruct (Qltb (deltatime_of t (Z.of_nat i)) 0).
    + unfold throw in H. rewrite accumulate_after_error in H. discriminate.
    + apply IH in H. rewrite H, <- app_assoc. reflexivity.
Qed.

(** After a rebuild the reciprocal stored for a waypoint [k >= 1] is that
    of its [deltatime]. *)
Lemma _ComputeInternal_inverse (t t1 : Traj) (k : Z) :
  _bChanged t = true -> 0 <= _timeoffset t ->
  _ComputeInternal t = Ok t1 -> 1 <= k < GetNumWaypoints t ->
  vec_at (_vdeltainvtime t1) k = Ok (1 / deltatime_of t k)%Q.
Proof.
  intros Hchanged Htoff Hcompute Hk. unfold _ComputeInternal in Hcompute.
  rewrite Hchanged in Hcompute. cbn [negb] in Hcompute.
  replace (_timeoffset t <? 0) with false in Hcompute
    by (symmetry; apply Z.ltb_ge; lia).
  replace (GetNumWaypoints t =? 0) with false in Hcompute
    by (symmetry; apply Z.eqb_neq; lia).
  apply bind_ok in Hcompute. destruct Hcompute as (first & _ & Hcompute).
  apply bind_ok in Hcompute.
  destruct Hcompute as ([[accum inv] last] & Hfold & Hcompute).
  inversion Hcompute; subst t1. cbn [_vdeltainvtime with_times].
  apply accumulate_arrays in Hfold. subst inv.
  assert (vsize ([(1 / first)%Q]
                 ++ map (fun i => (1 / deltatime_of t (Z.of_nat i))%Q)
                        (seq 1 (Z.to_nat (GetNumWaypoints t) - 1)))
          = GetNumWaypoints t) as Hlen.
  { unfold vsize. rewrite length_app, length_map, length_seq. simpl. lia. }
  rewrite (vec_at_in_range 0%Q) by lia. f_equal.
  unfold vec_get. replace (k <? 0) with false by (symmetry; apply Z.ltb_ge; lia).
  replace (Z.to_nat k) with (S (Z.to_nat k - 1)) by lia. cbn [app nth].
  rewrite nth_lookup, list_lookup_fmap, lookup_seq_lt by lia. simpl.
  do 2 f_equal. lia.
Qed.

Lemma _ComputeInternal_shape (t t1 : Traj) :
  _ComputeInternal t = Ok t1 ->
  exists accum inv changed verified, t1 = with_times t accum inv changed verified.
Proof.
  unfold _ComputeInternal.
  destruct (_bChanged t) eqn:Ec; simpl.
  2:{ intros H. inversion H; subst t1.
      exists (_vaccumtime t), (_vdeltainvtime t), (_bChanged t), (_bSamplingVerified t).
      now destruct t. }
  destruct (_timeoffset t <? 0); [intros H; inversion H; eauto|].
  destruct (GetNumWaypoints t =? 0); [intros H; inversion H; eauto|].
  intros H. apply bind_ok in H. destruct H as (first & _ & H).
  apply bind_ok in H. destruct H as ([[accum inv] last] & _ & H).
  inversion H. eauto.
Qed.

(** C3: for a scalar group bound to the linear kernel, sampling inside the
    segment [[i, i+1]] at the intra-segment time [deltatime] writes, in each
    channel [j] of the group, [x_i + deltatime * v_(i+1)] when the group has
    a resolved derivative (the derivative is read from waypoint [i+1]), and
    otherwise the convex combination [(1-f) x_i + f x_(i+1)] with
    [f = deltatime / d], [d] being the [deltatime] stored at waypoint
    [i+1].  The combination is stated for a segment that takes time,
    [0 < d], where the quotient [deltatime / d] is defined. *)
Theorem linear_kernel_value (t t1 : Traj) (g : Group) (ipoint : Z)
    (deltatime : dReal) (itdata : list dReal) (j : Z) :
  _bChanged t = true -> 0 <= _timeoffset t ->
  _ComputeInternal t = Ok t1 ->
  0 <= ipoint -> ipoint + 1 < GetNumWaypoints t ->
  0 <= offset g -> offset g + dof g <= vsize itdata -> 0 <= j < dof g ->
  let x_i := traj_get t (ipoint * stride t + offset g + j) in
  let x_next := traj_get t ((ipoint + 1) * stride t + offset g + j) in
  let d := deltatime_of t (ipoint + 1) in
  let derivoffset := vec_get 0 (_vderivoffsets t) (offset g) in
  let v_next := traj_get t ((ipoint + 1) * stride t + derivoffset + j) in
  exists out, _InterpolateLinear t1 g ipoint deltatime itdata = Ok out
    /\ (0 <= derivoffset ->
        vec_get 0%Q out (offset g + j) = (x_i + deltatime * v_next)%Q)
    /\ (derivoffset < 0 -> (0 < d)%Q ->
        (vec_get 0%Q out (offset g + j)
         == (1 - deltatime / d) * x_i + (deltatime / d) * x_next)%Q).
Proof.
  intros Hchanged Htoff Hcompute Hi Hnext Hoff Hfit Hj.
  pose proof (_ComputeInternal_inverse t t1 (ipoint + 1) Hchanged Htoff Hcompute
                ltac:(lia)) as Hinv.
  destruct (_ComputeInternal_shape t t1 Hcompute)
    as (accum & inv & changed & verified & ->).
  cbv zeta. unfold _InterpolateLinear, traj_get, stride.
  cbn [_vderivoffsets _vtrajdata _spec with_times] in *.
  rewrite Hinv. cbn [bind].
  destruct (vec_get 0 (_vderivoffsets t) (offset g) <? 0) eqn:Ederiv; bool_to_Z.
  - match goal with
    | |- context [for_channels g (fun i => Ok (@?f i)) itdata] =>
        destruct (for_channels_get g f itdata j Hoff Hfit Hj) as (out & Hout & Hget)
    end.
    exists out. split; [exact Hout|]. split; [lia|]. intros _ Hd. rewrite Hget.
    replace (GetDOF (_spec t) + ipoint * GetDOF (_spec t) + offset g + j)
      with ((ipoint + 1) * GetDOF (_spec t) + offset g + j) by lia.
    unfold Qdiv. ring.
  - match goal with
    | |- context [for_channels g (fun i => Ok (@?f i)) itdata] =>
        destruct (for_channels_get g f itdata j Hoff Hfit Hj) as (out & Hout & Hget)
    end.
    exists out. split; [exact Hout|]. split; [|lia]. intros _. rewrite Hget.
    replace (GetDOF (_spec t) + ipoint * GetDOF (_spec t)
             + vec_get 0 (_vderivoffsets t) (offset g) + j)
      with ((ipoint + 1) * GetDOF (_spec t)
            + vec_get 0 (_vderivoffsets t) (offset g) + j) by lia.
    reflexivity.
Qed.
End KernelFacts.

Module KernelExamples.
Import Ref.

(** Two waypoints one second apart, the joint stepping from 0 to 1, with
    its time index. *)
Definition step : Traj :=
unwrap empty (_ComputeInternal (make spec_next [0; 0; 1; 1]%Q)).

Definition joint : Group := group "joint_values" 0 1 "next".

(** A joint whose velocity group carries the label expected of the
    derivative of a linear group, so that the derivative is resolved. *)
Definition spec_linear_next : ConfigurationSpecification :=
mkSpec [ group "joint_values" 0 1 "linear";
         group "joint_velocities" 1 1 "next";
         group "deltatime" 2 1 "" ].

Definition ramp : Traj := make spec_linear_next [0; 0; 0; 1; 2; 0.5]%Q.
Definition ramp_indexed : Traj := unwrap empty (_ComputeInternal ramp).
Definition position : Group := group "joint_values" 0 1 "linear".

(** A joint without velocities: the linear kernel blends the two
    waypoints of the segment, which takes two seconds. *)
Definition spec_values : ConfigurationSpecification :=
mkSpec [ group "joint_values" 0 1 "linear"; group "deltatime" 1 1 "" ].

Definition slope : Traj := make spec_values [0; 0; 4; 2]%Q.
Definition slope_indexed : Traj := unwrap empty (_ComputeInternal slope).

Lemma linear_kernel_value_witness :
  (_bChanged ramp = true /\ 0 <= _timeoffset ramp
   /\ _ComputeInternal ramp = Ok ramp_indexed
   /\ 0 <= 0 /\ 0 + 1 < GetNumWaypoints ramp
   /\ 0 <= offset position /\ offset position + dof position <= vsize [0; 0; 0]%Q
   /\ 0 <= 0 < dof position
   /\ 0 <= vec_get 0%Z (_vderivoffsets ramp) (offset position)
   /\ exists out,
        _InterpolateLinear ramp_indexed position 0 0.25%Q [0; 0; 0]%Q = Ok out
        /\ vec_get 0%Q out (offset position + 0)
           = (traj_get ramp (0 * stride ramp + offset position + 0)
              + 0.25 * traj_get ramp
                         ((0 + 1) * stride ramp
                          + vec_get 0%Z (_vderivoffsets ramp) (offset position)
                          + 0))%Q)
  /\ (_bChanged slope = true /\ 0 <= _timeoffset slope
      /\ _ComputeInternal slope = Ok slope_indexed
      /\ 0 <= 0 /\ 0 + 1 < GetNumWaypoints slope
      /\ 0 <= offset position /\ offset position + dof position <= vsize [0; 0]%Q
      /\ 0 <= 0 < dof position
      /\ vec_get 0%Z (_vderivoffsets slope) (offset position) < 0
      /\ (0 < deltatime_of slope (0 + 1))%Q
      /\ exists out,
           _InterpolateLinear slope_indexed position 0 0.5%Q [0; 0]%Q = Ok out
           /\ (vec_get 0%Q out (offset position + 0)
               == (1 - 0.5 / deltatime_of slope (0 + 1))
                  * traj_get slope (0 * stride slope + offset position + 0)
                  + (0.5 / deltatime_of slope (0 + 1))
                    * traj_get slope ((0 + 1) * stride slope + offset position + 0))%Q).
Proof.
  assert (0 <= _timeoffset ramp) as H2 by (vm_compute; discriminate).
  assert (0 + 1 < GetNumWaypoints ramp) as H5 by (vm_compute; reflexivity).
  assert (offset position + dof position <= vsize [0; 0; 0]%Q) as H7
    by (vm_compute; discriminate).
  assert (0 <= 0 < dof position) as H8 by (vm_compute; intuition discriminate).
  assert (0 <= vec_get 0%Z (_vderivoffsets ramp) (offset position)) as H9
    by (vm_compute; discriminate).
  assert (0 <= _timeoffset slope) as K2 by (vm_compute; discriminate).
  assert (0 + 1 < GetNumWaypoints slope) as K5 by (vm_compute; reflexivity).
  assert (offset position + dof position <= vsize [0; 0]%Q) as K7
    by (vm_compute; discriminate).
  assert (vec_get 0%Z (_vderivoffsets slope) (offset position) < 0) as K9
    by (vm_compute; reflexivity).
  assert (0 < deltatime_of slope (0 + 1))%Q as K10 by (vm_compute; reflexivity).
  split.
  - split; [reflexivity|]. split; [exact H2|]. split; [reflexivity|].
    split; [lia|]. split; [exact H5|]. split; [simpl; lia|]. split; [exact H7|].
    split; [exact H8|]. split; [exact H9|].
    destruct (linear_kernel_value ramp ramp_indexed position 0 0.25%Q [0; 0; 0]%Q 0
                eq_refl H2 eq_refl (Z.le_refl 0) H5 (Z.le_refl 0) H7 H8)
      as (out & Hout & Hderiv & _).
    exists out. split; [exact Hout | exact (Hderiv H9)].
  - split; [reflexivity|]. split; [exact K2|]. split; [reflexivity|].
    split; [lia|]. split; [exact K5|]. split; [simpl; lia|]. split; [exact K7|].
    split; [exact H8|]. split; [exact K9|]. split; [exact K10|].
    destruct (linear_kernel_value slope slope_indexed position 0 0.5%Q [0; 0]%Q 0
                eq_refl K2 eq_refl (Z.le_refl 0) K5 (Z.le_refl 0) K7 H8)
      as (out & Hout & _ & Hblend).
    exists out. split; [exact Hout | exact (Hblend K9 K10)].
Defined.

Lemma next_kernel_value_witness :
  0 <= 0 /\ 0 <= stride step
  /\ (0 + 1) * stride step + offset joint + dof joint <= vsize (_vtrajdata step)
  /\ 0 <= offset joint /\ offset joint + dof joint <= vsize [0; 0]%Q
  /\ 0 <= 0 < dof joint
  /\ exists out, _InterpolateNext step joint 0 0.5%Q [0; 0]%Q = Ok out
       /\ vec_get 0%Q out (offset joint + 0)
          = traj_get step ((if Qleb 0.5%Q g_fEpsilon then 0 else 0 + 1)
                           * stride step + offset joint + 0).
Proof.
  assert (0 <= stride step) as H2 by (vm_compute; discriminate).
  assert ((0 + 1) * stride step + offset joint + dof joint
          <= vsize (_vtrajdata step)) as H3 by (vm_compute; discriminate).
  assert (offset joint + dof joint <= vsize [0; 0]%Q) as H5
    by (vm_compute; discriminate).
  assert (0 <= 0 < dof joint) as H6 by (vm_compute; intuition discriminate).
  split; [lia|]. split; [exact H2|]. split; [exact H3|]. split; [simpl; lia|].
  split; [exact H5|]. split; [exact H6|].
  exact (next_kernel_value step joint 0 0.5%Q [0; 0]%Q 0
           (Z.le_refl 0) H2 H3 (Z.le_refl 0) H5 H6).
Defined.

(** C5 as stated fails in the first segment: with [i = 0] and
    [deltatime <= epsilon] the claim has the kernel output the value at
    waypoint [1], which is [1]; the kernel outputs the value at waypoint [0],
    which is [0].  The sampler reaches the kernel this way at any time
    within epsilon after the first waypoint. *)
Lemma next_kernel_first_segment :
  Qleb 1e-16%Q g_fEpsilon = true
  /\ traj_get step (0 * stride step + offset joint) = 0%Q
  /\ traj_get step (1 * stride step + offset joint) = 1%Q
  /\ _InterpolateNext step joint 0 1e-16%Q [0; 0]%Q = Ok [0; 0]%Q
  /\ Sample quiet step 1e-16%Q = Ok (step, [0; 1e-16]%Q).
Proof. repeat split; vm_compute; reflexivity. Qed.
End KernelExamples.

(** ** Groups that cannot be sampled *)

Section UnsamplableFacts.
Context {core : RaveCore}.
Context {R : Type}.

Local Abbreviation Traj := (GenericTrajectory R).



(** The intra-segment time that [Sample] hands to the kernels. *)
Definition segment_deltatime (t : Traj) (time : dReal) : dReal :=
let it := lower_bound (_vaccumtime t) time in
let deltatime := (time - vec_get 0%Q (_vaccumtime t) (it - 1))%Q in
let waypointdeltatime :=
  vec_get 0%Q (_vtrajdata t) (stride t * it + _timeoffset t) in
if Qltb deltatime 0 then 0%Q
else if Qgtb deltatime waypointdeltatime then waypointdeltatime
else deltatime.


Lemma vec_at_get {A} (d : A) (v : list A) k x :
  vec_at v k = Ok x -> x = vec_get d v k.
Proof.
  intros H. pose proof (vec_at_ok v k x H) as Hk.
  rewrite (vec_at_in_range d) in H by exact Hk. now inversion H.
Qed.









End UnsamplableFacts.

Module UnsamplableExamples.
Import Ref.




End UnsamplableExamples.

(** ** Strings *)

Section StringFacts.
Import URI.
Local Open Scope string_scope.

Lemma string_app_cons x (a b : string) : String x a ++ b = String x (a ++ b).
Proof. reflexivity. Qed.

Lemma string_app_nil_l (b : string) : "" ++ b = b.
Proof. reflexivity. Qed.

Ltac simpl_string := rewrite ?string_app_cons, ?string_app_nil_l; simpl.
Ltac simpl_string_all :=
  rewrite ?string_app_cons, ?string_app_nil_l in *; simpl in *.

Definition absent (c : ascii) (s : string) : Prop :=
~ In c (list_ascii_of_string s).

Lemma absent_cons c a s : absent c (String a s) <-> a <> c /\ absent c s.
Proof. unfold absent. simpl_string. tauto. Qed.

Lemma absent_app c a b : absent c (a ++ b) <-> absent c a /\ absent c b.
Proof.
  induction a as [|x a IH]; simpl_string.
  - unfold absent at 2. simpl_string. tauto.
  - rewrite !absent_cons, IH. tauto.
Qed.

Lemma find_first_of_None s c : Str.find_first_of s c = None <-> absent c s.
Proof.
  induction s as [|a s IH]; simpl_string.
  - unfold absent. simpl_string. tauto.
  - rewrite absent_cons, <- IH. destruct (Ascii.eqb_spec a c) as [->|Hne].
    + split; [discriminate | intros [H _]; now elim H].
    + destruct (Str.find_first_of s c); split; try discriminate; try tauto.
      intros [_ H]. discriminate.
Qed.

Lemma find_last_of_None s c : find_last_of s c = None <-> absent c s.
Proof.
  induction s as [|a s IH]; simpl_string.
  - unfold absent. simpl_string. tauto.
  - rewrite absent_cons, <- IH. destruct (find_last_of s c).
    + split; [discriminate | intros [_ H]; discriminate].
    + destruct (Ascii.eqb_spec a c) as [->|Hne].
      * split; [discriminate | intros [H _]; now elim H].
      * tauto.
Qed.

Lemma find_first_of_app s c rest :
  absent c s -> Str.find_first_of (s ++ String c rest) c = Some (String.length s).
Proof.
  induction s as [|a s IH]; simpl_string; intros H.
  - now rewrite Ascii.eqb_refl.
  - apply absent_cons in H. destruct H as [Hne H].
    destruct (Ascii.eqb_spec a c); [congruence|]. now rewrite IH.
Qed.

Lemma find_last_of_app s c rest :
  absent c rest -> find_last_of (s ++ String c rest) c = Some (String.length s).
Proof.
  intros H. induction s as [|a s IH]; simpl_string.
  - apply find_last_of_None in H. rewrite H. now rewrite Ascii.eqb_refl.
  - now rewrite IH.
Qed.

Lemma substring_all s : substring 0 (String.length s) s = s.
Proof. induction s as [|a s IH]; simpl_string; [reflexivity | now rewrite IH]. Qed.

Lemma substring_app_l a b : substring 0 (String.length a) (a ++ b) = a.
Proof.
  induction a as [|x a IH]; simpl_string; [now destruct b | now rewrite IH].
Qed.

Lemma substring_app_r a b n :
  n = String.length b -> substring (String.length a) n (a ++ b) = b.
Proof.
  intros ->. induction a as [|x a IH]; simpl_string; [apply substring_all | exact IH].
Qed.

Lemma string_length_app a b :
  String.length (a ++ b) = (String.length a + String.length b)%nat.
Proof. induction a as [|x a IH]; simpl_string; [reflexivity | now rewrite IH]. Qed.

(** A string splits at every position up to its length. *)
Lemma substring_split s n :
  (n <= String.length s)%nat ->
  s = substring 0 n s ++ substring n (String.length s - n) s.
Proof.
  revert n. induction s as [|a s IH]; intros n Hn; simpl_string_all.
  - destruct n; [reflexivity | lia].
  - destruct n as [|n]; simpl_string.
    + now rewrite substring_all.
    + f_equal. apply IH. lia.
Qed.

Lemma length_substring s n m :
  (n + m <= String.length s)%nat -> String.length (substring n m s) = m.
Proof.
  revert n m. induction s as [|a s IH]; intros n m H; simpl_string_all.
  - destruct n, m; simpl_string; lia.
  - destruct n as [|n].
    + destruct m as [|m]; simpl_string; [reflexivity|]. f_equal. apply IH. lia.
    + apply IH. lia.
Qed.

Lemma find_first_of_Some s c i :
  Str.find_first_of s c = Some i ->
  s = substring 0 i s ++ String c (substring (i + 1) (String.length s - (i + 1)) s)
  /\ absent c (substring 0 i s) /\ (i < String.length s)%nat.
Proof.
  revert i. induction s as [|a s IH]; intros i H; simpl in H; [discriminate|].
  destruct (Ascii.eqb_spec a c) as [->|Hne].
  - inversion H; subst i.
    change (substring 0 0 (String c s)) with "".
    change (substring (0 + 1) (String.length (String c s) - (0 + 1)) (String c s))
      with (substring 0 (String.length s - 0) s).
    rewrite string_app_nil_l, Nat.sub_0_r, substring_all.
    repeat split; [|simpl; lia]. unfold absent. simpl. tauto.
  - destruct (Str.find_first_of s c) as [k|] eqn:E; [|discriminate].
    inversion H; subst i. destruct (IH k eq_refl) as (Hs & Hl & Hk).
    change (substring 0 (S k) (String a s)) with (String a (substring 0 k s)).
    change (substring (S k + 1) (String.length (String a s) - (S k + 1)) (String a s))
      with (substring (k + 1) (String.length s - (k + 1)) s).
    rewrite string_app_cons. repeat split.
    + f_equal. exact Hs.
    + apply absent_cons. split; assumption.
    + simpl. lia.
Qed.

Lemma find_last_of_Some s c i :
  find_last_of s c = Some i ->
  s = substring 0 i s ++ String c (substring (i + 1) (String.length s - (i + 1)) s)
  /\ absent c (substring (i + 1) (String.length s - (i + 1)) s)
  /\ (i < String.length s)%nat.
Proof.
  revert i. induction s as [|a s IH]; intros i H; simpl in H; [discriminate|].
  destruct (find_last_of s c) as [k|] eqn:E.
  - inversion H; subst i. destruct (IH k eq_refl) as (Hs & Hl & Hk).
    change (substring 0 (S k) (String a s)) with (String a (substring 0 k s)).
    change (substring (S k + 1) (String.length (String a s) - (S k + 1)) (String a s))
      with (substring (k + 1) (String.length s - (k + 1)) s).
    rewrite string_app_cons.
    repeat split; [f_equal; exact Hs | exact Hl | simpl; lia].
  - destruct (Ascii.eqb_spec a c) as [->|Hne]; [|discriminate].
    inversion H; subst i.
    change (substring 0 0 (String c s)) with "".
    change (substring (0 + 1) (String.length (String c s) - (0 + 1)) (String c s))
      with (substring 0 (String.length s - 0) s).
    rewrite string_app_nil_l, Nat.sub_0_r, substring_all.
    repeat split; [|simpl; lia]. now apply find_last_of_None.
Qed.
End StringFacts.

(** ** The canonical group order *)

Section StableSortFacts.
Context {A : Type} (comp : A -> A -> bool).

(** [b] need not come before [a]. *)
Definition not_after (a b : A) : Prop := comp b a = false.

Hypothesis comp_asym : forall a b, comp a b = true -> comp b a = false.
Hypothesis not_after_trans :
  forall a b c, not_after a b -> not_after b c -> not_after a c.

Lemma Forall_stable_insert (P : A -> Prop) x l :
  P x -> Forall P l -> Forall P (stable_insert comp x l).
Proof.
  intros Hx Hl. induction Hl as [|y l Hy Hl IH]; simpl.
  - constructor; [exact Hx | constructor].
  - destruct (comp y x); constructor; auto.
Qed.

Lemma stable_insert_sorted x l :
  StronglySorted not_after l -> StronglySorted not_after (stable_insert comp x l).
Proof.
  induction 1 as [|y l Hl IH Hy]; simpl.
  - constructor; constructor.
  - destruct (comp y x) eqn:E.
    + constructor; [exact IH|].
      apply Forall_stable_insert; [|exact Hy]. now apply comp_asym.
    + constructor; [now constructor|]. constructor; [exact E|].
      eapply Forall_impl; [exact Hy|].
      intros z Hz. now apply (not_after_trans x y z).
Qed.

Lemma stable_sort_sorted l : StronglySorted not_after (stable_sort comp l).
Proof.
  induction l as [|x l IH]; simpl; [constructor|].
  now apply stable_insert_sorted.
Qed.

Lemma stable_insert_perm x l : Permutation (x :: l) (stable_insert comp x l).
Proof.
  induction l as [|y l IH]; simpl; [reflexivity|].
  destruct (comp y x); [|reflexivity].
  rewrite perm_swap. now constructor.
Qed.

Lemma stable_sort_perm l : Permutation l (stable_sort comp l).
Proof.
  induction l as [|x l IH]; simpl; [reflexivity|].
  rewrite <- stable_insert_perm. now constructor.
Qed.

(** Sorting a sorted sequence leaves it as it is. *)
Lemma stable_sort_fixed l :
  StronglySorted not_after l -> stable_sort comp l = l.
Proof.
  induction 1 as [|x l Hl IH Hx]; simpl; [reflexivity|].
  rewrite IH. destruct Hx as [|y l Hy _]; simpl; [reflexivity|].
  unfold not_after in Hy. now rewrite Hy.
Qed.
End StableSortFacts.

Section GroupOrderFacts.

(** The place of a group's category in the precedence table. *)
Definition rank (g : Group) : option Z := map_find _maporder (group_prefix g).

(** The canonical order between two groups: by rank when both categories
    are known, known before unknown, and unknown categories in
    lexicographic order of their names. *)
Definition precedes_or_ties (a b : Group) : Prop :=
match rank a, rank b with
| Some x, Some y => x <= y
| Some _, None => True
| None, Some _ => False
| None, None => String.leb (group_prefix a) (group_prefix b) = true
end.

Definition canonical_order (groups : list Group) : Prop :=
StronglySorted precedes_or_ties groups.

Lemma string_compare_OT (a : string) :
  forall b, String.compare a b = String_as_OT.compare a b.
Proof.
  induction a as [|x a IH]; intros [|y b]; reflexivity.
Qed.

Lemma string_ltb_lt a b : String.ltb a b = true <-> String_as_OT.lt a b.
Proof.
  unfold String.ltb, String_as_OT.lt. rewrite string_compare_OT.
  destruct (String_as_OT.compare a b); split; congruence.
Qed.

Lemma string_ltb_asym a b : String.ltb a b = true -> String.ltb b a = false.
Proof.
  intros H. apply not_true_iff_false. intros H'.
  apply string_ltb_lt in H, H'.
  exact (StrictOrder_Irreflexive a (StrictOrder_Transitive a b a H H')).
Qed.

Lemma string_not_ltb_trans a b c :
  String.ltb b a = false -> String.ltb c b = false -> String.ltb c a = false.
Proof.
  intros Hba Hcb. apply not_true_iff_false. intros Hca.
  apply string_ltb_lt in Hca.
  destruct (String_as_OT.compare_spec b a) as [->|Hlt|Hlt].
  - apply string_ltb_lt in Hca. congruence.
  - apply string_ltb_lt in Hlt. congruence.
  - assert (String_as_OT.lt c b) as H
      by exact (StrictOrder_Transitive c a b Hca Hlt).
    apply string_ltb_lt in H. congruence.
Qed.

Lemma string_leb_not_ltb a b : String.leb a b = true <-> String.ltb b a = false.
Proof.
  unfold String.leb, String.ltb. rewrite (String.compare_antisym b a).
  destruct (String.compare a b); simpl; split; congruence.
Qed.

Lemma SortGroups_asym a b : SortGroups a b = true -> SortGroups b a = false.
Proof.
  unfold SortGroups.
  destruct (map_find _maporder (group_prefix a)) as [x|],
           (map_find _maporder (group_prefix b)) as [y|]; try congruence.
  - intros H. apply Z.ltb_lt in H. apply Z.ltb_ge. lia.
  - apply string_ltb_asym.
Qed.

Lemma SortGroups_not_after_trans a b c :
  not_after SortGroups a b -> not_after SortGroups b c ->
  not_after SortGroups a c.
Proof.
  unfold not_after, SortGroups.
  destruct (map_find _maporder (group_prefix a)) as [x|],
           (map_find _maporder (group_prefix b)) as [y|],
           (map_find _maporder (group_prefix c)) as [z|]; try congruence.
  - intros H1 H2. apply Z.ltb_ge in H1, H2. apply Z.ltb_ge. lia.
  - apply string_not_ltb_trans.
Qed.

Lemma not_after_precedes a b :
  not_after SortGroups a b <-> precedes_or_ties a b.
Proof.
  unfold not_after, SortGroups, precedes_or_ties, rank.
  destruct (map_find _maporder (group_prefix a)) as [x|],
           (map_find _maporder (group_prefix b)) as [y|].
  - rewrite Z.ltb_ge. reflexivity.
  - split; auto.
  - split; [discriminate | contradiction].
  - symmetry. apply string_leb_not_ltb.
Qed.

Lemma canonical_order_sorted groups :
  canonical_order groups <-> StronglySorted (not_after SortGroups) groups.
Proof.
  unfold canonical_order. split; intros H.
  - induction H as [|g l Hl IH Hg]; constructor; auto.
    eapply Forall_impl; [exact Hg|]. intros b. apply not_after_precedes.
  - induction H as [|g l Hl IH Hg]; constructor; auto.
    eapply Forall_impl; [exact Hg|]. intros b. apply not_after_precedes.
Qed.

Lemma stable_sort_canonical groups :
  canonical_order (stable_sort SortGroups groups).
Proof.
  apply canonical_order_sorted, stable_sort_sorted.
  - exact SortGroups_asym.
  - exact SortGroups_not_after_trans.
Qed.

(** *** The order in the words of the specification *)

(** The names of the precedence table, in order. *)
Definition known_categories : list string :=
[ "deltatime"; "joint_snaps"; "affine_snaps"; "joint_jerks"; "affine_jerks";
  "joint_accelerations"; "affine_accelerations"; "joint_velocities";
  "affine_velocities"; "joint_values"; "affine_transform"; "joint_torques" ]%string.

(** The place of a name in a list of names, counted from [0]. *)
Fixpoint place (c : string) (l : list string) : option Z :=
match l with
| [] => None
| x :: l' => if String.eqb x c then Some 0 else option_map Z.succ (place c l')
end.

(** The category of a group, as the specification words it: the part of
    the name before its first space, the whole name when it has none. *)
Definition is_category (g : Group) (c : string) : Prop :=
absent " " c
/\ (name g = c \/ exists rest, name g = String.append c (String " " rest)).

(** The order of the groups, as the specification words it, read off the
    categories alone: of two groups the earlier one has the category that
    comes first in the precedence table, or at the same place; a known
    category comes before an unknown one; two unknown categories are in
    lexicographic order. *)
Definition in_precedence_order (groups : list Group) : Prop :=
forall (i j : nat) (gi gj : Group) (ci cj : string),
  (i < j)%nat -> groups !! i = Some gi -> groups !! j = Some gj ->
  is_category gi ci -> is_category gj cj ->
  match place ci known_categories, place cj known_categories with
  | Some x, Some y => x <= y
  | Some _, None => True
  | None, Some _ => False
  | None, None => String.leb ci cj = true
  end.

(** The table of the constructor holds the known categories at their
    places, and nothing else. *)
Lemma maporder_place (c : string) :
  map_find _maporder c = place c known_categories.
Proof.
  unfold _maporder, known_categories. cbn [map_find place].
  repeat match goal with
         | |- context [String.eqb ?x c] => destruct (String.eqb x c); [reflexivity|]
         end.
  reflexivity.
Qed.

(** The cut that [SortGroups] makes in a name yields its category. *)
Lemma category_prefix (g : Group) (c : string) :
  is_category g c -> group_prefix g = c.
Proof.
  intros [Hc Hname]. unfold group_prefix, Str.substr.
  destruct Hname as [-> | [rest ->]].
  - apply find_first_of_None in Hc. rewrite Hc. apply substring_all.
  - rewrite (find_first_of_app c " " rest Hc). apply substring_app_l.
Qed.

(** Every group has a category. *)
Lemma group_has_category (g : Group) : exists c, is_category g c.
Proof.
  destruct (Str.find_first_of (name g) " ") as [i|] eqn:E.
  - apply find_first_of_Some in E. destruct E as (Hname & Habsent & _).
    exists (substring 0 i (name g)). split; [exact Habsent|].
    right. eexists. exact Hname.
  - exists (name g). split; [now apply find_first_of_None | now left].
Qed.

Lemma StronglySorted_lookup {A} (rel : A -> A -> Prop) (l : list A) :
  StronglySorted rel l ->
  forall (i j : nat) x y,
    (i < j)%nat -> l !! i = Some x -> l !! j = Some y -> rel x y.
Proof.
  induction 1 as [|a l Hl IH Ha]; intros i j x y Hij Hi Hj.
  - discriminate.
  - destruct j as [|j]; [lia|]. destruct i as [|i]; cbn in Hi, Hj.
    + inversion Hi; subst x.
      rewrite List.Forall_forall in Ha. apply Ha.
      apply list_elem_of_In. eapply list_elem_of_lookup_2. exact Hj.
    + apply (IH i j); [lia | exact Hi | exact Hj].
Qed.

Lemma canonical_in_precedence_order (groups : list Group) :
  canonical_order groups -> in_precedence_order groups.
Proof.
  intros Hsorted i j gi gj ci cj Hij Hi Hj Hci Hcj.
  pose proof (StronglySorted_lookup _ _ Hsorted i j gi gj Hij Hi Hj) as Hrel.
  unfold precedes_or_ties, rank in Hrel.
  rewrite (category_prefix gi ci Hci), (category_prefix gj cj Hcj) in Hrel.
  rewrite !maporder_place in Hrel. exact Hrel.
Qed.
End GroupOrderFacts.

Section InitFacts.
Context {core : RaveCore}.
Context {R : Type}.

Local Abbreviation Traj := (GenericTrajectory R).

Lemma Init_groups (spec : ConfigurationSpecification) (t : Traj) :
  _vgroups (_spec (Init spec t))
  = if _bInit t && spec_eqb (_spec t) spec then _vgroups (_spec t)
    else stable_sort SortGroups (_vgroups spec).
Proof.
  unfold Init. destruct (_bInit t && spec_eqb (_spec t) spec); reflexivity.
Qed.

Lemma Init_idempotent (spec : ConfigurationSpecification) (t : Traj) :
  Init spec (Init spec t) = Init spec t.
Proof.
  unfold Init.
  destruct (_bInit t && spec_eqb (_spec t) spec) eqn:E.
  - cbn [andb _bInit _spec]. apply andb_true_iff in E. destruct E as [_ E].
    rewrite E. reflexivity.
  - cbn [andb _bInit _spec]. clear E.
    match goal with
    | |- context [spec_eqb ?s spec] => destruct (spec_eqb s spec)
    end; reflexivity.
Qed.

(** C6 (as amended): after [Init] the groups of the specification are in
    the order of their categories, the category of a group being its name
    up to the first space: by the fixed precedence of the known categories
    ([deltatime], then snaps, jerks, accelerations, velocities, values and
    transform, torques, joint before affine), known categories before
    unknown ones, unknown ones in lexicographic order.  They are the groups
    of the argument, stably sorted, unless the trajectory was initialized
    with an equal specification, whose groups are then kept as they are
    (so the trajectory given to [Init] is any one that, if initialized, is
    in that order, which [Init] itself maintains).  Every [Init], also one
    with the same specification, empties the waypoint buffer and the time
    arrays, marks the trajectory as changed and as not verified; a second
    [Init] with the same specification changes nothing of what the first
    one left. *)
Theorem init_orders_groups (spec : ConfigurationSpecification) (t : Traj) :
  (_bInit t = true -> in_precedence_order (_vgroups (_spec t))) ->
  in_precedence_order (_vgroups (_spec (Init spec t)))
  /\ (forall g : Group, exists c, is_category g c)
  /\ (if _bInit t && spec_eqb (_spec t) spec
      then _vgroups (_spec (Init spec t)) = _vgroups (_spec t)
      else _vgroups (_spec (Init spec t)) = stable_sort SortGroups (_vgroups spec)
           /\ Permutation (_vgroups spec) (_vgroups (_spec (Init spec t))))
  /\ (_vtrajdata (Init spec t) = [] /\ _vaccumtime (Init spec t) = []
      /\ _vdeltainvtime (Init spec t) = [] /\ _bInit (Init spec t) = true
      /\ _bChanged (Init spec t) = true
      /\ _bSamplingVerified (Init spec t) = false)
  /\ Init spec (Init spec t) = Init spec t.
Proof.
  intros Hinv. split; [|split; [|split; [|split]]].
  - rewrite Init_groups.
    destruct (_bInit t && spec_eqb (_spec t) spec) eqn:E.
    + apply andb_true_iff in E. now apply Hinv.
    + apply canonical_in_precedence_order, stable_sort_canonical.
  - exact group_has_category.
  - rewrite Init_groups.
    destruct (_bInit t && spec_eqb (_spec t) spec); [reflexivity|].
    split; [reflexivity | apply stable_sort_perm].
  - unfold Init. repeat split.
  - apply Init_idempotent.
Qed.
End InitFacts.

Module InitExamples.
Import Ref.

(** Groups given out of order, with two categories outside the table. *)
Definition shuffled : ConfigurationSpecification :=
mkSpec [ group "outputSignals" 5 1 "previous";
         group "joint_values robot 0" 0 1 "linear";
         group "ikparam_values 4" 6 4 "linear";
         group "deltatime" 4 1 "";
         group "joint_velocities robot 0" 1 1 "next";
         group "affine_transform robot 7" 2 2 "linear" ].

Lemma shuffled_in_order :
  map name (_vgroups (_spec (Init shuffled empty)))
  = [ "deltatime"; "joint_velocities robot 0"; "joint_values robot 0";
      "affine_transform robot 7"; "ikparam_values 4"; "outputSignals" ]%string.
Proof. vm_compute. reflexivity. Qed.

Lemma init_orders_groups_witness :
  (_bInit empty = true -> in_precedence_order (_vgroups (_spec empty)))
  /\ in_precedence_order (_vgroups (_spec (Init shuffled empty)))
  /\ Init shuffled (Init shuffled empty) = Init shuffled empty.
Proof.
  assert (_bInit empty = true -> in_precedence_order (_vgroups (_spec empty)))
    as H by (intros H; vm_compute in H; discriminate).
  split; [exact H|].
  split; [exact (proj1 (init_orders_groups shuffled empty H))|].
  exact (proj2 (proj2 (proj2 (proj2 (init_orders_groups shuffled empty H))))).
Defined.

(** Time and a joint, in the order [Init] gives, and a trajectory of this
    specification that holds two waypoints. *)
Definition ordered : ConfigurationSpecification :=
mkSpec [ group "deltatime" 1 1 ""; group "joint_values robot 0" 0 1 "next" ].

Definition filled : Traj := make ordered [0; 0; 1; 1]%Q.

(** C6 as stated fails on a trajectory that holds waypoints: [Init] with
    the very specification the trajectory has does not leave it unchanged,
    it removes the waypoints. *)
Lemma reinit_clears_waypoints :
  _bInit filled = true
  /\ _spec filled = ordered /\ spec_eqb (_spec filled) ordered = true
  /\ GetNumWaypoints filled = 2
  /\ GetNumWaypoints (Init ordered filled) = 0
  /\ Init ordered filled <> filled.
Proof.
  split; [reflexivity|]. split; [reflexivity|]. split; [reflexivity|].
  split; [reflexivity|]. split; [reflexivity|].
  intros H. apply (f_equal (fun t => List.length (_vtrajdata t))) in H.
  vm_compute in H. discriminate.
Qed.
End InitExamples.

(** ** The binary format *)

Section BinFacts.
Import Bin.

Lemma length_bytes_of_uint n : forall v, List.length (bytes_of_uint n v) = n.
Proof. induction n as [|n IH]; intros v; simpl; [reflexivity | now rewrite IH]. Qed.

Lemma uint_of_bytes_of_uint n :
  forall v, uint_of_bytes (bytes_of_uint n v) = v mod 2 ^ (8 * Z.of_nat n).
Proof.
  induction n as [|n IH]; intros v.
  - cbn [bytes_of_uint uint_of_bytes]. change (2 ^ (8 * Z.of_nat 0)) with 1.
    symmetry. apply Z.mod_1_r.
  - cbn [bytes_of_uint uint_of_bytes]. rewrite IH.
    assert (0 <= v mod 256 < 256) as Hbyte by (apply Z.mod_pos_bound; lia).
    rewrite N_ascii_embedding by lia. rewrite Z2N.id by lia.
    replace (8 * Z.of_nat (S n)) with (8 + 8 * Z.of_nat n) by lia.
    rewrite Z.pow_add_r by lia. change (2 ^ 8) with 256.
    rewrite Z.rem_mul_r by lia. reflexivity.
Qed.

Lemma read_bytes_app (bs rest : stream) (n : Z) :
  vsize bs = n -> read_bytes n (bs ++ rest) = (bs, rest).
Proof.
  intros <-. unfold read_bytes, vsize. rewrite Nat2Z.id.
  rewrite firstn_app, firstn_all, Nat.sub_diag, skipn_app, skipn_all, Nat.sub_diag.
  rewrite firstn_O, skipn_O, !app_nil_r, Nat.sub_diag. simpl.
  now rewrite app_nil_r.
Qed.

Lemma vsize_bytes_of_uint n v : vsize (bytes_of_uint n v) = Z.of_nat n.
Proof. unfold vsize. now rewrite length_bytes_of_uint. Qed.

Lemma ReadBinaryUInt16_Write (v : Z) (rest : stream) :
  0 <= v < 2 ^ 16 ->
  ReadBinaryUInt16 (WriteBinaryUInt16 v ++ rest) = (v, rest).
Proof.
  intros Hv. unfold ReadBinaryUInt16, WriteBinaryUInt16.
  rewrite (read_bytes_app _ rest 2) by apply vsize_bytes_of_uint.
  rewrite uint_of_bytes_of_uint. now rewrite Z.mod_small by lia.
Qed.

Lemma ReadBinaryUInt32_Write (v : Z) (rest : stream) :
  0 <= v < 2 ^ 32 ->
  ReadBinaryUInt32 (WriteBinaryUInt32 v ++ rest) = (v, rest).
Proof.
  intros Hv. unfold ReadBinaryUInt32, WriteBinaryUInt32.
  rewrite (read_bytes_app _ rest 4) by apply vsize_bytes_of_uint.
  rewrite uint_of_bytes_of_uint. now rewrite Z.mod_small by lia.
Qed.

Lemma ReadBinaryInt_Write (v : Z) (rest : stream) :
  - 2 ^ 31 <= v < 2 ^ 31 ->
  ReadBinaryInt (WriteBinaryInt v ++ rest) = (v, rest).
Proof.
  intros Hv. unfold ReadBinaryInt, WriteBinaryInt.
  rewrite (read_bytes_app _ rest 4) by apply vsize_bytes_of_uint.
  rewrite uint_of_bytes_of_uint. f_equal.
  unfold to_int, to_uint32. change (8 * Z.of_nat 4) with 32.
  rewrite Z.mod_mod by lia.
  destruct (Z_lt_le_dec v 0) as [Hneg|Hpos].
  - rewrite <- (Z.mod_add v 1 (2 ^ 32)) by lia.
    rewrite (Z.mod_small (v + 1 * 2 ^ 32)) by lia.
    rewrite <- (Z.mod_add _ (-1) (2 ^ 32)) by lia.
    rewrite Z.mod_small by lia. lia.
  - rewrite (Z.mod_small v) by lia. rewrite Z.mod_small by lia. lia.
Qed.

Lemma length_list_ascii_of_string (s : string) :
  List.length (list_ascii_of_string s) = String.length s.
Proof. induction s as [|a s IH]; simpl; [reflexivity | now rewrite IH]. Qed.

(** A string of at most 65535 bytes is written, and read back. *)
Lemma ReadBinaryString_Write (s : string) :
  Str.size s < 2 ^ 16 ->
  exists bs, WriteBinaryString s = Ok bs
    /\ forall rest, ReadBinaryString (bs ++ rest) = (s, rest).
Proof.
  intros Hs. unfold WriteBinaryString.
  assert (0 <= Str.size s) as Hnonneg by (unfold Str.size; lia).
  replace (Str.size s <=? 65535) with true by (symmetry; apply Z.leb_le; lia).
  cbn [BOOST_ASSERT bind]. rewrite to_uint16_small by lia.
  eexists. split; [reflexivity|]. intros rest.
  unfold ReadBinaryString. rewrite <- app_assoc.
  rewrite ReadBinaryUInt16_Write by lia.
  destruct (Str.size s >? 0) eqn:E.
  - assert (firstn (Z.to_nat (Str.size s)) (list_ascii_of_string s)
            = list_ascii_of_string s) as ->.
    { apply firstn_all2. rewrite length_list_ascii_of_string.
      unfold Str.size. lia. }
    rewrite (read_bytes_app _ rest (Str.size s))
      by (unfold vsize, Str.size; now rewrite length_list_ascii_of_string).
    now rewrite string_of_list_ascii_of_string.
  - assert (Str.size s = 0) as H0
      by (rewrite Z.gtb_ltb in E; apply Z.ltb_ge in E; lia).
    destruct s; [reflexivity | unfold Str.size in H0; simpl in H0; lia].
Qed.
End BinFacts.

Section SerializerFacts.
Context {core : RaveCore}.
Context {layout : DRealLayout}.
Context {R : Type} {readables : Readables R}.
Import Bin.

Local Abbreviation Traj := (GenericTrajectory R).

(** The scalar that comes back from the memory image of [x]. *)
Definition reread (x : dReal) : dReal := dReal_of_bytes (dReal_bytes x).

Lemma reread_bitwise (x : dReal) : dReal_bytes (reread x) = dReal_bytes x.
Proof. unfold reread. apply dReal_bytes_of_bytes, dReal_bytes_length. Qed.

Lemma vsize_images (v : list dReal) :
  vsize (concat (map dReal_bytes v)) = vsize v * sizeof_dReal.
Proof.
  induction v as [|x v IH].
  - reflexivity.
  - cbn [map concat]. rewrite vsize_app, IH, dReal_bytes_length.
    unfold vsize. simpl. lia.
Qed.

Lemma scalars_of_images (v : list dReal) :
  scalars_of_bytes (List.length v) (concat (map dReal_bytes v)) = map reread v.
Proof.
  induction v as [|x v IH]; [reflexivity|].
  cbn [List.length scalars_of_bytes map concat].
  pose proof (dReal_bytes_length x) as Hlen. unfold vsize in Hlen.
  assert (Z.to_nat sizeof_dReal = List.length (dReal_bytes x)) as -> by lia.
  rewrite firstn_app, firstn_all, Nat.sub_diag, firstn_O, app_nil_r.
  rewrite skipn_app, skipn_all, Nat.sub_diag, skipn_O. simpl.
  now rewrite IH.
Qed.

Lemma ReadBinaryVector_Write (v : list dReal) (rest : stream) :
  vsize v < 2 ^ 32 ->
  ReadBinaryVector (WriteBinaryVector v ++ rest) = (map reread v, rest).
Proof.
  intros Hv. pose proof (vsize_nonneg v) as Hnonneg.
  unfold ReadBinaryVector, WriteBinaryVector.
  rewrite to_uint32_small by lia. rewrite <- app_assoc.
  rewrite ReadBinaryUInt32_Write by lia.
  assert (firstn (Z.to_nat (vsize v)) v = v) as ->
    by (apply firstn_all2; unfold vsize; lia).
  rewrite (read_bytes_app _ rest) by apply vsize_images.
  unfold vsize at 1. rewrite Nat2Z.id. now rewrite scalars_of_images.
Qed.

Lemma write_all_cons {A} (w : A -> Result stream) (x : A) (l : list A) :
  write_all w (x :: l)
  = bind (w x) (fun a => bind (write_all w l) (fun b => Ok (a ++ b))).
Proof. reflexivity. Qed.

(** The fields of a group fit the format. *)
Definition group_fits (g : Group) : Prop :=
Str.size (name g) < 2 ^ 16 /\ Str.size (interpolation g) < 2 ^ 16
/\ - 2 ^ 31 <= offset g < 2 ^ 31 /\ - 2 ^ 31 <= dof g < 2 ^ 31.

Lemma read_groups_write (groups : list Group) :
  Forall group_fits groups ->
  exists bs, write_all write_group groups = Ok bs
    /\ forall rest, read_groups (List.length groups) (bs ++ rest) = (groups, rest).
Proof.
  induction 1 as [|g groups (Hn & Hi & Ho & Hd) Hgroups
                    (bs & Hbs & Hread)].
  - exists []. split; [reflexivity|]. intros rest. reflexivity.
  - destruct (ReadBinaryString_Write (name g) Hn) as (nb & Hnb & Hnread).
    destruct (ReadBinaryString_Write (interpolation g) Hi) as (ib & Hib & Hiread).
    rewrite write_all_cons, Hbs. unfold write_group. rewrite Hnb, Hib. cbn [bind].
    eexists. split; [reflexivity|]. intros rest.
    cbn [List.length read_groups]. rewrite <- !app_assoc.
    rewrite Hnread, ReadBinaryInt_Write, ReadBinaryInt_Write, Hiread, Hread
      by assumption.
    now destruct g.
Qed.

(** What the deserializer stores for an annotation written from [r]. *)
Definition stored (options : Z) (id : string) (r : R) : option R :=
read_readable BINARY_TRAJECTORY_VERSION_NUMBER id
  (fst (readable_payload options r)) (snd (readable_payload options r)).

(** The id and the payload of an annotation fit the format. *)
Definition readable_fits (options : Z) (id : string) (r : R) : Prop :=
Str.size id < 2 ^ 16 /\ Str.size (fst (readable_payload options r)) < 2 ^ 16.

Lemma readable_tag (options : Z) (r : R) :
  snd (readable_payload options r) = "StringReadable"%string
  \/ snd (readable_payload options r) = "HierarchicalXMLReadable"%string.
Proof.
  unfold readable_payload.
  destruct (SerializeJSON r); [now left|].
  destruct (is_HierarchicalXMLReadable r); [now right|].
  destruct (SerializeXML r); now left.
Qed.

Definition store_entry (options : Z) (m : gmap string R) (entry : string * R)
  : gmap string R :=
SetReadableInterface (fst entry) (stored options (fst entry) (snd entry)) m.

Lemma read_readables_write (options : Z) (l : list (string * R)) :
  Forall (fun entry => readable_fits options (fst entry) (snd entry)) l ->
  exists bs, write_all (write_readable options) l = Ok bs
    /\ forall rest m,
         read_readables BINARY_TRAJECTORY_VERSION_NUMBER (List.length l)
           (bs ++ rest) m
         = (fold_left (store_entry options) l m, rest).
Proof.
  induction 1 as [|[id r] l (Hid & Hpayload) Hl (bs & Hbs & Hread)].
  - exists []. split; [reflexivity|]. intros rest m. reflexivity.
  - pose proof (readable_tag options r) as Htag.
    rewrite write_all_cons, Hbs. unfold write_readable.
    cbn [List.length read_readables fold_left].
    unfold store_entry at 2, stored. cbn [fst snd] in *.
    destruct (readable_payload options r) as [payload tag]. cbn [fst snd] in *.
    destruct (ReadBinaryString_Write id Hid) as (ib & Hib & Hiread).
    destruct (ReadBinaryString_Write payload Hpayload) as (pb & Hpb & Hpread).
    assert (Str.size tag < 2 ^ 16) as Htagsize
      by (destruct Htag as [-> | ->]; reflexivity).
    destruct (ReadBinaryString_Write tag Htagsize) as (tb & Htb & Htread).
    rewrite Hib, Hpb, Htb. cbn [bind].
    eexists. split; [reflexivity|]. intros rest m.
    rewrite <- !app_assoc. rewrite Hiread, Hpread.
    change (BINARY_TRAJECTORY_VERSION_NUMBER >=? 3) with true.
    cbn iota. rewrite Htread, Hread. reflexivity.
Qed.

Lemma store_entries_elsewhere (options : Z) (l : list (string * R)) :
  forall (m : gmap string R) (i : string),
  i ∉ l.*1 -> fold_left (store_entry options) l m !! i = m !! i.
Proof.
  induction l as [|[k r] l IH]; intros m i Hi; [reflexivity|].
  cbn [fold_left]. apply not_elem_of_cons in Hi. destruct Hi as [Hik Hi].
  rewrite IH by exact Hi. unfold store_entry, SetReadableInterface. cbn [fst snd].
  destruct (stored options k r).
  - now rewrite lookup_insert_ne.
  - now rewrite lookup_delete_ne.
Qed.

Lemma store_entries_at (options : Z) (l : list (string * R)) :
  forall (m : gmap string R) (i : string) (r : R),
  NoDup l.*1 -> (i, r) ∈ l ->
  fold_left (store_entry options) l m !! i = stored options i r.
Proof.
  induction l as [|[k r'] l IH]; intros m i r Hnodup Hin.
  - now apply elem_of_nil in Hin.
  - cbn [fmap list_fmap fst] in Hnodup. apply NoDup_cons in Hnodup.
    destruct Hnodup as [Hk Hnodup]. cbn [fold_left].
    apply elem_of_cons in Hin. destruct Hin as [Heq|Hin].
    + inversion Heq; subst k r'. rewrite store_entries_elsewhere by exact Hk.
      unfold store_entry, SetReadableInterface. cbn [fst snd].
      destruct (stored options i r).
      * now rewrite lookup_insert_eq.
      * now rewrite lookup_delete_eq.
    + now apply IH.
Qed.

(** Storing the entries of a map one by one, in any order, builds its
    image. *)
Lemma store_entries_map (options : Z) (m : gmap string R)
    (l : list (string * R)) :
  Permutation (map_to_list m) l ->
  fold_left (store_entry options) l ∅ = map_imap (stored options) m.
Proof.
  intros Hperm. apply map_eq. intros i. rewrite map_lookup_imap.
  destruct (m !! i) as [r|] eqn:E; cbn [mbind option_bind].
  - apply store_entries_at.
    + rewrite <- Hperm. apply NoDup_fst_map_to_list.
    + rewrite <- Hperm. now apply elem_of_map_to_list.
  - rewrite store_entries_elsewhere; [apply lookup_empty|].
    intros Hin. apply list_elem_of_fmap in Hin.
    destruct Hin as ([k r] & -> & Hin). rewrite <- Hperm in Hin.
    apply elem_of_map_to_list in Hin.
    cbn [fst] in E. congruence.
Qed.

Lemma GetReadableInterfaces_entries (t : Traj) :
  Permutation (map_to_list (__mapReadableInterfaces t)) (GetReadableInterfaces t).
Proof. apply stable_sort_perm. Qed.

Lemma stream_has_header (v : Z) (rest : stream) :
  (vsize (WriteBinaryUInt16 v ++ rest) <? 2) = false.
Proof.
  apply Z.ltb_ge. rewrite vsize_app. unfold WriteBinaryUInt16.
  rewrite vsize_bytes_of_uint. pose proof (vsize_nonneg rest). lia.
Qed.

(** The trajectory fits the binary format: counts and string lengths in
    16 bits, the number of values in 32 bits, group fields in [int]. *)
Definition fits_format (options : Z) (t : Traj) : Prop :=
vsize (_vgroups (_spec t)) < 2 ^ 16
/\ Forall group_fits (_vgroups (_spec t))
/\ vsize (_vtrajdata t) < 2 ^ 32
/\ Str.size (__description t) < 2 ^ 16
/\ Z.of_nat (size (__mapReadableInterfaces t)) < 2 ^ 16
/\ map_Forall (readable_fits options) (__mapReadableInterfaces t).

Lemma Init_fresh_spec (groups : list Group) (t : Traj) :
  canonical_order groups ->
  _spec (Init (mkSpec groups) (uninitialized t)) = mkSpec groups.
Proof.
  intros Hcanon. unfold Init, uninitialized. cbn [_bInit andb _spec _vgroups].
  f_equal. apply (stable_sort_fixed SortGroups).
  now apply canonical_order_sorted.
Qed.

(** C2 (as amended): for a trajectory in the canonical group order of
    [Init] that fits the binary format, serializing in binary mode
    succeeds, and deserializing the stream into any trajectory object
    yields a trajectory with the same specification, a waypoint buffer
    with the same memory image value by value, the same description, and
    for each annotation id the annotation rebuilt from the payload that
    was written for it: a string annotation with that id and payload for
    every payload tagged as a string. *)
Theorem binary_round_trip (options : Z) (t t0 : Traj) :
  Z.land options TSO_SerializeAsXML = 0 ->
  canonical_order (_vgroups (_spec t)) ->
  fits_format options t ->
  exists bytes t',
    serialize t options = Ok bytes
    /\ deserialize bytes t0 = Ok t'
    /\ _spec t' = _spec t
    /\ map dReal_bytes (_vtrajdata t') = map dReal_bytes (_vtrajdata t)
    /\ __description t' = __description t
    /\ __mapReadableInterfaces t'
       = map_imap (stored options) (__mapReadableInterfaces t)
    /\ forall id r,
         __mapReadableInterfaces t !! id = Some r ->
         snd (readable_payload options r) = "StringReadable"%string ->
         __mapReadableInterfaces t' !! id
         = Some (StringReadable id (fst (readable_payload options r))).
Proof.
  intros Hbinary Hcanon (Hcount & Hgroups & Hvalues & Hdesc & Hreadables & Hentries).
  pose proof (vsize_nonneg (_vgroups (_spec t))) as Hcount0.
  destruct (read_groups_write _ Hgroups) as (gb & Hgb & Hgread).
  destruct (ReadBinaryString_Write _ Hdesc) as (db & Hdb & Hdread).
  pose proof (GetReadableInterfaces_entries t) as Hperm.
  assert (Forall (fun entry => readable_fits options (fst entry) (snd entry))
                 (GetReadableInterfaces t)) as Hlist.
  { apply (Permutation_Forall Hperm).
    apply map_Forall_to_list in Hentries.
    eapply Forall_impl; [exact Hentries|]. now intros [id r]. }
  destruct (read_readables_write options _ Hlist) as (rb & Hrb & Hrread).
  specialize (Hrread [] ∅).
  rewrite app_nil_r, <- (Permutation_length Hperm), length_map_to_list in Hrread.
  unfold serialize. rewrite Hbinary. cbn [Z.eqb negb].
  unfold serialize_binary. rewrite Hgb, Hdb, Hrb. cbn [bind].
  rewrite !to_uint16_small by lia.
  eexists. eexists. split; [reflexivity|].
  unfold deserialize.
  rewrite stream_has_header.
  rewrite ReadBinaryUInt16_Write by (unfold BINARY_TRAJECTORY_MAGIC_NUMBER; lia).
  rewrite Z.eqb_refl.
  rewrite ReadBinaryUInt16_Write by (unfold BINARY_TRAJECTORY_VERSION_NUMBER; lia).
  change ((BINARY_TRAJECTORY_VERSION_NUMBER >? BINARY_TRAJECTORY_VERSION_NUMBER)
          || (BINARY_TRAJECTORY_VERSION_NUMBER <? 1)) with false.
  cbn iota. rewrite ReadBinaryUInt16_Write by lia.
  unfold vsize at 1. rewrite Nat2Z.id, Hgread.
  rewrite ReadBinaryVector_Write by exact Hvalues. rewrite Hdread.
  change (BINARY_TRAJECTORY_VERSION_NUMBER >=? 2) with true. cbn iota.
  rewrite ReadBinaryUInt16_Write by lia. rewrite Nat2Z.id, Hrread.
  split; [reflexivity|]. cbn [with_contents _spec _vtrajdata __description
                             __mapReadableInterfaces].
  split; [|split; [|split; [reflexivity|split]]].
  - rewrite Init_fresh_spec by exact Hcanon. now destruct (_spec t).
  - rewrite map_map. apply map_ext. intros x. apply reread_bitwise.
  - now apply store_entries_map.
  - intros id r Hid Htag.
    rewrite (store_entries_map options _ _ Hperm), map_lookup_imap, Hid.
    cbn [mbind option_bind]. unfold stored, read_readable. rewrite Htag.
    reflexivity.
Qed.
End SerializerFacts.

Module SerializerExamples.
Import Ref Bin.

(** A memory image for the examples: eight bytes holding the integer part
    of the scalar as an unsigned number.  Every block of eight bytes is the
    image of the scalar read from it. *)
Definition image (x : dReal) : list ascii := bytes_of_uint 8 (Qfloor x).
Definition scalar (bs : list ascii) : dReal := inject_Z (uint_of_bytes bs).

Lemma bytes_of_uint_of_bytes (bs : list ascii) :
  bytes_of_uint (List.length bs) (uint_of_bytes bs) = bs.
Proof.
  induction bs as [|b bs IH]; [reflexivity|].
  cbn [List.length bytes_of_uint uint_of_bytes].
  assert (0 <= Z.of_N (N_of_ascii b) < 256) as Hb.
  { pose proof (N_ascii_bounded b). lia. }
  replace (Z.of_N (N_of_ascii b) + 256 * uint_of_bytes bs)
    with (Z.of_N (N_of_ascii b) + uint_of_bytes bs * 256) by lia.
  rewrite Z.mod_add, Z.div_add by lia.
  rewrite Z.mod_small, Z.div_small by lia.
  rewrite N2Z.id, ascii_N_embedding, Z.add_0_l, IH. reflexivity.
Qed.

Lemma image_of_scalar (bs : list ascii) :
  vsize bs = 8 -> image (scalar bs) = bs.
Proof.
  intros H. unfold image, scalar. rewrite Qfloor_Z.
  replace 8%nat with (List.length bs) by (unfold vsize in H; lia).
  apply bytes_of_uint_of_bytes.
Qed.

#[export] Instance layout : DRealLayout := {
  sizeof_dReal := 8;
  dReal_bytes := image;
  dReal_of_bytes := scalar;
  sizeof_dReal_pos := eq_refl;
  dReal_bytes_length := fun x => vsize_bytes_of_uint 8 (Qfloor x);
  dReal_bytes_of_bytes := image_of_scalar
}.

(** Two waypoints, a description and one annotation. *)
Definition annotated : Traj :=
with_contents (make spec_linear [0; 0; 0; 1; 2; 5]%Q)
  [0; 0; 0; 1; 2; 5]%Q "t" {[ "x"%string := "p"%string ]}.

(** The same trajectory with a description of 65536 characters. *)
Definition verbose : Traj :=
with_contents (make spec_linear [0; 0; 0; 1; 2; 5]%Q)
  [0; 0; 0; 1; 2; 5]%Q (string_of_list_ascii (repeat "a"%char (Z.to_nat 65536))) ∅.

Lemma annotated_canonical : canonical_order (_vgroups (_spec annotated)).
Proof.
  change (canonical_order (stable_sort SortGroups (_vgroups spec_linear))).
  apply stable_sort_canonical.
Qed.

Lemma annotated_fits : fits_format 0 annotated.
Proof.
  split; [vm_compute; reflexivity|].
  split; [repeat constructor; vm_compute; congruence|].
  split; [vm_compute; reflexivity|].
  split; [vm_compute; reflexivity|].
  split; [vm_compute; reflexivity|].
  intros id r H.
  change (({[ "x"%string := "p"%string ]} : gmap string string) !! id = Some r) in H.
  apply lookup_singleton_Some in H. destruct H as [<- <-].
  split; vm_compute; reflexivity.
Qed.

Lemma binary_round_trip_witness :
  Z.land 0 TSO_SerializeAsXML = 0
  /\ canonical_order (_vgroups (_spec annotated))
  /\ fits_format 0 annotated
  /\ exists bytes t',
       serialize annotated 0 = Ok bytes
       /\ deserialize bytes empty = Ok t'
       /\ _spec t' = _spec annotated
       /\ map dReal_bytes (_vtrajdata t') = map dReal_bytes (_vtrajdata annotated)
       /\ __description t' = __description annotated
       /\ __mapReadableInterfaces t'
          = map_imap (stored 0) (__mapReadableInterfaces annotated)
       /\ forall id r,
            __mapReadableInterfaces annotated !! id = Some r ->
            snd (readable_payload 0 r) = "StringReadable"%string ->
            __mapReadableInterfaces t' !! id
            = Some (StringReadable id (fst (readable_payload 0 r))).
Proof.
  split; [reflexivity|]. split; [exact annotated_canonical|].
  split; [exact annotated_fits|].
  exact (binary_round_trip 0 annotated empty eq_refl annotated_canonical
           annotated_fits).
Defined.

(** C2 as stated fails on a trajectory whose description is longer than
    65535 bytes: it is in the canonical order of [Init], and its binary
    serialization raises the assertion of [WriteBinaryString] instead of
    producing a stream. *)
Lemma long_description_is_not_serialized :
  _bInit verbose = true
  /\ canonical_order (_vgroups (_spec verbose))
  /\ Str.size (__description verbose) = 65536
  /\ serialize verbose 0
     = Err (openrave_exception
              (MsgAssertion "s.length() <= std::numeric_limits<uint16_t>::max()")
              ORE_Assert).
Proof.
  split; [reflexivity|]. split; [exact annotated_canonical|].
  split; vm_compute; reflexivity.
Qed.
End SerializerExamples.

(** * Further properties *)

(** ** The URI helpers *)

Section URIFacts.
Import URI.
Local Open Scope string_scope.

Ltac simpl_string := rewrite ?string_app_cons, ?string_app_nil_l; simpl.
Ltac simpl_string_all :=
  rewrite ?string_app_cons, ?string_app_nil_l in *; simpl in *.

(** The character [c] does not occur in [s]: a search for it finds
    nothing. *)
Definition lacks (c : ascii) (s : string) : Prop := Str.find_first_of s c = None.

Lemma lacks_absent c s : lacks c s <-> absent c s.
Proof. apply find_first_of_None. Qed.

(** X1: [_EndsWith] holds exactly when the second string is a suffix of
    the first, the empty string included. *)
Theorem EndsWith_iff_suffix (fullString endString : string) :
  _EndsWith fullString endString = true
  <-> exists prefix, fullString = prefix ++ endString.
Proof.
  unfold _EndsWith, Str.substr. split.
  - destruct (Nat.leb_spec (String.length endString) (String.length fullString))
      as [Hle|Hgt]; [|discriminate].
    intros H. apply String.eqb_eq in H.
    exists (substring 0 (String.length fullString - String.length endString) fullString).
    rewrite <- H at 2.
    rewrite (substring_split fullString
               (String.length fullString - String.length endString)) at 1 by lia.
    do 2 f_equal. lia.
  - intros [prefix ->]. rewrite string_length_app.
    replace (String.length endString <=? String.length prefix + String.length endString)%nat
      with true by (symmetry; apply Nat.leb_le; lia).
    replace (String.length prefix + String.length endString - String.length endString)%nat
      with (String.length prefix) by lia.
    rewrite substring_app_r by reflexivity. apply String.eqb_refl.
Qed.


Lemma string_app_assoc a b c : (a ++ b) ++ c = a ++ b ++ c.
Proof. induction a as [|x a IH]; simpl_string; [reflexivity | now rewrite IH]. Qed.

Lemma string_app_nil a : a ++ "" = a.
Proof. induction a as [|x a IH]; simpl_string; [reflexivity | now rewrite IH]. Qed.

Lemma substring_after a c b n :
  n = String.length b -> substring (String.length a + 1) n (a ++ String c b) = b.
Proof.
  intros ->. induction a as [|x a IH]; cbn [String.length Nat.add String.append substring].
  - apply substring_all.
  - exact IH.
Qed.

Lemma substr_from_after a c b :
  Str.substr_from (a ++ String c b) (String.length a + 1) = b.
Proof.
  unfold Str.substr_from. apply substring_after. rewrite string_length_app. simpl_string. lia.
Qed.

(** X2: [_GetPath] removes the last hash of the uri and what follows it, and
    nothing else: a uri without a hash is returned as it is. *)
Theorem GetPath_strips_fragment (uri : string) :
  (lacks "#" uri /\ _GetPath uri = uri)
  \/ (exists fragment, lacks "#" fragment
                       /\ uri = _GetPath uri ++ String "#" fragment).
Proof.
  unfold _GetPath, Str.substr. destruct (find_last_of uri "#") as [i|] eqn:E.
  - right. destruct (find_last_of_Some _ _ _ E) as (Hs & Hl & _).
    eexists. split; [apply lacks_absent; exact Hl | exact Hs].
  - left. split; [now apply lacks_absent, find_last_of_None | reflexivity].
Qed.

(** What [ParseURI] does in terms of [_GetPath]: the text before the
    fragment is cut at its first colon. *)
Lemma ParseURI_GetPath (uri s0 f0 : string) :
  fst (ParseURI uri s0 f0)
  = match Str.find_first_of (_GetPath uri) ":" with
    | Some colonindex =>
        (Str.substr (_GetPath uri) 0 colonindex,
         Str.substr_from (_GetPath uri) (colonindex + 1))
    | None => (s0, _GetPath uri)
    end.
Proof.
  unfold ParseURI, _GetPath. destruct (find_last_of uri "#");
    match goal with
    | |- context [Str.find_first_of ?p ":"] => destruct (Str.find_first_of p ":")
    end; reflexivity.
Qed.

(** X3: parsing a composed uri gives back its parts: the scheme ends at the
    first colon, the fragment starts after the last hash. *)
Theorem ParseURI_of_composed (scheme path fragment s0 f0 : string) :
  lacks ":" scheme -> lacks "#" scheme -> lacks "#" path -> lacks "#" fragment ->
  ParseURI (scheme ++ String ":" path ++ String "#" fragment) s0 f0
  = (scheme, path, fragment).
Proof.
  intros Hcolon Hs Hp Hf. apply lacks_absent in Hcolon, Hs, Hp, Hf.
  unfold ParseURI.
  rewrite <- string_app_assoc.
  rewrite find_last_of_app by exact Hf. unfold Str.substr.
  rewrite substring_app_l, substr_from_after.
  rewrite find_first_of_app by exact Hcolon.
  rewrite substring_app_l, substr_from_after. reflexivity.
Qed.

(** X4: every uri is its path, possibly preceded by the scheme and a colon and
    possibly followed by a hash and the fragment; a part that is absent
    leaves the caller's value in place. *)
Theorem ParseURI_parts (uri s0 f0 : string) :
  exists scheme path fragment pre suf,
    ParseURI uri s0 f0 = (scheme, path, fragment)
    /\ uri = pre ++ path ++ suf
    /\ ((pre = "" /\ scheme = s0 /\ lacks ":" path)
        \/ (pre = scheme ++ ":" /\ lacks ":" scheme))
    /\ ((suf = "" /\ fragment = f0 /\ lacks "#" uri)
        \/ (suf = String "#" fragment /\ lacks "#" fragment)).
Proof.
  pose proof string_app_assoc as Hassoc. pose proof string_app_nil as Hnil.
  setoid_rewrite lacks_absent. unfold ParseURI, Str.substr.
  destruct (find_last_of uri "#") as [i|] eqn:Ehash.
  - destruct (find_last_of_Some _ _ _ Ehash) as (Hs & Hl & _).
    fold (Str.substr_from uri (i + 1)) in *.
    destruct (Str.find_first_of (substring 0 i uri) ":") as [k|] eqn:Ecolon.
    + destruct (find_first_of_Some _ _ _ Ecolon) as (Hs' & Hl' & _).
      fold (Str.substr_from (substring 0 i uri) (k + 1)) in *.
      do 3 eexists.
      exists (substring 0 k (substring 0 i uri) ++ ":"),
             (String "#" (Str.substr_from uri (i + 1))).
      split; [reflexivity|]. split.
      * rewrite Hs at 1. rewrite Hs' at 1. rewrite !Hassoc. reflexivity.
      * split; [right; split; [reflexivity | exact Hl']
               | right; split; [reflexivity | exact Hl]].
    + do 3 eexists. exists "", (String "#" (Str.substr_from uri (i + 1))).
      split; [reflexivity|]. split; [exact Hs|].
      split; [left; repeat split; now apply find_first_of_None
             | right; split; [reflexivity | exact Hl]].
  - apply find_last_of_None in Ehash.
    destruct (Str.find_first_of uri ":") as [k|] eqn:Ecolon.
    + destruct (find_first_of_Some _ _ _ Ecolon) as (Hs' & Hl' & _).
      fold (Str.substr_from uri (k + 1)) in *.
      do 3 eexists. exists (substring 0 k uri ++ ":"), "".
      split; [reflexivity|]. split.
      * rewrite Hnil, Hassoc. exact Hs'.
      * split; [right; split; [reflexivity | exact Hl']
               | left; repeat split; exact Ehash].
    + do 3 eexists. exists "", "". split; [reflexivity|]. split.
      * now rewrite Hnil.
      * split; [left; repeat split; now apply find_first_of_None
               | left; repeat split; exact Ehash].
Qed.

Section ResolveFacts.
Variable RaveFindLocalFile : string -> string -> string.

Lemma ResolveURI_by_scheme (uri scheme path curdir : string) aliases :
  _GetPath uri = scheme ++ String ":" path -> lacks ":" scheme ->
  ResolveURI RaveFindLocalFile uri curdir aliases
  = ResolveURI_scheme RaveFindLocalFile scheme path curdir aliases.
Proof.
  intros Hpath Hscheme. apply lacks_absent in Hscheme. unfold ResolveURI.
  pose proof (ParseURI_GetPath uri "" "") as H.
  rewrite Hpath, find_first_of_app in H by exact Hscheme.
  unfold Str.substr in H. rewrite substring_app_l, substr_from_after in H.
  destruct (ParseURI uri "" "") as [[s p] f]. simpl in H. inversion H.
  reflexivity.
Qed.

(** X5: a uri whose scheme is [file], or one of the aliases, resolves to what
    [RaveFindLocalFile] finds for its path; the fragment plays no part. *)
Theorem ResolveURI_local_file (uri scheme path curdir : string) aliases :
  _GetPath uri = scheme ++ String ":" path -> lacks ":" scheme ->
  scheme = "file" \/ (In scheme aliases /\ (scheme <> "" \/ path <> "")) ->
  ResolveURI RaveFindLocalFile uri curdir aliases = RaveFindLocalFile path curdir.
Proof.
  intros Hpath Hscheme Hknown.
  rewrite (ResolveURI_by_scheme uri scheme path) by assumption.
  unfold ResolveURI_scheme. destruct Hknown as [-> | [Hin Hne]]; [reflexivity|].
  replace (String.eqb scheme "" && String.eqb path "") with false.
  2:{ symmetry. apply andb_false_iff.
      destruct Hne as [Hne|Hne]; [left | right]; now apply String.eqb_neq. }
  destruct (String.eqb scheme "file"); [reflexivity|].
  replace (existsb (String.eqb scheme) aliases) with true; [reflexivity|].
  symmetry. apply existsb_exists. exists scheme. split; [exact Hin|].
  apply String.eqb_refl.
Qed.

(** X6: a uri with a scheme that is neither [file] nor an alias resolves to
    the empty string, and so does a uri without a colon before its
    fragment (a plain file name) unless the empty scheme is an alias. *)
Theorem ResolveURI_unknown_scheme (uri curdir : string) aliases :
  (lacks ":" (_GetPath uri) /\ ~ In "" aliases)
  \/ (exists scheme path,
        _GetPath uri = scheme ++ String ":" path /\ lacks ":" scheme
        /\ scheme <> "file" /\ ~ In scheme aliases) ->
  ResolveURI RaveFindLocalFile uri curdir aliases = "".
Proof.
  assert (forall scheme path, scheme <> "file" -> ~ In scheme aliases ->
          ResolveURI_scheme RaveFindLocalFile scheme path curdir aliases = "")
    as Hunknown.
  { intros scheme path Hfile Hin. unfold ResolveURI_scheme.
    destruct (String.eqb scheme "" && String.eqb path ""); [reflexivity|].
    replace (String.eqb scheme "file") with false
      by (symmetry; now apply String.eqb_neq).
    replace (existsb (String.eqb scheme) aliases) with false; [reflexivity|].
    symmetry. apply not_true_is_false. intros H. apply existsb_exists in H.
    destruct H as (x & Hx & Heq). apply String.eqb_eq in Heq. now subst x. }
  intros [[Hplain Hin] | (scheme & path & Hpath & Hscheme & Hfile & Hin)].
  - unfold ResolveURI. pose proof (ParseURI_GetPath uri "" "") as H.
    unfold lacks in Hplain. rewrite Hplain in H.
    destruct (ParseURI uri "" "") as [[s p] f]. simpl in H. inversion H.
    apply Hunknown; [discriminate | exact Hin].
  - rewrite (ResolveURI_by_scheme uri scheme path) by assumption.
    now apply Hunknown.
Qed.
End ResolveFacts.

End URIFacts.

Module URIExamples.
Import URI.
Local Open Scope string_scope.

(** A stand-in for the file search: the file below the directory. *)
Definition below (filename curdir : string) : string := curdir ++ "/" ++ filename.

Lemma ParseURI_of_composed_witness :
  ParseURI "openrave:/robots/ur5.json#arm" "" ""
  = ("openrave", "/robots/ur5.json", "arm").
Proof.
  apply (ParseURI_of_composed "openrave" "/robots/ur5.json" "arm"); reflexivity.
Defined.

Lemma ResolveURI_local_file_witness :
  ResolveURI below "file:ur5.json#arm" "/data" ["mujin"] = "/data/ur5.json".
Proof.
  apply (ResolveURI_local_file below "file:ur5.json#arm" "file" "ur5.json"
           "/data" ["mujin"]); [reflexivity | reflexivity | left; reflexivity].
Defined.

Lemma ResolveURI_unknown_scheme_witness :
  ResolveURI below "ur5.json#arm" "/data" ["mujin"] = "".
Proof.
  apply ResolveURI_unknown_scheme. left. split; [reflexivity|].
  simpl. intros [H|[]]. discriminate H.
Defined.
End URIExamples.

(** ** Reading back what was inserted *)

Section AccessFacts.
Context {core : RaveCore}.
Context {R : Type}.

Local Abbreviation Traj := (GenericTrajectory R).

(** The buffer after [pdata] went in at position [k]: the values from [k]
    on are pushed back, or, when overwriting, replaced as far as the data
    reaches. *)
Definition spliced (buf pdata : list dReal) (k : Z) (bOverwrite : bool)
  : list dReal :=
firstn (Z.to_nat k) buf ++ pdata
++ skipn (Z.to_nat (if bOverwrite then k + vsize pdata else k)) buf.

Lemma vsize_vec_resize (data : list dReal) n :
  0 <= n -> vsize (vec_resize data n) = n.
Proof.
  intros Hn. unfold vec_resize, vsize.
  rewrite length_app, length_firstn, repeat_length. lia.
Qed.

Lemma vec_write_all (old src : list dReal) :
  vsize old = vsize src -> vec_write old 0 src = src.
Proof.
  intros H. pose proof (vec_write_over src [] old []) as Hw.
  rewrite !app_nil_r in Hw. apply Hw. unfold vsize in H. lia.
Qed.

Lemma vec_slice_middle (pre mid post : list dReal) :
  vec_slice (pre ++ mid ++ post) (vsize pre) (vsize mid) = mid.
Proof.
  unfold vec_slice, vsize. rewrite !Nat2Z.id.
  rewrite drop_app_length, take_app_length. reflexivity.
Qed.

Lemma vec_insert_end (v src : list dReal) : vec_insert v (vsize v) src = v ++ src.
Proof.
  unfold vec_insert, vsize. now rewrite Nat2Z.id, firstn_all, skipn_all, app_nil_r.
Qed.

Lemma vec_write_splice (v src : list dReal) k :
  0 <= k -> k + vsize src <= vsize v ->
  vec_write v k src
  = firstn (Z.to_nat k) v ++ src ++ skipn (Z.to_nat (k + vsize src)) v.
Proof.
  intros Hk Hfit. pose proof (vsize_nonneg src) as Hn.
  pose proof (vec_write_over src (firstn (Z.to_nat k) v)
                (firstn (Z.to_nat (vsize src)) (skipn (Z.to_nat k) v))
                (skipn (Z.to_nat (vsize src)) (skipn (Z.to_nat k) v))) as H.
  rewrite !firstn_skipn, vsize_firstn in H by lia.
  rewrite H.
  - rewrite skipn_skipn. do 3 f_equal. lia.
  - rewrite length_firstn, length_skipn. unfold vsize in *. lia.
Qed.

(** What [Insert] leaves in the buffer. *)
Lemma Insert_splices (t : Traj) index pdata bOverwrite :
  _bInit t = true -> 0 < GetDOF (_spec t) < 2 ^ 64 ->
  vsize (_vtrajdata t) < 2 ^ 64 ->
  vsize pdata mod dof_size t = 0 -> 0 <= index <= GetNumWaypoints t ->
  pdata <> [] ->
  Insert index pdata bOverwrite t
  = Ok (with_trajdata t
          (spliced (_vtrajdata t) pdata (index * dof_size t) bOverwrite)
          true (_bSamplingVerified t)).
Proof.
  intros Hinit Hdof Hsize Hrows Hindex Hdata.
  assert (dof_size t = GetDOF (_spec t)) as Hd
    by (unfold dof_size; apply to_size_t_small; lia).
  pose proof (within_count t index ltac:(lia) Hindex) as Hk.
  assert (row_begin t index = index * dof_size t) as Hrow
    by (apply row_begin_small; lia).
  pose proof (vsize_nonneg pdata) as Hn.
  assert (vsize pdata <> 0) as Hne.
  { intros H. apply Hdata. destruct pdata; [reflexivity|].
    unfold vsize in H. simpl in H. lia. }
  unfold Insert. rewrite Hinit. cbn [BOOST_ASSERT bind].
  replace (vsize pdata =? 0) with false by (symmetry; apply Z.eqb_neq; lia).
  replace (GetDOF (_spec t) >? 0) with true by (symmetry; apply Z.gtb_lt; lia).
  cbn [BOOST_ASSERT bind]. unfold assert_divides. rewrite Hrows.
  cbn [Z.eqb bind]. rewrite Hrow. unfold OPENRAVE_ASSERT_OP.
  replace (index * dof_size t <=? vsize (_vtrajdata t)) with true
    by (symmetry; apply Z.leb_le; lia).
  cbn [bind]. do 2 f_equal.
  set (k := index * dof_size t) in *. set (buf := _vtrajdata t) in *.
  assert (0 <= k) as Hk0 by (unfold k; nia).
  unfold spliced.
  destruct bOverwrite; cbn [andb]; [|reflexivity].
  destruct (k <? vsize buf) eqn:Elt; bool_to_Z.
  2:{ unfold vec_insert. assert (k = vsize buf) as Hkeq by lia.
      rewrite !skipn_all2 by (unfold vsize in *; lia). reflexivity. }
  destruct (Z.le_gt_cases (vsize pdata) (vsize buf - k)) as [Hle|Hgt];
    [rewrite Z.min_l by lia | rewrite Z.min_r by lia].
  - replace (vsize pdata <? vsize pdata) with false
      by (symmetry; apply Z.ltb_ge; lia).
    unfold vsize at 1. rewrite Nat2Z.id, firstn_all.
    apply vec_write_splice; lia.
  - replace (vsize buf - k <? vsize pdata) with true
      by (symmetry; apply Z.ltb_lt; lia).
    assert (vsize (firstn (Z.to_nat (vsize buf - k)) pdata) = vsize buf - k)
      as Hlen by (apply vsize_firstn; lia).
    rewrite vec_write_splice by lia. rewrite Hlen.
    replace (k + (vsize buf - k)) with (vsize buf) by lia.
    rewrite vec_insert_end.
    rewrite !(skipn_all2 buf) by (unfold vsize in *; lia).
    rewrite !app_nil_r, <- app_assoc, firstn_skipn. reflexivity.
Qed.

Lemma vsize_spliced (buf pdata : list dReal) k bOverwrite :
  0 <= k <= vsize buf ->
  vsize (spliced buf pdata k bOverwrite)
  = if bOverwrite then Z.max (vsize buf) (k + vsize pdata)
    else vsize buf + vsize pdata.
Proof.
  intros Hk. pose proof (vsize_nonneg pdata) as Hn. unfold spliced.
  rewrite !vsize_app, vsize_firstn by lia. destruct bOverwrite.
  - destruct (Z.le_gt_cases (k + vsize pdata) (vsize buf)).
    + rewrite vsize_skipn by lia. lia.
    + rewrite skipn_all2 by (unfold vsize in *; lia).
      change (vsize (@nil dReal)) with 0. lia.
  - rewrite vsize_skipn by lia. lia.
Qed.

Lemma vec_slice_spliced (buf pdata : list dReal) k bOverwrite :
  0 <= k <= vsize buf ->
  vec_slice (spliced buf pdata k bOverwrite) k (vsize pdata) = pdata.
Proof.
  intros Hk. unfold spliced.
  generalize (skipn (Z.to_nat (if bOverwrite then k + vsize pdata else k)) buf).
  intros post.
  pose proof (vec_slice_middle (firstn (Z.to_nat k) buf) pdata post) as H.
  rewrite vsize_firstn in H by lia. exact H.
Qed.

Lemma GetWaypoints_nothing (t : Traj) index data0 :
  _bInit t = true -> 0 <= index -> index * dof_size t <= vsize (_vtrajdata t) ->
  vsize (_vtrajdata t) < 2 ^ 64 ->
  GetWaypoints index index data0 t = Ok [].
Proof.
  intros Hinit Hi Hk Hsize. unfold GetWaypoints. rewrite Hinit.
  cbn [BOOST_ASSERT bind].
  rewrite (row_begin_small t index) by lia.
  replace (index <=? index) with true by (symmetry; apply Z.leb_le; lia).
  replace (index * dof_size t <=? vsize (_vtrajdata t)) with true
    by (symmetry; apply Z.leb_le; lia).
  cbn [andb BOOST_ASSERT bind]. rewrite !Z.sub_diag, Z.mul_0_l. reflexivity.
Qed.

(** X7: rows that [Insert] has put at an index are the rows that
    [GetWaypoints] reads there, with and without overwriting, whatever the
    caller's vector held; and the waypoint count grows by the rows
    inserted, or, when overwriting, only by the rows that reach beyond the
    old end. *)
Theorem inserted_rows_read_back (t : Traj) (index : Z) (pdata data0 : list dReal)
    (bOverwrite : bool) :
  _bInit t = true -> 0 < GetDOF (_spec t) < 2 ^ 64 ->
  vsize (_vtrajdata t) + vsize pdata < 2 ^ 64 ->
  vsize pdata mod dof_size t = 0 -> 0 <= index <= GetNumWaypoints t ->
  exists t',
    Insert index pdata bOverwrite t = Ok t'
    /\ GetWaypoints index (index + vsize pdata / dof_size t) data0 t' = Ok pdata
    /\ GetNumWaypoints t'
       = if bOverwrite
         then Z.max (GetNumWaypoints t) (index + vsize pdata / dof_size t)
         else GetNumWaypoints t + vsize pdata / dof_size t.
Proof.
  intros Hinit Hdof Hsize Hrows Hindex.
  pose proof (vsize_nonneg pdata) as Hn.
  pose proof (vsize_nonneg (_vtrajdata t)) as Hb.
  assert (dof_size t = GetDOF (_spec t)) as Hd
    by (unfold dof_size; apply to_size_t_small; lia).
  pose proof (within_count t index ltac:(lia) Hindex) as Hk.
  destruct pdata as [|x pdata'] eqn:Epdata.
  { exists t. split; [unfold Insert; rewrite Hinit; reflexivity|].
    change (vsize (@nil dReal)) with 0. rewrite Z.div_0_l, !Z.add_0_r by lia.
    split; [apply GetWaypoints_nothing; [exact Hinit | lia..]|].
    destruct bOverwrite; lia. }
  rewrite <- Epdata in *. assert (pdata <> []) as Hne by (subst; discriminate).
  clear Epdata x pdata'.
  eexists. split; [apply Insert_splices; auto; lia|].
  set (k := index * dof_size t) in *. set (n := vsize pdata) in *.
  assert (n = n / dof_size t * dof_size t) as Hn'.
  { pose proof (Z.div_mod n (dof_size t) ltac:(lia)). lia. }
  assert (0 <= n / dof_size t) as Hq by (apply Z.div_pos; lia).
  assert (0 <= k) as Hk0 by (unfold k; nia).
  split.
  - unfold GetWaypoints. cbn [_bInit with_trajdata]. rewrite Hinit.
    cbn [BOOST_ASSERT bind].
    assert (forall i, row_begin (with_trajdata t (spliced (_vtrajdata t) pdata k bOverwrite)
                                   true (_bSamplingVerified t)) i
                      = row_begin t i) as Hrow by reflexivity.
    rewrite !Hrow. cbn [_vtrajdata with_trajdata].
    change (dof_size (with_trajdata t (spliced (_vtrajdata t) pdata k bOverwrite)
                        true (_bSamplingVerified t))) with (dof_size t).
    rewrite (row_begin_small t index) by lia.
    rewrite (row_begin_small t (index + n / dof_size t)) by nia.
    fold k. replace ((index + n / dof_size t) * dof_size t) with (k + n)
      by (unfold k; lia).
    rewrite vsize_spliced by lia.
    replace (index <=? index + n / dof_size t) with true
      by (symmetry; apply Z.leb_le; lia).
    replace (k <=? (if bOverwrite then Z.max (vsize (_vtrajdata t)) (k + vsize pdata)
                    else vsize (_vtrajdata t) + vsize pdata)) with true
      by (symmetry; apply Z.leb_le; destruct bOverwrite; fold n; lia).
    replace (k + n <=? (if bOverwrite then Z.max (vsize (_vtrajdata t)) (k + vsize pdata)
                        else vsize (_vtrajdata t) + vsize pdata)) with true
      by (symmetry; apply Z.leb_le; destruct bOverwrite; fold n; lia).
    cbn [andb BOOST_ASSERT bind]. f_equal.
    replace ((index + n / dof_size t - index) * dof_size t) with n by lia.
    rewrite to_size_t_small by lia.
    replace (k + n - k) with n by lia.
    unfold n at 2. rewrite vec_slice_spliced by lia.
    apply vec_write_all. apply vsize_vec_resize. lia.
  - unfold GetNumWaypoints. cbn [_vtrajdata with_trajdata].
    change (dof_size (with_trajdata t (spliced (_vtrajdata t) pdata k bOverwrite)
                        true (_bSamplingVerified t))) with (dof_size t).
    rewrite vsize_spliced by lia. fold n. destruct bOverwrite.
    + destruct (Z.le_gt_cases (k + n) (vsize (_vtrajdata t))) as [Hle|Hgt].
      * rewrite !Z.max_l; [reflexivity | | lia].
        apply Z.div_le_lower_bound; [lia|]. unfold k in Hle. lia.
      * rewrite !Z.max_r; [ | | lia].
        -- replace (k + n) with ((index + n / dof_size t) * dof_size t)
             by (unfold k; lia).
           apply Z.div_mul. lia.
        -- apply Z.lt_le_incl, Z.div_lt_upper_bound; [lia|]. unfold k in Hgt. lia.
    + rewrite Hn' at 1. rewrite Z.div_add by lia. reflexivity.
Qed.

(** X8: removing the rows that an [Insert] without overwrite has just put
    in gives back the buffer as it was. *)
Theorem inserted_rows_removed (t : Traj) (index : Z) (pdata : list dReal) :
  _bInit t = true -> 0 < GetDOF (_spec t) < 2 ^ 64 ->
  vsize (_vtrajdata t) + vsize pdata < 2 ^ 64 ->
  vsize pdata mod dof_size t = 0 -> 0 <= index <= GetNumWaypoints t ->
  exists t' t'',
    Insert index pdata false t = Ok t'
    /\ Remove index (index + vsize pdata / dof_size t) t' = Ok t''
    /\ _vtrajdata t'' = _vtrajdata t /\ _spec t'' = _spec t.
Proof.
  intros Hinit Hdof Hsize Hrows Hindex.
  pose proof (vsize_nonneg pdata) as Hn.
  pose proof (vsize_nonneg (_vtrajdata t)) as Hb.
  assert (dof_size t = GetDOF (_spec t)) as Hd
    by (unfold dof_size; apply to_size_t_small; lia).
  pose proof (within_count t index ltac:(lia) Hindex) as Hk.
  destruct pdata as [|x pdata'] eqn:Epdata.
  { exists t, t. split; [unfold Insert; rewrite Hinit; reflexivity|].
    change (vsize (@nil dReal)) with 0. rewrite Z.div_0_l, !Z.add_0_r by lia.
    split; [|split; reflexivity].
    unfold Remove. rewrite Hinit. cbn [BOOST_ASSERT bind].
    now rewrite Z.eqb_refl. }
  rewrite <- Epdata in *. assert (pdata <> []) as Hne by (subst; discriminate).
  clear Epdata x pdata'.
  set (k := index * dof_size t) in *. set (n := vsize pdata) in *.
  assert (n = n / dof_size t * dof_size t) as Hn'.
  { pose proof (Z.div_mod n (dof_size t) ltac:(lia)). lia. }
  assert (0 <= n / dof_size t) as Hq by (apply Z.div_pos; lia).
  assert (0 <= k) as Hk0 by (unfold k; nia).
  assert (0 < n) as Hpos.
  { destruct pdata; [contradiction|]. unfold n, vsize. simpl. lia. }
  assert (0 < n / dof_size t) as Hq' by nia.
  do 2 eexists. split; [apply Insert_splices; auto; lia|].
  unfold Remove. cbn [_bInit with_trajdata]. rewrite Hinit.
  cbn [BOOST_ASSERT bind].
  replace (index =? index + n / dof_size t) with false
    by (symmetry; apply Z.eqb_neq; lia).
  assert (forall i, row_begin (with_trajdata t (spliced (_vtrajdata t) pdata k false)
                                 true (_bSamplingVerified t)) i
                    = row_begin t i) as Hrow by reflexivity.
  rewrite !Hrow. cbn [_vtrajdata with_trajdata].
  rewrite (row_begin_small t index) by lia.
  rewrite (row_begin_small t (index + n / dof_size t)) by nia.
  fold k. replace ((index + n / dof_size t) * dof_size t) with (k + n)
    by (unfold k; lia).
  rewrite vsize_spliced by lia. fold n.
  replace (k <=? vsize (_vtrajdata t) + n) with true
    by (symmetry; apply Z.leb_le; lia).
  replace (k + n <=? vsize (_vtrajdata t) + n) with true
    by (symmetry; apply Z.leb_le; lia).
  cbn [andb BOOST_ASSERT bind]. unfold OPENRAVE_ASSERT_OP.
  replace (index <? index + n / dof_size t) with true
    by (symmetry; apply Z.ltb_lt; lia).
  cbn [bind]. split; [reflexivity|]. cbn [_vtrajdata _spec with_trajdata].
  split; [|reflexivity].
  unfold vec_erase, spliced.
  assert (List.length (firstn (Z.to_nat k) (_vtrajdata t)) = Z.to_nat k) as Hlen.
  { rewrite length_firstn. unfold vsize in *. lia. }
  rewrite <- Hlen at 1. rewrite take_app_length.
  replace (Z.to_nat (k + n))
    with (List.length (firstn (Z.to_nat k) (_vtrajdata t) ++ pdata)).
  2:{ rewrite length_app, Hlen. unfold n, vsize. lia. }
  rewrite app_assoc, drop_app_length. apply firstn_skipn.
Qed.

Section CloneFacts.
Variable InterfaceBase_Clone :
  Z -> string * gmap string R -> string * gmap string R -> string * gmap string R.

(** X9: a clone holds the waypoints of the original, all of them, is
    initialized and marked as changed; cloned into a trajectory that was
    not initialized it also has the original's specification, when that is
    in the order [Init] gives. *)
Theorem Clone_copies_waypoints (r t : Traj) (cloningoptions : Z) :
  _bInit r = true -> 0 < GetDOF (_spec r) < 2 ^ 64 ->
  whole_rows r -> vsize (_vtrajdata r) < 2 ^ 64 ->
  exists t',
    Clone InterfaceBase_Clone r cloningoptions t = Ok t'
    /\ _vtrajdata t' = _vtrajdata r
    /\ _bInit t' = true /\ _bChanged t' = true
    /\ (_bInit t = false -> canonical_order (_vgroups (_spec r)) ->
        _spec t' = _spec r).
Proof.
  intros Hinit Hdof Hwhole Hsize.
  pose proof (vsize_nonneg (_vtrajdata r)) as Hb.
  assert (dof_size r = GetDOF (_spec r)) as Hd
    by (unfold dof_size; apply to_size_t_small; lia).
  assert (GetNumWaypoints r * dof_size r = vsize (_vtrajdata r)) as Hall.
  { destruct Hwhole as [q Hq]. unfold GetNumWaypoints. rewrite Hq.
    rewrite Z.div_mul by lia. reflexivity. }
  pose proof (count_nonneg r) as Hcount.
  unfold Clone. rewrite Hinit. cbn [BOOST_ASSERT bind].
  set (t1 := Init (_spec r) _).
  assert (_vtrajdata t1 = []) as Hempty by reflexivity.
  unfold GetWaypoints. rewrite Hinit. cbn [BOOST_ASSERT bind].
  rewrite (row_begin_small r 0), (row_begin_small r (GetNumWaypoints r)) by lia.
  rewrite Hall, Z.mul_0_l.
  replace (0 <=? GetNumWaypoints r) with true by (symmetry; apply Z.leb_le; lia).
  replace (0 <=? vsize (_vtrajdata r)) with true by (symmetry; apply Z.leb_le; lia).
  rewrite Z.leb_refl. cbn [andb BOOST_ASSERT bind].
  rewrite !Z.sub_0_r, Hall, to_size_t_small by lia.
  assert (vec_slice (_vtrajdata r) 0 (vsize (_vtrajdata r)) = _vtrajdata r) as ->.
  { unfold vec_slice, vsize. rewrite Nat2Z.id. simpl. apply firstn_all. }
  rewrite vec_write_all by (apply vsize_vec_resize; lia).
  eexists. split; [reflexivity|]. cbn [_vtrajdata _bInit _bChanged _spec with_trajdata].
  repeat split.
  intros Huninit Horder. unfold t1, Init. cbn [_bInit with_base].
  rewrite Huninit. cbn [andb _spec].
  rewrite stable_sort_fixed by (now apply canonical_order_sorted).
  now destruct (_spec r).
Qed.
End CloneFacts.
End AccessFacts.

Module AccessExamples.
Import Ref.

(** Two waypoints in the layout of [spec_linear]. *)
Definition two_points : Traj := make spec_linear [0; 0; 0; 1; 2; 0.5]%Q.

Lemma inserted_rows_read_back_witness :
  _bInit two_points = true /\ 0 < GetDOF (_spec two_points) < 2 ^ 64
  /\ exists t',
       Insert 1 [5; 5; 5; 6; 6; 6]%Q true two_points = Ok t'
       /\ GetWaypoints 1 (1 + vsize [5; 5; 5; 6; 6; 6]%Q / dof_size two_points)
            [7; 7]%Q t' = Ok [5; 5; 5; 6; 6; 6]%Q
       /\ GetNumWaypoints t'
          = Z.max (GetNumWaypoints two_points)
                  (1 + vsize [5; 5; 5; 6; 6; 6]%Q / dof_size two_points).
Proof.
  split; [reflexivity|]. split; [vm_compute; intuition discriminate|].
  apply (inserted_rows_read_back two_points 1 [5; 5; 5; 6; 6; 6]%Q [7; 7]%Q true);
    vm_compute; intuition discriminate.
Defined.

Lemma inserted_rows_removed_witness :
  _bInit two_points = true
  /\ exists t' t'',
       Insert 1 [5; 5; 5]%Q false two_points = Ok t'
       /\ Remove 1 (1 + vsize [5; 5; 5]%Q / dof_size two_points) t' = Ok t''
       /\ _vtrajdata t'' = _vtrajdata two_points /\ _spec t'' = _spec two_points.
Proof.
  split; [reflexivity|].
  apply (inserted_rows_removed two_points 1 [5; 5; 5]%Q);
    vm_compute; intuition discriminate.
Defined.

(** The base class copies the description and the annotations. *)
Definition copy_base (options : Z) (theirs mine : string * gmap string string)
  : string * gmap string string := theirs.

Lemma Clone_copies_waypoints_witness :
  _bInit two_points = true /\ whole_rows two_points
  /\ exists t',
       Clone copy_base two_points 0 empty = Ok t'
       /\ _vtrajdata t' = _vtrajdata two_points
       /\ _bInit t' = true /\ _bChanged t' = true
       /\ (_bInit empty = false -> canonical_order (_vgroups (_spec two_points)) ->
           _spec t' = _spec two_points).
Proof.
  assert (whole_rows two_points) as Hwhole by (exists 2; reflexivity).
  split; [reflexivity|]. split; [exact Hwhole|].
  apply (Clone_copies_waypoints copy_base two_points empty 0);
    [reflexivity | vm_compute; intuition discriminate | exact Hwhole
    | vm_compute; reflexivity].
Defined.
End AccessExamples.

(** ** The time index *)

Section TimeFacts.
Context {core : RaveCore}.
Context {R : Type}.

Local Abbreviation Traj := (GenericTrajectory R).
Local Open Scope Q_scope.

(** The totals after each of the increments [l], starting from [last]. *)
Fixpoint running (last : dReal) (l : list dReal) : list dReal :=
match l with
| [] => []
| d :: l' => (last + d) :: running (last + d) l'
end.

Fixpoint Qsum (l : list dReal) : dReal :=
match l with
| [] => 0
| d :: l' => d + Qsum l'
end.

(** The stored [deltatime] of every waypoint, in order. *)
Definition deltatimes (t : Traj) : list dReal :=
map (fun i => deltatime_of t (Z.of_nat i)) (seq 0 (Z.to_nat (GetNumWaypoints t))).

Lemma running_ge last l :
  Forall (Qle 0) l -> Forall (Qle last) (running last l).
Proof.
  revert last. induction l as [|d l IH]; intros last H; simpl; [constructor|].
  inversion H as [|? ? Hd Hl]; subst. constructor; [lra|].
  eapply Forall_impl; [apply IH; exact Hl|]. simpl. intros x Hx. lra.
Qed.

Lemma running_sorted last l :
  Forall (Qle 0) l -> StronglySorted Qle (last :: running last l).
Proof.
  revert last. induction l as [|d l IH]; intros last H.
  - repeat constructor.
  - constructor; [|now apply running_ge].
    simpl. apply IH. now inversion H.
Qed.

Lemma last_running last l d0 :
  List.last (last :: running last l) d0 == last + Qsum l.
Proof.
  revert last. induction l as [|d l IH]; intros last.
  - simpl. lra.
  - change (List.last (last :: running last (d :: l)) d0)
      with (List.last ((last + d) :: running (last + d) l) d0).
    rewrite IH. simpl. lra.
Qed.

Lemma length_running last l : List.length (running last l) = List.length l.
Proof.
  revert last. induction l as [|d l IH]; intros last; simpl; [reflexivity|].
  now rewrite IH.
Qed.

(** The loop of [_ComputeInternal], when it completes: the totals it
    appends, and that no [deltatime] it met was negative. *)
Lemma accumulate_times (t : Traj) n (l : list nat) :
  forall accum inv last accum' inv' last',
  fold_left (accumulate_point t n) l (Ok (accum, inv, last))
  = Ok (accum', inv', last') ->
  accum' = accum ++ running last (map (fun i => deltatime_of t (Z.of_nat i)) l)
  /\ Forall (fun i => 0 <= deltatime_of t (Z.of_nat i)) l.
Proof.
  induction l as [|i l IH]; intros accum inv last accum' inv' last' H.
  - simpl in H. inversion H. simpl. rewrite app_nil_r. split; [reflexivity|constructor].
  - cbn [fold_left] in H. unfold accumulate_point at 2 in H. cbn [bind] in H.
    fold (deltatime_of t (Z.of_nat i)) in H.
    destruct (Qltb (deltatime_of t (Z.of_nat i)) 0) eqn:E.
    + unfold throw in H. rewrite accumulate_after_error in H. discriminate.
    + apply IH in H. destruct H as [-> Hl]. split.
      * rewrite <- app_assoc. reflexivity.
      * constructor; [|exact Hl]. now apply Qltb_ge.
Qed.

(** The time index that a rebuild leaves. *)
Lemma _ComputeInternal_times (t t1 : Traj) :
  _bChanged t = true -> (0 <= _timeoffset t)%Z -> (0 < GetNumWaypoints t)%Z ->
  _ComputeInternal t = Ok t1 ->
  _vaccumtime t1
  = deltatime_of t 0
    :: running (deltatime_of t 0)
         (map (fun i => deltatime_of t (Z.of_nat i))
              (seq 1 (Z.to_nat (GetNumWaypoints t) - 1)))
  /\ Forall (fun i => 0 <= deltatime_of t (Z.of_nat i))
            (seq 1 (Z.to_nat (GetNumWaypoints t) - 1)).
Proof.
  intros Hchanged Htoff Hcount Hcompute. unfold _ComputeInternal in Hcompute.
  rewrite Hchanged in Hcompute. cbn [negb] in Hcompute.
  replace (_timeoffset t <? 0)%Z with false in Hcompute
    by (symmetry; apply Z.ltb_ge; lia).
  replace (GetNumWaypoints t =? 0)%Z with false in Hcompute
    by (symmetry; apply Z.eqb_neq; lia).
  apply bind_ok in Hcompute. destruct Hcompute as (first & Hfirst & Hcompute).
  apply bind_ok in Hcompute.
  destruct Hcompute as ([[accum inv] last] & Hfold & Hcompute).
  inversion Hcompute; subst t1. cbn [_vaccumtime with_times].
  apply (vec_at_get 0) in Hfirst.
  assert (first = deltatime_of t 0) as ->.
  { rewrite Hfirst. unfold deltatime_of, traj_get. f_equal. lia. }
  apply accumulate_times in Hfold. destruct Hfold as [-> Hall].
  split; [reflexivity | exact Hall].
Qed.

Lemma accumulate_succeeds (t : Traj) n (l : list nat) :
  forall st,
  Forall (fun i => 0 <= deltatime_of t (Z.of_nat i)) l ->
  exists st', fold_left (accumulate_point t n) l (Ok st) = Ok st'.
Proof.
  induction l as [|i l IH]; intros st H; [now exists st|].
  inversion H as [|? ? Hi Hl]; subst.
  cbn [fold_left]. unfold accumulate_point at 2. cbn [bind].
  destruct st as [[accum inv] last].
  fold (deltatime_of t (Z.of_nat i)).
  replace (Qltb (deltatime_of t (Z.of_nat i)) 0) with false
    by (symmetry; now apply Qltb_ge).
  apply IH. exact Hl.
Qed.

Lemma sorted_nth (v : list dReal) d :
  StronglySorted Qle v ->
  forall i j, (i <= j < List.length v)%nat -> nth i v d <= nth j v d.
Proof.
  induction 1 as [|x v Hv IH Hx]; intros i j Hij; simpl in Hij; [lia|].
  destruct j as [|j].
  - assert (i = 0)%nat as -> by lia. simpl. lra.
  - destruct i as [|i]; simpl.
    + rewrite List.Forall_forall in Hx. apply Hx. apply nth_In. lia.
    + apply IH. lia.
Qed.

Lemma lower_bound_spec (v : list dReal) (x : dReal) :
  (0 <= lower_bound v x <= vsize v)%Z
  /\ (forall i, (0 <= i < lower_bound v x)%Z -> vec_get 0 v i < x)
  /\ ((lower_bound v x < vsize v)%Z -> x <= vec_get 0 v (lower_bound v x)).
Proof.
  induction v as [|y v IH]; simpl.
  - change (vsize (@nil dReal)) with 0%Z. repeat split; try lia.
  - assert (vsize (y :: v) = 1 + vsize v)%Z as Hcons
      by (unfold vsize; simpl; lia).
    rewrite Hcons. pose proof (vsize_nonneg v) as Hv.
    destruct IH as (Hr & Hbefore & Hat).
    destruct (Qltb y x) eqn:E.
    + apply Qltb_lt in E. split; [lia|]. split.
      * intros i Hi. destruct (Z.eq_dec i 0%Z) as [->|Hne]; [exact E|].
        specialize (Hbefore (i - 1)%Z ltac:(lia)).
        unfold vec_get in *.
        replace (i <? 0)%Z with false by (symmetry; apply Z.ltb_ge; lia).
        replace (i - 1 <? 0)%Z with false in Hbefore
          by (symmetry; apply Z.ltb_ge; lia).
        replace (Z.to_nat i) with (S (Z.to_nat (i - 1))) by lia. exact Hbefore.
      * intros Hlt. specialize (Hat ltac:(lia)). unfold vec_get in *.
        replace (1 + lower_bound v x <? 0)%Z with false
          by (symmetry; apply Z.ltb_ge; lia).
        replace (lower_bound v x <? 0)%Z with false in Hat
          by (symmetry; apply Z.ltb_ge; lia).
        replace (Z.to_nat (1 + lower_bound v x))
          with (S (Z.to_nat (lower_bound v x))) by lia.
        exact Hat.
    + apply Qltb_ge in E. split; [lia|]. split; [intros i Hi; lia|].
      intros _. unfold vec_get. simpl. exact E.
Qed.

Lemma _ComputeInternal_sorted (t t1 : Traj) :
  _bChanged t = true -> _ComputeInternal t = Ok t1 ->
  StronglySorted Qle (_vaccumtime t1)
  /\ ((0 <= _timeoffset t)%Z -> vsize (_vaccumtime t1) = GetNumWaypoints t).
Proof.
  intros Hchanged Hcompute.
  destruct (Z.ltb_spec (_timeoffset t) 0%Z) as [Hneg|Htoff].
  { unfold _ComputeInternal in Hcompute. rewrite Hchanged in Hcompute.
    cbn [negb] in Hcompute.
    replace (_timeoffset t <? 0)%Z with true in Hcompute
      by (symmetry; apply Z.ltb_lt; lia).
    inversion Hcompute. cbn [_vaccumtime with_times].
    split; [constructor | lia]. }
  pose proof (count_nonneg t) as Hcount.
  destruct (Z.eq_dec (GetNumWaypoints t) 0%Z) as [Hzero|Hpos].
  { unfold _ComputeInternal in Hcompute. rewrite Hchanged in Hcompute.
    cbn [negb] in Hcompute.
    replace (_timeoffset t <? 0)%Z with false in Hcompute
      by (symmetry; apply Z.ltb_ge; lia).
    rewrite Hzero in Hcompute. cbn [Z.eqb] in Hcompute.
    inversion Hcompute. cbn [_vaccumtime with_times].
    split; [constructor | intros _; now rewrite Hzero]. }
  destruct (_ComputeInternal_times t t1 Hchanged Htoff ltac:(lia) Hcompute)
    as [-> Hall].
  split.
  - apply running_sorted. apply Forall_map. exact Hall.
  - intros _. unfold vsize. cbn [List.length].
    rewrite length_running, length_map, length_seq. lia.
Qed.

(** X10: the accumulated times that a rebuild of the time index leaves are
    in non-decreasing order, one for every waypoint: the order that the
    binary searches of [Sample] and [GetFirstWaypointIndexAfterTime] rely
    on. *)
Theorem accum_sorted (t t1 : Traj) :
  _bChanged t = true -> _ComputeInternal t = Ok t1 ->
  StronglySorted Qle (_vaccumtime t1)
  /\ ((0 <= _timeoffset t)%Z -> vsize (_vaccumtime t1) = GetNumWaypoints t).
Proof. exact (_ComputeInternal_sorted t t1). Qed.

(** X11: when no waypoint after the first has a negative [deltatime],
    [GetDuration] succeeds and returns the sum of the [deltatime] of all
    waypoints, the first included, without touching the waypoints; it is
    [0] for a trajectory without waypoints. *)
Theorem duration_is_total_deltatime (t : Traj) :
  _bInit t = true -> _bChanged t = true ->
  (0 <= _timeoffset t < dof_size t)%Z ->
  Forall (fun i => 0 <= deltatime_of t (Z.of_nat i))
         (seq 1 (Z.to_nat (GetNumWaypoints t) - 1)) ->
  exists t1 d, GetDuration t = Ok (t1, d)
    /\ d == Qsum (deltatimes t) /\ _vtrajdata t1 = _vtrajdata t.
Proof.
  intros Hinit Hchanged Htoff Hall.
  pose proof (count_nonneg t) as Hcount.
  unfold GetDuration. rewrite Hinit. cbn [BOOST_ASSERT bind].
  destruct (Z.eq_dec (GetNumWaypoints t) 0%Z) as [Hzero|Hpos].
  { unfold _ComputeInternal. rewrite Hchanged. cbn [negb].
    replace (_timeoffset t <? 0)%Z with false by (symmetry; apply Z.ltb_ge; lia).
    rewrite Hzero. cbn [Z.eqb bind _vaccumtime with_times].
    do 2 eexists. split; [reflexivity|]. split; [|reflexivity].
    unfold deltatimes. rewrite Hzero. reflexivity. }
  assert (exists t1, _ComputeInternal t = Ok t1) as [t1 Hcompute].
  { unfold _ComputeInternal. rewrite Hchanged. cbn [negb].
    replace (_timeoffset t <? 0)%Z with false by (symmetry; apply Z.ltb_ge; lia).
    replace (GetNumWaypoints t =? 0)%Z with false
      by (symmetry; apply Z.eqb_neq; lia).
    rewrite (vec_at_in_range 0).
    2:{ pose proof (within_count t 1 ltac:(lia) ltac:(lia)). lia. }
    cbn [bind].
    destruct (accumulate_succeeds t (GetNumWaypoints t)
                (seq 1 (Z.to_nat (GetNumWaypoints t) - 1))
                ([vec_get 0 (_vtrajdata t) (_timeoffset t)],
                 [1 / vec_get 0 (_vtrajdata t) (_timeoffset t)],
                 vec_get 0 (_vtrajdata t) (_timeoffset t)) Hall)
      as ([[accum inv] last] & ->).
    cbn [bind]. eauto. }
  rewrite Hcompute. cbn [bind].
  destruct (_ComputeInternal_times t t1 Hchanged ltac:(lia) ltac:(lia) Hcompute)
    as [Htimes _].
  destruct (_ComputeInternal_frame t t1 Hcompute) as (_ & Hdata & _).
  do 2 eexists. split; [reflexivity|]. split; [|exact Hdata].
  rewrite Htimes.
  replace (vsize (deltatime_of t 0
                  :: running (deltatime_of t 0)
                       (map (fun i => deltatime_of t (Z.of_nat i))
                            (seq 1 (Z.to_nat (GetNumWaypoints t) - 1)))) >? 0)%Z
    with true by (symmetry; apply Z.gtb_lt; unfold vsize; simpl; lia).
  rewrite last_running. unfold deltatimes.
  replace (Z.to_nat (GetNumWaypoints t))
    with (S (Z.to_nat (GetNumWaypoints t) - 1)) at 2 by lia.
  cbn [seq map Qsum]. reflexivity.
Qed.

(** X12: the index [r] that [GetFirstWaypointIndexAfterTime] returns lies
    between [0] and the waypoint count; the waypoints before [r] have an
    accumulated time of at most [time], and when [r] is a waypoint its
    accumulated time is at least [time] and the earlier ones lie strictly
    before [time].  The waypoints are not touched. *)
Theorem first_waypoint_index_after_time (t t1 : Traj) (time : dReal) (r : Z) :
  _bChanged t = true ->
  GetFirstWaypointIndexAfterTime t time = Ok (t1, r) ->
  (0 <= r <= GetNumWaypoints t)%Z
  /\ (forall i, (0 <= i < r)%Z -> vec_get 0 (_vaccumtime t1) i <= time)
  /\ ((r < GetNumWaypoints t)%Z ->
      time <= vec_get 0 (_vaccumtime t1) r
      /\ forall i, (0 <= i < r)%Z -> vec_get 0 (_vaccumtime t1) i < time)
  /\ _vtrajdata t1 = _vtrajdata t.
Proof.
  intros Hchanged H. unfold GetFirstWaypointIndexAfterTime in H.
  apply bind_ok in H. destruct H as (_ & _ & H).
  apply bind_ok in H. destruct H as ([] & Htoff & H).
  unfold BOOST_ASSERT in Htoff.
  destruct (_timeoffset t >=? 0)%Z eqn:Et; [|discriminate]. bool_to_Z.
  apply bind_ok in H. destruct H as (t1' & Hcompute & H).
  destruct (_ComputeInternal_sorted t t1' Hchanged Hcompute) as [Hsorted Hlen].
  specialize (Hlen Et).
  destruct (_ComputeInternal_frame t t1' Hcompute) as (Hspec & Hdata & _).
  pose proof (count_nonneg t) as Hcount.
  destruct (vsize (_vaccumtime t1') =? 0)%Z eqn:Ez.
  { inversion H; subst t1' r. apply Z.eqb_eq in Ez.
    split; [lia|]. split; [intros; lia|]. split; [intros; lia | exact Hdata]. }
  apply Z.eqb_neq in Ez.
  apply bind_ok in H. destruct H as (first & Hfirst & H).
  apply (vec_at_get 0) in Hfirst.
  destruct (Qltb time first) eqn:Efirst.
  { inversion H; subst t1' r. apply Qltb_lt in Efirst.
    split; [lia|]. split; [intros; lia|]. split; [|exact Hdata].
    intros _. split; [rewrite <- Hfirst; lra | intros; lia]. }
  apply bind_ok in H. destruct H as (last & Hlast & H).
  apply (vec_at_get 0) in Hlast.
  assert (GetNumWaypoints t1' = GetNumWaypoints t) as Hcount'.
  { unfold GetNumWaypoints, dof_size. now rewrite Hdata, Hspec. }
  pose proof (vsize_nonneg (_vaccumtime t1')) as Hnonneg.
  destruct (Qgeb time last) eqn:Elast.
  { inversion H; subst t1' r. apply Qgeb_le in Elast.
    rewrite Hcount'. split; [lia|]. split; [|split; [intros; lia | exact Hdata]].
    intros i Hi. apply Qle_trans with last; [|exact Elast].
    rewrite Hlast. unfold vec_get.
    replace (i <? 0)%Z with false by (symmetry; apply Z.ltb_ge; lia).
    replace (vsize (_vaccumtime t1) - 1 <? 0)%Z with false
      by (symmetry; apply Z.ltb_ge; lia).
    apply sorted_nth; [exact Hsorted|]. unfold vsize in *. lia. }
  inversion H; subst t1' r.
  destruct (lower_bound_spec (_vaccumtime t1) time) as (Hr & Hbefore & Hat).
  rewrite Hlen in *.
  split; [lia|]. split; [|split; [|exact Hdata]].
  - intros i Hi. apply Qlt_le_weak. now apply Hbefore.
  - intros Hlt. split; [now apply Hat | exact Hbefore].
Qed.
End TimeFacts.

Module TimeExamples.
Import Ref.

(** Three waypoints of [spec_next], reached after 0.5, 1.5 and 1.75. *)
Definition three_points : Traj := make spec_next [0; 0.5; 1; 1; 2; 0.25]%Q.

Lemma accum_sorted_witness :
  _bChanged three_points = true
  /\ exists t1, _ComputeInternal three_points = Ok t1
       /\ StronglySorted Qle (_vaccumtime t1)
       /\ ((0 <= _timeoffset three_points)%Z ->
           vsize (_vaccumtime t1) = GetNumWaypoints three_points).
Proof.
  split; [reflexivity|]. eexists. split; [vm_compute; reflexivity|].
  apply (accum_sorted three_points); vm_compute; reflexivity.
Defined.

Lemma duration_is_total_deltatime_witness :
  _bInit three_points = true /\ _bChanged three_points = true
  /\ exists t1 d, GetDuration three_points = Ok (t1, d)
       /\ (d == Qsum (deltatimes three_points))%Q
       /\ _vtrajdata t1 = _vtrajdata three_points.
Proof.
  split; [reflexivity|]. split; [reflexivity|].
  apply (duration_is_total_deltatime three_points);
    [reflexivity | reflexivity | vm_compute; intuition discriminate|].
  repeat constructor; vm_compute; discriminate.
Defined.

Lemma first_waypoint_index_after_time_witness :
  _bChanged three_points = true
  /\ exists t1,
       GetFirstWaypointIndexAfterTime three_points 1%Q = Ok (t1, 1)
       /\ (0 <= 1 <= GetNumWaypoints three_points)%Z
       /\ (forall i, (0 <= i < 1)%Z -> (vec_get 0 (_vaccumtime t1) i <= 1)%Q)
       /\ ((1 < GetNumWaypoints three_points)%Z ->
           (1 <= vec_get 0 (_vaccumtime t1) 1)%Q
           /\ forall i, (0 <= i < 1)%Z -> (vec_get 0 (_vaccumtime t1) i < 1)%Q)
       /\ _vtrajdata t1 = _vtrajdata three_points.
Proof.
  split; [reflexivity|]. eexists. split; [vm_compute; reflexivity|].
  apply (first_waypoint_index_after_time three_points _ 1%Q 1);
    vm_compute; reflexivity.
Defined.
End TimeExamples.

(** ** Sampling: what a sample returns and what it leaves *)

Section SampleFacts.
Context {core : RaveCore}.
Context {R : Type}.

Local Abbreviation Traj := (GenericTrajectory R).

Lemma loop_after_error {A S} (step : Result S -> A -> Result S) (l : list A) e :
  (forall a, step (Err e) a = Err e) -> fold_left step l (Err e) = Err e.
Proof. intros Hstep. induction l as [|a l IH]; simpl; [reflexivity|]. now rewrite Hstep. Qed.

Lemma for_channels_size (g : Group) (f : Z -> Result dReal) :
  forall itdata out,
  for_channels g f itdata = Ok out -> vsize out = vsize itdata.
Proof.
  unfold for_channels. generalize (seq 0 (Z.to_nat (dof g))). intros l.
  induction l as [|i l IH]; intros itdata out H; simpl in H.
  - now inversion H.
  - destruct (f (Z.of_nat i)) as [x|e] eqn:E; cbn [bind] in H.
    + apply IH in H. now rewrite vsize_vec_set in H.
    + rewrite loop_after_error in H by reflexivity. discriminate.
Qed.

Lemma vsize_copy_group (t : Traj) g from itdata :
  vsize (copy_group t g from itdata) = vsize itdata.
Proof. unfold copy_group. apply vsize_vec_write. Qed.

Lemma vsize_store4 g q (itdata : list dReal) : vsize (store4 g q itdata) = vsize itdata.
Proof. unfold store4. now rewrite !vsize_vec_set. Qed.

Lemma vsize_store3 g q (itdata : list dReal) : vsize (store3 g q itdata) = vsize itdata.
Proof. unfold store3. now rewrite !vsize_vec_set. Qed.

Ltac kernel_step :=
  match goal with
  | H : Ok _ = Ok _ |- _ => inversion H; subst; clear H
  | H : Err _ = Ok _ |- _ => discriminate H
  | H : throw _ _ = Ok _ |- _ => discriminate H
  | H : for_channels _ _ _ = Ok _ |- _ => apply for_channels_size in H
  | H : bind _ _ = Ok _ |- _ =>
      let x := fresh "x" in let Hx := fresh "Hx" in
      apply bind_ok in H; destruct H as (x & Hx & H)
  | H : (if ?c then _ else _) = Ok _ |- _ => destruct c
  end.

Ltac kernel_size :=
  repeat kernel_step;
  rewrite ?vsize_copy_group, ?vsize_store4, ?vsize_store3; congruence.

(** Every kernel writes into the row it is given and leaves its length. *)
Lemma run_interpolator_size (t : Traj) k g ipoint deltatime itdata out :
  run_interpolator t k g ipoint deltatime itdata = Ok out ->
  vsize out = vsize itdata.
Proof.
  destruct k; cbn [run_interpolator]; intros H.
  - unfold _InterpolatePrevious in H. kernel_size.
  - unfold _InterpolateNext in H. kernel_size.
  - unfold _InterpolateLinear in H. kernel_size.
  - unfold _InterpolateLinearIk, _InterpolateLinear in H. kernel_size.
  - unfold _InterpolateQuadratic in H. kernel_size.
  - unfold _InterpolateQuadraticIk, _InterpolateQuadratic in H. kernel_size.
  - unfold _InterpolateCubic in H. kernel_size.
  - unfold _InterpolateCubicIk, _InterpolateCubic in H. kernel_size.
  - unfold _InterpolateQuartic in H. kernel_size.
  - unfold _InterpolateQuintic in H. kernel_size.
  - unfold _InterpolateSextic in H. kernel_size.
  - unfold _InterpolateMax in H. kernel_size.
Qed.

Lemma vsize_slice (v : list dReal) from n :
  0 <= from -> 0 <= n -> from + n <= vsize v -> vsize (vec_slice v from n) = n.
Proof.
  intros Hf Hn Hv. unfold vsize at 1. rewrite length_slice by lia. lia.
Qed.

Lemma interpolate_groups_size (t : Traj) ipoint deltatime :
  forall data out,
  interpolate_groups t ipoint deltatime data = Ok out -> vsize out = vsize data.
Proof.
  unfold interpolate_groups.
  generalize (combine (_vgroupinterpolators t) (_vgroups (_spec t))). intros l.
  induction l as [|[k g] l IH]; intros data out H; simpl in H.
  - now inversion H.
  - destruct k as [k|].
    + destruct (run_interpolator t k g ipoint deltatime data) as [data'|e] eqn:E.
      * apply IH in H. apply run_interpolator_size in E. congruence.
      * rewrite loop_after_error in H; [discriminate|]. now intros [k' g'].
    + now apply IH in H.
Qed.

(** A verification that has passed passes again, and changes nothing but
    its own flag. *)
Lemma verify_if_asked_again dbg (t1 t2 : Traj) :
  verify_if_asked dbg t1 = Ok t2 ->
  verify_if_asked dbg t2 = Ok t2
  /\ _spec t2 = _spec t1 /\ _vtrajdata t2 = _vtrajdata t1
  /\ _timeoffset t2 = _timeoffset t1 /\ _bInit t2 = _bInit t1
  /\ _bChanged t2 = _bChanged t1 /\ _vaccumtime t2 = _vaccumtime t1.
Proof.
  unfold verify_if_asked. destruct (verbose_or_verifyplans dbg).
  2:{ intros H. inversion H. repeat split; reflexivity. }
  intros H. pose proof H as H'. unfold _VerifySampling in H.
  apply bind_ok in H. destruct H as ([] & Hchanged & H).
  apply bind_ok in H. destruct H as ([] & Hinit & H).
  unfold BOOST_ASSERT in Hchanged, Hinit.
  destruct (_bSamplingVerified t1) eqn:Ev.
  - inversion H; subst t2. split; [exact H' | repeat split; reflexivity].
  - apply bind_ok in H. destruct H as (_ & _ & H).
    apply bind_ok in H. destruct H as (_ & _ & H).
    apply bind_ok in H. destruct H as (_ & _ & H).
    inversion H; subst t2. split; [|repeat split; reflexivity].
    unfold _VerifySampling.
    cbn [_bChanged _bInit _bSamplingVerified with_verified with_times].
    destruct (negb (_bChanged t1)); [|discriminate].
    destruct (_bInit t1); [|discriminate]. reflexivity.
Qed.

(** The checks that a successful [Sample] has passed. *)
Lemma Sample_ok (dbg : DebugLevel) (t t' : Traj) time row :
  Sample dbg t time = Ok (t', row) ->
  _bInit t = true /\ 0 <= _timeoffset t /\ Qgeb time 0 = true
  /\ exists t1 t2, _ComputeInternal t = Ok t1 /\ verify_if_asked dbg t1 = Ok t2.
Proof.
  intros H. unfold Sample in H.
  apply bind_ok in H. destruct H as ([] & Hinit & H).
  apply bind_ok in H. destruct H as ([] & Htoff & H).
  apply bind_ok in H. destruct H as ([] & Htime & H).
  unfold BOOST_ASSERT in Hinit, Htoff, Htime.
  destruct (_bInit t); [|discriminate].
  destruct (_timeoffset t >=? 0) eqn:Et; [|discriminate].
  destruct (Qgeb time 0); [|discriminate]. bool_to_Z.
  apply bind_ok in H. destruct H as (t1 & Hcompute & H).
  apply bind_ok in H. destruct H as ([] & _ & H).
  apply bind_ok in H. destruct H as (t2 & Hverify & H).
  repeat split; auto. exists t1, t2. split; [exact Hcompute | exact Hverify].
Qed.

(** The three ways in which [Sample] builds its row: the last row at or
    after the duration, the first row with the sample time in its time
    slot before the first waypoint's time, and otherwise the row that the
    kernels fill, with the time into the segment in its time slot. *)
Lemma Sample_cases (dbg : DebugLevel) (t t' : Traj) time row :
  0 < stride t -> stride t <= vsize (_vtrajdata t) < 2 ^ 31 ->
  Sample dbg t time = Ok (t', row) ->
  exists t1,
    _ComputeInternal t = Ok t1 /\ verify_if_asked dbg t1 = Ok t'
    /\ ((Qgeb time (duration_of t') = true /\ row = last_row t)
        \/ (Qgeb time (duration_of t') = false
            /\ lower_bound (_vaccumtime t') time = 0
            /\ 0 <= _timeoffset t < stride t
            /\ row = vec_set (first_row t) (_timeoffset t) time)
        \/ (Qgeb time (duration_of t') = false
            /\ lower_bound (_vaccumtime t') time <> 0
            /\ exists data,
                 interpolate_groups t' (lower_bound (_vaccumtime t') time - 1)
                   (segment_deltatime t' time)
                   (repeat (0%Q : dReal) (Z.to_nat (stride t)))
                 = Ok data
                 /\ 0 <= _timeoffset t < stride t
                 /\ row = vec_set data (_timeoffset t) (segment_deltatime t' time))).
Proof.
  intros Hstride Hsize H.
  destruct (Sample_ok dbg t t' time row H)
    as (Hinit & Htoff & Htime & t1 & t2 & Hcompute & Hverify).
  destruct (verify_if_asked_again dbg t1 t2 Hverify)
    as (_ & Hspec2 & Hdata2 & Htoff2 & _ & _ & Haccum2).
  destruct (_ComputeInternal_frame t t1 Hcompute) as (Hspec1 & Hdata1 & Htoff1 & _).
  rewrite (Sample_prefix dbg t t1 t2 time) in H by (auto; lia).
  cbv zeta in H.
  assert (duration_of t2 = duration_of t1) as Hduration
    by (unfold duration_of; now rewrite Haccum2).
  assert (segment_deltatime t2 time
          = let it := lower_bound (_vaccumtime t1) time in
            let deltatime := (time - vec_get 0%Q (_vaccumtime t1) (it - 1))%Q in
            let waypointdeltatime :=
              vec_get 0%Q (_vtrajdata t) (stride t * it + _timeoffset t) in
            if Qltb deltatime 0 then 0%Q
            else if Qgtb deltatime waypointdeltatime then waypointdeltatime
            else deltatime) as Hsegment.
  { unfold segment_deltatime, stride.
    now rewrite Haccum2, Hdata2, Hdata1, Hspec2, Hspec1, Htoff2, Htoff1. }
  cbv zeta in Hsegment.
  assert (vsize (repeat (0%Q : dReal) (Z.to_nat (stride t))) = stride t) as Hzeros
    by (rewrite vsize_repeat; lia).
  destruct (Qgeb time (duration_of t1)) eqn:Eend.
  - inversion H; subst t2 row. exists t1. split; [exact Hcompute|].
    split; [exact Hverify|]. left. rewrite Hduration. split; [exact Eend|].
    unfold last_row. now rewrite copy_row_into_zeroes by lia.
  - destruct (lower_bound (_vaccumtime t1) time =? 0) eqn:Eit.
    + apply Z.eqb_eq in Eit.
      apply bind_ok in H. destruct H as (data & Hput & H).
      inversion H; subst t2 row. exists t1. split; [exact Hcompute|].
      split; [exact Hverify|]. right. left.
      rewrite Hduration, Haccum2. split; [exact Eend|]. split; [exact Eit|].
      unfold vec_at_put in Hput.
      apply bind_ok in Hput. destruct Hput as (x & Hx & Hput).
      apply vec_at_ok in Hx. rewrite vsize_vec_write, Hzeros in Hx.
      split; [exact Hx|]. inversion Hput.
      unfold first_row. now rewrite copy_row_into_zeroes by lia.
    + apply Z.eqb_neq in Eit.
      apply bind_ok in H. destruct H as (before & Hbefore & H).
      apply bind_ok in H. destruct H as (waypointdeltatime & Hwaypoint & H).
      apply (vec_at_get 0%Q) in Hbefore. apply (vec_at_get 0%Q) in Hwaypoint.
      subst before waypointdeltatime. rewrite <- Hsegment in H.
      apply bind_ok in H. destruct H as (data & Hdata & H).
      apply bind_ok in H. destruct H as (data' & Hput & H).
      inversion H; subst t2 row. exists t1. split; [exact Hcompute|].
      split; [exact Hverify|]. right. right.
      rewrite Hduration, Haccum2. split; [exact Eend|]. split; [exact Eit|].
      exists data. split; [exact Hdata|].
      unfold vec_at_put in Hput.
      apply bind_ok in Hput. destruct Hput as (x & Hx & Hput).
      apply vec_at_ok in Hx. apply interpolate_groups_size in Hdata.
      rewrite Hdata, Hzeros in Hx. split; [exact Hx|]. now inversion Hput.
Qed.

(** X13: [Sample] is a [const] operation that only warms its caches: the
    trajectory it leaves has the same waypoints and specification, the
    row it returns has one value for every channel, and the same sample
    asked again of the trajectory it left gives the same row and leaves
    that trajectory as it is. *)
Theorem Sample_is_repeatable (dbg : DebugLevel) (t t' : Traj) (time : dReal)
    (row : list dReal) :
  0 < stride t -> stride t <= vsize (_vtrajdata t) < 2 ^ 31 ->
  Sample dbg t time = Ok (t', row) ->
  _vtrajdata t' = _vtrajdata t /\ _spec t' = _spec t
  /\ vsize row = stride t
  /\ Sample dbg t' time = Ok (t', row).
Proof.
  intros Hstride Hsize H.
  destruct (Sample_ok dbg t t' time row H)
    as (Hinit & Htoff & Htime & _ & _ & _ & _).
  destruct (Sample_cases dbg t t' time row Hstride Hsize H)
    as (t1 & Hcompute & Hverify & Hcases).
  destruct (verify_if_asked_again dbg t1 t' Hverify)
    as (Hagain & Hspec2 & Hdata2 & Htoff2 & Hinit2 & Hchanged2 & Haccum2).
  destruct (_ComputeInternal_frame t t1 Hcompute)
    as (Hspec1 & Hdata1 & Htoff1 & Hinit1 & _ & Hclean).
  assert (GetNumWaypoints t <> 0) as Hcount.
  { unfold GetNumWaypoints, dof_size. fold (stride t).
    rewrite to_size_t_small by lia.
    intros H0. apply Z.div_small_iff in H0; lia. }
  specialize (Hclean Hcount).
  assert (vsize (repeat (0%Q : dReal) (Z.to_nat (stride t))) = stride t) as Hzeros
    by (rewrite vsize_repeat; lia).
  split; [congruence|]. split; [congruence|]. split.
  - destruct Hcases as [[_ ->] | [(_ & _ & _ & ->) | (_ & _ & data & Hdata & _ & ->)]].
    + unfold last_row. apply vsize_slice; lia.
    + rewrite vsize_vec_set. unfold first_row. apply vsize_slice; lia.
    + rewrite vsize_vec_set. apply interpolate_groups_size in Hdata. congruence.
  - assert (stride t' = stride t) as Hs by (unfold stride; congruence).
    assert (_ComputeInternal t' = Ok t') as Hcompute'
      by (apply _ComputeInternal_clean; congruence).
    rewrite <- H.
    rewrite (Sample_prefix dbg t' t' t' time), (Sample_prefix dbg t t1 t' time)
      by (auto; try congruence; try lia; rewrite ?Hs; congruence || lia).
    unfold duration_of, last_row, first_row.
    rewrite Hs, Haccum2, Hdata2, Hdata1, Htoff2, Htoff1. reflexivity.
Qed.

(** X14: inside a segment the time slot of the sampled row holds the time
    into the segment, clamped to the segment: it lies between [0] and the
    [deltatime] stored at the segment's end when that is not negative. *)
Theorem sample_time_slot (dbg : DebugLevel) (t t' : Traj) (time : dReal)
    (row : list dReal) :
  0 < stride t -> stride t <= vsize (_vtrajdata t) < 2 ^ 31 ->
  Sample dbg t time = Ok (t', row) ->
  Qgeb time (duration_of t') = false ->
  lower_bound (_vaccumtime t') time <> 0 ->
  let it := lower_bound (_vaccumtime t') time in
  let waypointdeltatime := traj_get t (stride t * it + _timeoffset t) in
  vec_get 0%Q row (_timeoffset t) = segment_deltatime t' time
  /\ ((0 <= waypointdeltatime)%Q ->
      (0 <= segment_deltatime t' time <= waypointdeltatime)%Q).
Proof.
  intros Hstride Hsize H Hend Hit. cbv zeta.
  destruct (Sample_cases dbg t t' time row Hstride Hsize H)
    as (t1 & Hcompute & Hverify & Hcases).
  destruct (verify_if_asked_again dbg t1 t' Hverify)
    as (_ & Hspec2 & Hdata2 & Htoff2 & _ & _ & _).
  destruct (_ComputeInternal_frame t t1 Hcompute) as (Hspec1 & Hdata1 & Htoff1 & _).
  destruct Hcases as [[Hend' _] | [(_ & Hit' & _) | (_ & _ & data & Hdata & Htoff & ->)]];
    [congruence | contradiction |].
  apply interpolate_groups_size in Hdata. rewrite vsize_repeat in Hdata.
  split.
  - apply vec_get_set_same. lia.
  - unfold segment_deltatime, traj_get, stride.
    rewrite Hdata2, Hdata1, Hspec2, Hspec1, Htoff2, Htoff1. cbv zeta.
    set (w := vec_get 0%Q (_vtrajdata t) _).
    set (d := (time - _)%Q). intros Hw.
    destruct (Qltb d 0) eqn:E1; [lra|]. apply Qltb_ge in E1.
    destruct (Qgtb d w) eqn:E2; [lra|].
    unfold Qgtb in E2. apply negb_false_iff, Qle_bool_iff in E2. lra.
Qed.
End SampleFacts.

Module SampleExamples.
Import Ref.

(** Two waypoints of [spec_linear], half a second apart: position, velocity
    and [deltatime] in every row. *)
Definition line : Traj := make spec_linear [0; 0; 0; 1; 2; 0.5]%Q.

Lemma Sample_is_repeatable_witness :
  0 < stride line /\ stride line <= vsize (_vtrajdata line) < 2 ^ 31
  /\ exists t' row,
       Sample quiet line 0.25%Q = Ok (t', row)
       /\ _vtrajdata t' = _vtrajdata line /\ _spec t' = _spec line
       /\ vsize row = stride line
       /\ Sample quiet t' 0.25%Q = Ok (t', row).
Proof.
  split; [reflexivity|]. split; [vm_compute; intuition discriminate|].
  do 2 eexists. split; [vm_compute; reflexivity|].
  apply (Sample_is_repeatable quiet line);
    [reflexivity | vm_compute; intuition discriminate | vm_compute; reflexivity].
Defined.

Lemma sample_time_slot_witness :
  exists t' row,
    Sample quiet line 0.25%Q = Ok (t', row)
    /\ Qgeb 0.25%Q (duration_of t') = false
    /\ lower_bound (_vaccumtime t') 0.25%Q <> 0
    /\ vec_get 0%Q row (_timeoffset line) = segment_deltatime t' 0.25%Q
    /\ ((0 <= traj_get line (stride line * lower_bound (_vaccumtime t') 0.25%Q
                             + _timeoffset line))%Q ->
        (0 <= segment_deltatime t' 0.25%Q
         <= traj_get line (stride line * lower_bound (_vaccumtime t') 0.25%Q
                           + _timeoffset line))%Q).
Proof.
  do 2 eexists. split; [vm_compute; reflexivity|].
  split; [vm_compute; reflexivity|]. split; [vm_compute; discriminate|].
  apply (sample_time_slot quiet line _ 0.25%Q);
    [reflexivity | vm_compute; intuition discriminate | vm_compute; reflexivity
    | vm_compute; reflexivity | vm_compute; discriminate].
Defined.
End SampleExamples.

(** ** The polynomial kernels *)

Section PolynomialFacts.
Context {core : RaveCore}.
Context {R : Type}.

Local Abbreviation Traj := (GenericTrajectory R).
Local Open Scope Q_scope.

(** The value stored for channel [base + i] of waypoint [ipoint], and of
    the waypoint after it, at the places where the kernels read them. *)
Definition value_at (t : Traj) (ipoint base i : Z) : dReal :=
traj_get t (ipoint * stride t + base + i).

Definition value_next (t : Traj) (ipoint base i : Z) : dReal :=
traj_get t (stride t + ipoint * stride t + base + i).

(** A kernel is called for channel group [g] on the segment that starts at
    waypoint [ipoint], after the time index has been rebuilt; the segment
    takes a positive time and the group lies within the row. *)
Definition segment_ready (t t1 : Traj) (g : Group) (ipoint : Z) : Prop :=
_bChanged t = true /\ (0 <= _timeoffset t)%Z /\ _ComputeInternal t = Ok t1
/\ (0 <= ipoint)%Z /\ (ipoint + 1 < GetNumWaypoints t)%Z
/\ (0 < stride t < 2 ^ 64)%Z
/\ (0 <= offset g)%Z /\ (offset g + dof g <= stride t)%Z
/\ 0 < deltatime_of t (ipoint + 1).

Lemma value_next_at (t : Traj) ipoint base i :
  value_next t ipoint base i = value_at t (ipoint + 1) base i.
Proof. unfold value_next, value_at. f_equal. lia. Qed.

(** A loop over the channels whose body succeeds on every channel. *)
Lemma for_channels_ok (g : Group) (f : Z -> Result dReal) (f' : Z -> dReal)
    (itdata : list dReal) j :
  (forall i, (0 <= i < dof g)%Z -> f i = Ok (f' i)) ->
  (0 <= offset g)%Z -> (offset g + dof g <= vsize itdata)%Z -> (0 <= j < dof g)%Z ->
  exists out, for_channels g f itdata = Ok out
              /\ vec_get 0 out (offset g + j) = f' j.
Proof.
  intros Hf Hoff Hfit Hj.
  destruct (for_channels_get g f' itdata j Hoff Hfit Hj) as (out & Hout & Hget).
  exists out. split; [|exact Hget]. rewrite <- Hout. unfold for_channels.
  assert (forall l acc,
            Forall (fun i => (Z.of_nat i < dof g)%Z) l ->
            fold_left (fun acc i => let* out := acc in let* x := f (Z.of_nat i) in
                                    Ok (vec_set out (offset g + Z.of_nat i)%Z x)) l acc
            = fold_left (fun acc i => let* out := acc in let* x := Ok (f' (Z.of_nat i)) in
                                      Ok (vec_set out (offset g + Z.of_nat i)%Z x)) l acc)
    as Hloop.
  { induction l as [|i l IH]; intros acc Hl; [reflexivity|].
    inversion Hl as [|? ? Hi Hl']; subst. cbn [fold_left].
    rewrite (Hf (Z.of_nat i)) by lia. apply IH. exact Hl'. }
  apply Hloop. apply Forall_forall. intros i Hi. apply elem_of_seq in Hi. lia.
Qed.

Lemma segment_in_range (t t1 : Traj) g ipoint i :
  segment_ready t t1 g ipoint -> (0 <= i < dof g)%Z ->
  (0 <= stride t + ipoint * stride t + offset g + i < vsize (_vtrajdata t))%Z.
Proof.
  intros (_ & _ & _ & Hi & Hnext & Hstride & Hoff & Hrow & _) Hj.
  assert (dof_size t = stride t) as Hd
    by (unfold dof_size; apply to_size_t_small; unfold stride in *; lia).
  pose proof (within_count t (ipoint + 2) ltac:(lia) ltac:(lia)) as H.
  rewrite Hd in H. nia.
Qed.

(** The reciprocal that the rebuilt index holds for the segment. *)
Lemma segment_inverse (t t1 : Traj) g ipoint :
  segment_ready t t1 g ipoint ->
  vec_at (_vdeltainvtime t1) (ipoint + 1) = Ok (1 / deltatime_of t (ipoint + 1))
  /\ exists accum inv changed verified,
       t1 = with_times t accum inv changed verified.
Proof.
  intros (Hchanged & Htoff & Hcompute & Hi & Hnext & _).
  split.
  - apply _ComputeInternal_inverse; auto. lia.
  - now apply _ComputeInternal_shape.
Qed.

(** X16: within a segment, more than epsilon after its start, the
    [quadratic] kernel of a group with a resolved derivative returns
    [x0 + t v0 + t^2 (v1 - v0) / (2 d)]: the position that starts at the
    stored one with the stored velocity and a constant acceleration that
    brings the velocity to that of the next waypoint after the segment's
    time [d].  At most epsilon after the start it returns the stored
    position. *)
Theorem quadratic_kernel_value (t t1 : Traj) (g : Group) (ipoint : Z)
    (deltatime : dReal) (itdata : list dReal) (j : Z) :
  segment_ready t t1 g ipoint ->
  (offset g + dof g <= vsize itdata)%Z -> (0 <= j < dof g)%Z ->
  (0 <= vec_get 0%Z (_vderivoffsets t) (offset g))%Z ->
  let derivoffset := vec_get 0%Z (_vderivoffsets t) (offset g) in
  let d := deltatime_of t (ipoint + 1) in
  let x0 := value_at t ipoint (offset g) j in
  let v0 := value_at t ipoint derivoffset j in
  let v1 := value_next t ipoint derivoffset j in
  exists out, _InterpolateQuadratic t1 g ipoint deltatime itdata = Ok out
    /\ (Qgtb deltatime g_fEpsilon = true ->
        vec_get 0 out (offset g + j)
        == x0 + deltatime * v0 + deltatime * deltatime * (v1 - v0) / (2 * d))
    /\ (Qgtb deltatime g_fEpsilon = false -> vec_get 0 out (offset g + j) = x0).
Proof.
  intros Hready Hfit Hj Hderiv. cbv zeta.
  destruct (segment_inverse t t1 g ipoint Hready)
    as (Hinv & accum & inv & changed & verified & ->).
  pose proof Hready as (_ & _ & _ & _ & _ & _ & Hoff & _ & Hd).
  unfold _InterpolateQuadratic.
  change (stride (with_times t accum inv changed verified)) with (stride t).
  change (traj_get (with_times t accum inv changed verified)) with (traj_get t).
  change (_vderivoffsets (with_times t accum inv changed verified))
    with (_vderivoffsets t).
  rewrite Hinv.
  destruct (Qgtb deltatime g_fEpsilon).
  - replace (vec_get 0%Z (_vderivoffsets t) (offset g) >=? 0)%Z with true
      by (symmetry; apply Z.geb_le; lia).
    match goal with
    | |- context [for_channels g ?f itdata] =>
        edestruct (for_channels_ok g f) as (out & Hout & Hget);
          [ | exact Hoff | exact Hfit | exact Hj | ]
    end.
    { intros i Hi. cbn [bind]. reflexivity. }
    exists out. split; [exact Hout|]. split; [|discriminate].
    intros _. rewrite Hget. unfold value_at, value_next. field. lra.
  - match goal with
    | |- context [for_channels g (fun i => Ok (@?f i)) itdata] =>
        destruct (for_channels_get g f itdata j Hoff Hfit Hj) as (out & Hout & Hget)
    end.
    exists out. split; [exact Hout|]. split; [discriminate|].
    intros _. rewrite Hget. reflexivity.
Qed.

(** X17: the [quadratic] kernel of a group without derivative, which then
    has an integral: the parabola [x0 + t (c1 + t c2)] that it evaluates
    reaches the value of the next waypoint at the segment's time [d], and
    its integral over the segment is the difference of the stored
    integrals. *)
Theorem quadratic_integral_boundary (t t1 : Traj) (g : Group) (ipoint : Z)
    (itdata : list dReal) (j : Z) :
  segment_ready t t1 g ipoint ->
  (offset g + dof g <= vsize itdata)%Z -> (0 <= j < dof g)%Z ->
  (vec_get 0%Z (_vderivoffsets t) (offset g) < 0)%Z ->
  let integraloffset := vec_get 0%Z (_vintegraloffsets t) (offset g) in
  let d := deltatime_of t (ipoint + 1) in
  let x0 := value_at t ipoint (offset g) j in
  let x1 := value_next t ipoint (offset g) j in
  let i0 := value_at t ipoint integraloffset j in
  let i1 := value_next t ipoint integraloffset j in
  exists c1 c2,
    x0 + d * (c1 + d * c2) == x1
    /\ x0 * d + c1 * d * d / 2 + c2 * d * d * d / 3 == i1 - i0
    /\ forall deltatime, Qgtb deltatime g_fEpsilon = true ->
         exists out, _InterpolateQuadratic t1 g ipoint deltatime itdata = Ok out
           /\ vec_get 0 out (offset g + j)
              = x0 + deltatime * (c1 + deltatime * c2).
Proof.
  intros Hready Hfit Hj Hderiv. cbv zeta.
  destruct (segment_inverse t t1 g ipoint Hready)
    as (Hinv & accum & inv & changed & verified & Hshape).
  pose proof (segment_in_range t t1 g ipoint) as Hrange.
  specialize (fun i => Hrange i Hready).
  pose proof Hready as (_ & _ & _ & _ & _ & _ & Hoff & _ & Hd).
  subst t1.
  do 2 eexists. split; [|split].
  3:{ intros deltatime Hdelta. unfold _InterpolateQuadratic.
      change (stride (with_times t accum inv changed verified)) with (stride t).
      change (traj_get (with_times t accum inv changed verified)) with (traj_get t).
      change (_vderivoffsets (with_times t accum inv changed verified))
        with (_vderivoffsets t).
      change (_vintegraloffsets (with_times t accum inv changed verified))
        with (_vintegraloffsets t).
      rewrite Hinv, Hdelta. cbn [bind].
      replace (vec_get 0%Z (_vderivoffsets t) (offset g) >=? 0)%Z with false
        by (symmetry; rewrite Z.geb_leb; apply Z.leb_gt; lia).
      match goal with
      | |- context [for_channels g ?f itdata] =>
          edestruct (for_channels_ok g f) as (out & Hout & Hget);
            [ | exact Hoff | exact Hfit | exact Hj | ]
      end.
      { intros i Hi. cbv beta.
        rewrite ?(vec_at_in_range 0) by (apply Hrange; exact Hi).
        cbn [bind]. reflexivity. }
      exists out. split; [exact Hout|]. rewrite Hget. reflexivity. }
  - unfold value_at, value_next. field. lra.
  - unfold value_at, value_next. field. lra.
Qed.

(** X18: the [cubic] kernel of a group with a resolved derivative
    evaluates the Hermite cubic [x0 + t (v0 + t (c2 + t c3))]: it starts at
    the stored position with the stored velocity, and at the segment's
    time [d] it reaches the position and the velocity of the next
    waypoint. *)
Theorem cubic_kernel_boundary (t t1 : Traj) (g : Group) (ipoint : Z)
    (itdata : list dReal) (j : Z) :
  segment_ready t t1 g ipoint ->
  (offset g + dof g <= vsize itdata)%Z -> (0 <= j < dof g)%Z ->
  (0 <= vec_get 0%Z (_vderivoffsets t) (offset g))%Z ->
  let derivoffset := vec_get 0%Z (_vderivoffsets t) (offset g) in
  let d := deltatime_of t (ipoint + 1) in
  let x0 := value_at t ipoint (offset g) j in
  let x1 := value_next t ipoint (offset g) j in
  let v0 := value_at t ipoint derivoffset j in
  let v1 := value_next t ipoint derivoffset j in
  exists c2 c3,
    x0 + d * (v0 + d * (c2 + d * c3)) == x1
    /\ v0 + 2 * c2 * d + 3 * c3 * d * d == v1
    /\ forall deltatime, Qgtb deltatime g_fEpsilon = true ->
         exists out, _InterpolateCubic t1 g ipoint deltatime itdata = Ok out
           /\ vec_get 0 out (offset g + j)
              = x0 + deltatime * (v0 + deltatime * (c2 + deltatime * c3)).
Proof.
  intros Hready Hfit Hj Hderiv. cbv zeta.
  destruct (segment_inverse t t1 g ipoint Hready)
    as (Hinv & accum & inv & changed & verified & Hshape).
  pose proof (segment_in_range t t1 g ipoint) as Hrange.
  specialize (fun i => Hrange i Hready).
  pose proof Hready as (_ & _ & _ & _ & _ & _ & Hoff & _ & Hd).
  subst t1.
  do 2 eexists. split; [|split].
  3:{ intros deltatime Hdelta. unfold _InterpolateCubic.
      change (stride (with_times t accum inv changed verified)) with (stride t).
      change (traj_get (with_times t accum inv changed verified)) with (traj_get t).
      change (_vderivoffsets (with_times t accum inv changed verified))
        with (_vderivoffsets t).
      change (_vintegraloffsets (with_times t accum inv changed verified))
        with (_vintegraloffsets t).
      change (_viioffsets (with_times t accum inv changed verified))
        with (_viioffsets t).
      change (_vtrajdata (with_times t accum inv changed verified))
        with (_vtrajdata t).
      rewrite Hinv, Hdelta. cbn [bind].
      replace (vec_get 0%Z (_vderivoffsets t) (offset g) >=? 0)%Z with true
        by (symmetry; apply Z.geb_le; lia).
      match goal with
      | |- context [for_channels g ?f itdata] =>
          edestruct (for_channels_ok g f) as (out & Hout & Hget);
            [ | exact Hoff | exact Hfit | exact Hj | ]
      end.
      { intros i Hi. cbv beta.
        rewrite ?(vec_at_in_range 0) by (apply Hrange; exact Hi).
        cbn [bind]. reflexivity. }
      exists out. split; [exact Hout|]. rewrite Hget. reflexivity. }
  - unfold value_at, value_next, traj_get. field. lra.
  - unfold value_at, value_next, traj_get. field. lra.
Qed.

(** X19: the [cubic] kernel of a group without derivative that has its
    integral and second integral: asked for the whole time [d] of the
    segment it returns the value of the next waypoint. *)
Theorem cubic_integral_endpoint (t t1 : Traj) (g : Group) (ipoint : Z)
    (itdata : list dReal) (j : Z) :
  segment_ready t t1 g ipoint ->
  (offset g + dof g <= vsize itdata)%Z -> (0 <= j < dof g)%Z ->
  (vec_get 0%Z (_vderivoffsets t) (offset g) < 0)%Z ->
  (0 <= vec_get 0%Z (_vintegraloffsets t) (offset g))%Z ->
  (0 <= vec_get 0%Z (_viioffsets t) (offset g))%Z ->
  Qgtb (deltatime_of t (ipoint + 1)) g_fEpsilon = true ->
  exists out,
    _InterpolateCubic t1 g ipoint (deltatime_of t (ipoint + 1)) itdata = Ok out
    /\ vec_get 0 out (offset g + j) == value_next t ipoint (offset g) j.
Proof.
  intros Hready Hfit Hj Hderiv Hinteg Hii Hdelta.
  destruct (segment_inverse t t1 g ipoint Hready)
    as (Hinv & accum & inv & changed & verified & Hshape).
  pose proof (segment_in_range t t1 g ipoint) as Hrange.
  specialize (fun i => Hrange i Hready).
  pose proof Hready as (_ & _ & _ & _ & _ & _ & Hoff & _ & Hd).
  subst t1.
  unfold _InterpolateCubic.
  change (stride (with_times t accum inv changed verified)) with (stride t).
  change (traj_get (with_times t accum inv changed verified)) with (traj_get t).
  change (_vderivoffsets (with_times t accum inv changed verified))
    with (_vderivoffsets t).
  change (_vintegraloffsets (with_times t accum inv changed verified))
    with (_vintegraloffsets t).
  change (_viioffsets (with_times t accum inv changed verified))
    with (_viioffsets t).
  change (_vtrajdata (with_times t accum inv changed verified))
    with (_vtrajdata t).
  rewrite Hinv, Hdelta. cbn [bind].
  replace (vec_get 0%Z (_vderivoffsets t) (offset g) >=? 0)%Z with false
    by (symmetry; rewrite Z.geb_leb; apply Z.leb_gt; lia).
  replace (vec_get 0%Z (_vintegraloffsets t) (offset g) >=? 0)%Z with true
    by (symmetry; apply Z.geb_le; lia).
  replace (vec_get 0%Z (_viioffsets t) (offset g) >=? 0)%Z with true
    by (symmetry; apply Z.geb_le; lia).
  cbn [andb].
  match goal with
  | |- context [for_channels g ?f itdata] =>
      edestruct (for_channels_ok g f) as (out & Hout & Hget);
        [ | exact Hoff | exact Hfit | exact Hj | ]
  end.
  { intros i Hi. cbv beta.
    rewrite ?(vec_at_in_range 0) by (apply Hrange; exact Hi).
    cbn [bind]. reflexivity. }
  exists out. split; [exact Hout|]. rewrite Hget.
  unfold value_next, traj_get. field. lra.
Qed.

(** X20: the [quartic] kernel of a group with a resolved derivative and
    second derivative evaluates [x0 + t (v0 + t (a0/2 + t (c3 + t c4)))],
    whose velocity and acceleration at the segment's time [d] are those of
    the next waypoint. *)
Theorem quartic_kernel_boundary (t t1 : Traj) (g : Group) (ipoint : Z)
    (itdata : list dReal) (j : Z) :
  segment_ready t t1 g ipoint ->
  (offset g + dof g <= vsize itdata)%Z -> (0 <= j < dof g)%Z ->
  (0 <= vec_get 0%Z (_vderivoffsets t) (offset g))%Z ->
  (0 <= vec_get 0%Z (_vddoffsets t) (offset g))%Z ->
  let derivoffset := vec_get 0%Z (_vderivoffsets t) (offset g) in
  let ddoffset := vec_get 0%Z (_vddoffsets t) (offset g) in
  let d := deltatime_of t (ipoint + 1) in
  let x0 := value_at t ipoint (offset g) j in
  let v0 := value_at t ipoint derivoffset j in
  let v1 := value_next t ipoint derivoffset j in
  let a0 := value_at t ipoint ddoffset j in
  let a1 := value_next t ipoint ddoffset j in
  exists c3 c4,
    v0 + a0 * d + 3 * c3 * d * d + 4 * c4 * d * d * d == v1
    /\ a0 + 6 * c3 * d + 12 * c4 * d * d == a1
    /\ forall deltatime, Qgtb deltatime g_fEpsilon = true ->
         exists out, _InterpolateQuartic t1 g ipoint deltatime itdata = Ok out
           /\ vec_get 0 out (offset g + j)
              = x0 + deltatime * (v0 + deltatime * (0.5 * a0
                    + deltatime * (c3 + deltatime * c4))).
Proof.
  intros Hready Hfit Hj Hderiv Hdd. cbv zeta.
  destruct (segment_inverse t t1 g ipoint Hready)
    as (Hinv & accum & inv & changed & verified & Hshape).
  pose proof (segment_in_range t t1 g ipoint) as Hrange.
  specialize (fun i => Hrange i Hready).
  pose proof Hready as (_ & _ & _ & _ & _ & _ & Hoff & _ & Hd).
  subst t1.
  do 2 eexists. split; [|split].
  3:{ intros deltatime Hdelta. unfold _InterpolateQuartic.
      change (stride (with_times t accum inv changed verified)) with (stride t).
      change (traj_get (with_times t accum inv changed verified)) with (traj_get t).
      change (_vderivoffsets (with_times t accum inv changed verified))
        with (_vderivoffsets t).
      change (_vddoffsets (with_times t accum inv changed verified))
        with (_vddoffsets t).
      change (_vintegraloffsets (with_times t accum inv changed verified))
        with (_vintegraloffsets t).
      rewrite Hinv, Hdelta. cbn [bind].
      replace (vec_get 0%Z (_vderivoffsets t) (offset g) >=? 0)%Z with true
        by (symmetry; apply Z.geb_le; lia).
      replace (vec_get 0%Z (_vddoffsets t) (offset g) >=? 0)%Z with true
        by (symmetry; apply Z.geb_le; lia).
      cbn [andb].
      match goal with
      | |- context [for_channels g ?f itdata] =>
          edestruct (for_channels_ok g f) as (out & Hout & Hget);
            [ | exact Hoff | exact Hfit | exact Hj | ]
      end.
      { intros i Hi. cbv beta.
        rewrite ?(vec_at_in_range 0) by (apply Hrange; exact Hi).
        cbn [bind]. reflexivity. }
      exists out. split; [exact Hout|]. rewrite Hget. reflexivity. }
  - unfold value_at, value_next. field. lra.
  - unfold value_at, value_next. field. lra.
Qed.

(** X21: the [quartic] kernel of a group with a resolved derivative and
    integral but no second derivative evaluates
    [x0 + t (v0 + t (c2 + t (c3 + t c4)))], which at the segment's time [d]
    reaches the position and the velocity of the next waypoint, and whose
    integral over the segment is the difference of the stored
    integrals. *)
Theorem quartic_integral_boundary (t t1 : Traj) (g : Group) (ipoint : Z)
    (itdata : list dReal) (j : Z) :
  segment_ready t t1 g ipoint ->
  (offset g + dof g <= vsize itdata)%Z -> (0 <= j < dof g)%Z ->
  (0 <= vec_get 0%Z (_vderivoffsets t) (offset g))%Z ->
  (vec_get 0%Z (_vddoffsets t) (offset g) < 0)%Z ->
  (0 <= vec_get 0%Z (_vintegraloffsets t) (offset g))%Z ->
  let derivoffset := vec_get 0%Z (_vderivoffsets t) (offset g) in
  let integoffset := vec_get 0%Z (_vintegraloffsets t) (offset g) in
  let d := deltatime_of t (ipoint + 1) in
  let x0 := value_at t ipoint (offset g) j in
  let x1 := value_next t ipoint (offset g) j in
  let v0 := value_at t ipoint derivoffset j in
  let v1 := value_next t ipoint derivoffset j in
  let i0 := value_at t ipoint integoffset j in
  let i1 := value_next t ipoint integoffset j in
  exists c2 c3 c4,
    x0 + d * (v0 + d * (c2 + d * (c3 + d * c4))) == x1
    /\ v0 + 2 * c2 * d + 3 * c3 * d * d + 4 * c4 * d * d * d == v1
    /\ x0 * d + v0 * d * d / 2 + c2 * d * d * d / 3 + c3 * d * d * d * d / 4
       + c4 * d * d * d * d * d / 5 == i1 - i0
    /\ forall deltatime, Qgtb deltatime g_fEpsilon = true ->
         exists out, _InterpolateQuartic t1 g ipoint deltatime itdata = Ok out
           /\ vec_get 0 out (offset g + j)
              = x0 + deltatime * (v0 + deltatime * (c2
                    + deltatime * (c3 + deltatime * c4))).
Proof.
  intros Hready Hfit Hj Hderiv Hdd Hinteg. cbv zeta.
  destruct (segment_inverse t t1 g ipoint Hready)
    as (Hinv & accum & inv & changed & verified & Hshape).
  pose proof (segment_in_range t t1 g ipoint) as Hrange.
  specialize (fun i => Hrange i Hready).
  pose proof Hready as (_ & _ & _ & _ & _ & _ & Hoff & _ & Hd).
  subst t1.
  do 3 eexists. split; [|split; [|split]].
  4:{ intros deltatime Hdelta. unfold _InterpolateQuartic.
      change (stride (with_times t accum inv changed verified)) with (stride t).
      change (traj_get (with_times t accum inv changed verified)) with (traj_get t).
      change (_vderivoffsets (with_times t accum inv changed verified))
        with (_vderivoffsets t).
      change (_vddoffsets (with_times t accum inv changed verified))
        with (_vddoffsets t).
      change (_vintegraloffsets (with_times t accum inv changed verified))
        with (_vintegraloffsets t).
      rewrite Hinv, Hdelta. cbn [bind].
      replace (vec_get 0%Z (_vderivoffsets t) (offset g) >=? 0)%Z with true
        by (symmetry; apply Z.geb_le; lia).
      replace (vec_get 0%Z (_vddoffsets t) (offset g) >=? 0)%Z with false
        by (symmetry; rewrite Z.geb_leb; apply Z.leb_gt; lia).
      replace (vec_get 0%Z (_vintegraloffsets t) (offset g) >=? 0)%Z with true
        by (symmetry; apply Z.geb_le; lia).
      cbn [andb].
      match goal with
      | |- context [for_channels g ?f itdata] =>
          edestruct (for_channels_ok g f) as (out & Hout & Hget);
            [ | exact Hoff | exact Hfit | exact Hj | ]
      end.
      { intros i Hi. cbv beta.
        rewrite ?(vec_at_in_range 0) by (apply Hrange; exact Hi).
        cbn [bind]. reflexivity. }
      exists out. split; [exact Hout|]. rewrite Hget. reflexivity. }
  - unfold value_at, value_next. field. lra.
  - unfold value_at, value_next. field. lra.
  - unfold value_at, value_next. field. lra.
Qed.

(** X22: the [quintic] kernel evaluates
    [x0 + t (v0 + t (a0/2 + t (c3 + t (c4 + t c5))))], which at the
    segment's time [d] reaches the position, the velocity and the
    acceleration of the next waypoint. *)
Theorem quintic_kernel_boundary (t t1 : Traj) (g : Group) (ipoint : Z)
    (itdata : list dReal) (j : Z) :
  segment_ready t t1 g ipoint ->
  (offset g + dof g <= vsize itdata)%Z -> (0 <= j < dof g)%Z ->
  (0 <= vec_get 0%Z (_vderivoffsets t) (offset g))%Z ->
  (0 <= vec_get 0%Z (_vddoffsets t) (offset g))%Z ->
  let derivoffset := vec_get 0%Z (_vderivoffsets t) (offset g) in
  let ddoffset := vec_get 0%Z (_vddoffsets t) (offset g) in
  let d := deltatime_of t (ipoint + 1) in
  let x0 := value_at t ipoint (offset g) j in
  let x1 := value_next t ipoint (offset g) j in
  let v0 := value_at t ipoint derivoffset j in
  let v1 := value_next t ipoint derivoffset j in
  let a0 := value_at t ipoint ddoffset j in
  let a1 := value_next t ipoint ddoffset j in
  exists c3 c4 c5,
    x0 + d * (v0 + d * (0.5 * a0 + d * (c3 + d * (c4 + d * c5)))) == x1
    /\ v0 + a0 * d + 3 * c3 * d * d + 4 * c4 * d * d * d
       + 5 * c5 * d * d * d * d == v1
    /\ a0 + 6 * c3 * d + 12 * c4 * d * d + 20 * c5 * d * d * d == a1
    /\ forall deltatime, Qgtb deltatime g_fEpsilon = true ->
         exists out, _InterpolateQuintic t1 g ipoint deltatime itdata = Ok out
           /\ vec_get 0 out (offset g + j)
              = x0 + deltatime * (v0 + deltatime * (0.5 * a0
                    + deltatime * (c3 + deltatime * (c4 + deltatime * c5)))).
Proof.
  intros Hready Hfit Hj Hderiv Hdd. cbv zeta.
  destruct (segment_inverse t t1 g ipoint Hready)
    as (Hinv & accum & inv & changed & verified & Hshape).
  pose proof (segment_in_range t t1 g ipoint) as Hrange.
  specialize (fun i => Hrange i Hready).
  pose proof Hready as (_ & _ & _ & _ & _ & _ & Hoff & _ & Hd).
  subst t1.
  do 3 eexists. split; [|split; [|split]].
  4:{ intros deltatime Hdelta. unfold _InterpolateQuintic.
      change (stride (with_times t accum inv changed verified)) with (stride t).
      change (traj_get (with_times t accum inv changed verified)) with (traj_get t).
      change (_vderivoffsets (with_times t accum inv changed verified))
        with (_vderivoffsets t).
      change (_vddoffsets (with_times t accum inv changed verified))
        with (_vddoffsets t).
      rewrite Hinv, Hdelta. cbn [bind].
      replace (vec_get 0%Z (_vderivoffsets t) (offset g) >=? 0)%Z with true
        by (symmetry; apply Z.geb_le; lia).
      replace (vec_get 0%Z (_vddoffsets t) (offset g) >=? 0)%Z with true
        by (symmetry; apply Z.geb_le; lia).
      cbn [andb].
      match goal with
      | |- context [for_channels g ?f itdata] =>
          edestruct (for_channels_ok g f) as (out & Hout & Hget);
            [ | exact Hoff | exact Hfit | exact Hj | ]
      end.
      { intros i Hi. cbv beta.
        rewrite ?(vec_at_in_range 0) by (apply Hrange; exact Hi).
        cbn [bind]. reflexivity. }
      exists out. split; [exact Hout|]. rewrite Hget. reflexivity. }
  - unfold value_at, value_next. field. lra.
  - unfold value_at, value_next. field. lra.
  - unfold value_at, value_next. field. lra.
Qed.

(** X23: the [sextic] kernel evaluates
    [x0 + t (v0 + t (a0/2 + t (j0/6 + t (c4 + t (c5 + t c6)))))], whose
    velocity, acceleration and jerk at the segment's time [d] are those of
    the next waypoint. *)
Theorem sextic_kernel_boundary (t t1 : Traj) (g : Group) (ipoint : Z)
    (itdata : list dReal) (j : Z) :
  segment_ready t t1 g ipoint ->
  (offset g + dof g <= vsize itdata)%Z -> (0 <= j < dof g)%Z ->
  (0 <= vec_get 0%Z (_vderivoffsets t) (offset g))%Z ->
  (0 <= vec_get 0%Z (_vddoffsets t) (offset g))%Z ->
  (0 <= vec_get 0%Z (_vdddoffsets t) (offset g))%Z ->
  let derivoffset := vec_get 0%Z (_vderivoffsets t) (offset g) in
  let ddoffset := vec_get 0%Z (_vddoffsets t) (offset g) in
  let dddoffset := vec_get 0%Z (_vdddoffsets t) (offset g) in
  let d := deltatime_of t (ipoint + 1) in
  let x0 := value_at t ipoint (offset g) j in
  let v0 := value_at t ipoint derivoffset j in
  let v1 := value_next t ipoint derivoffset j in
  let a0 := value_at t ipoint ddoffset j in
  let a1 := value_next t ipoint ddoffset j in
  let j0 := value_at t ipoint dddoffset j in
  let j1 := value_next t ipoint dddoffset j in
  exists c4 c5 c6,
    v0 + a0 * d + j0 * d * d / 2 + 4 * c4 * d * d * d + 5 * c5 * d * d * d * d
    + 6 * c6 * d * d * d * d * d == v1
    /\ a0 + j0 * d + 12 * c4 * d * d + 20 * c5 * d * d * d
       + 30 * c6 * d * d * d * d == a1
    /\ j0 + 24 * c4 * d + 60 * c5 * d * d + 120 * c6 * d * d * d == j1
    /\ forall deltatime, Qgtb deltatime g_fEpsilon = true ->
         exists out, _InterpolateSextic t1 g ipoint deltatime itdata = Ok out
           /\ vec_get 0 out (offset g + j)
              = x0 + deltatime * (v0 + deltatime * (0.5 * a0
                    + deltatime * (j0 / 6.0 + deltatime * (c4
                        + deltatime * (c5 + deltatime * c6))))).
Proof.
  intros Hready Hfit Hj Hderiv Hdd Hddd. cbv zeta.
  destruct (segment_inverse t t1 g ipoint Hready)
    as (Hinv & accum & inv & changed & verified & Hshape).
  pose proof (segment_in_range t t1 g ipoint) as Hrange.
  specialize (fun i => Hrange i Hready).
  pose proof Hready as (_ & _ & _ & _ & _ & _ & Hoff & _ & Hd).
  subst t1.
  do 3 eexists. split; [|split; [|split]].
  4:{ intros deltatime Hdelta. unfold _InterpolateSextic.
      change (stride (with_times t accum inv changed verified)) with (stride t).
      change (traj_get (with_times t accum inv changed verified)) with (traj_get t).
      change (_vderivoffsets (with_times t accum inv changed verified))
        with (_vderivoffsets t).
      change (_vddoffsets (with_times t accum inv changed verified))
        with (_vddoffsets t).
      change (_vdddoffsets (with_times t accum inv changed verified))
        with (_vdddoffsets t).
      rewrite Hinv, Hdelta. cbn [bind].
      replace (vec_get 0%Z (_vderivoffsets t) (offset g) >=? 0)%Z with true
        by (symmetry; apply Z.geb_le; lia).
      replace (vec_get 0%Z (_vddoffsets t) (offset g) >=? 0)%Z with true
        by (symmetry; apply Z.geb_le; lia).
      replace (vec_get 0%Z (_vdddoffsets t) (offset g) >=? 0)%Z with true
        by (symmetry; apply Z.geb_le; lia).
      cbn [andb].
      match goal with
      | |- context [for_channels g ?f itdata] =>
          edestruct (for_channels_ok g f) as (out & Hout & Hget);
            [ | exact Hoff | exact Hfit | exact Hj | ]
      end.
      { intros i Hi. cbv beta.
        rewrite ?(vec_at_in_range 0) by (apply Hrange; exact Hi).
        cbn [bind]. reflexivity. }
      exists out. split; [exact Hout|]. rewrite Hget. reflexivity. }
  - unfold value_at, value_next. field. lra.
  - unfold value_at, value_next. field. lra.
  - unfold value_at, value_next. field. lra.
Qed.

Lemma Qgtb_scaled (a b d : Q) :
  0 < d -> Qgtb (1 / d * a) b = Qgtb a (b * d).
Proof.
  intros Hd. unfold Qgtb. f_equal. apply eq_true_iff_eq.
  rewrite !Qle_bool_iff. rewrite <- (Qmult_le_r (1 / d * a) b d Hd).
  assert (1 / d * a * d == a) as -> by (field; lra). reflexivity.
Qed.

(** X15: within a segment the [previous] kernel returns the values of the
    waypoint at the segment's start, until the time into the segment
    exceeds [(1 - epsilon) d]; from there on it returns those of the
    waypoint at the segment's end. *)
Theorem previous_kernel_value (t t1 : Traj) (g : Group) (ipoint : Z)
    (deltatime : dReal) (itdata : list dReal) (j : Z) :
  segment_ready t t1 g ipoint ->
  (offset g + dof g <= vsize itdata)%Z -> (0 <= j < dof g)%Z ->
  let d := deltatime_of t (ipoint + 1) in
  exists out, _InterpolatePrevious t1 g ipoint deltatime itdata = Ok out
    /\ vec_get 0 out (offset g + j)
       = if Qgtb deltatime ((1 - g_fEpsilon) * d)
         then value_at t (ipoint + 1) (offset g) j
         else value_at t ipoint (offset g) j.
Proof.
  intros Hready Hfit Hj. cbv zeta.
  destruct (segment_inverse t t1 g ipoint Hready)
    as (Hinv & accum & inv & changed & verified & Hshape).
  pose proof (segment_in_range t t1 g ipoint) as Hrange.
  specialize (fun i => Hrange i Hready).
  pose proof Hready as (_ & _ & _ & Hi & _ & Hstride & Hoff & Hrow & Hd).
  subst t1. unfold _InterpolatePrevious.
  change (stride (with_times t accum inv changed verified)) with (stride t).
  change (_vtrajdata (with_times t accum inv changed verified))
    with (_vtrajdata t).
  pose proof (Hrange 0%Z ltac:(lia)) as H0.
  pose proof (Hrange (dof g - 1)%Z ltac:(lia)) as Hlast.
  replace ((ipoint + 1) * stride t <? vsize (_vtrajdata t))%Z with true
    by (symmetry; apply Z.ltb_lt; lia).
  rewrite Hinv. cbn [bind]. rewrite Qgtb_scaled by exact Hd.
  eexists. split; [reflexivity|].
  change (copy_group (with_times t accum inv changed verified))
    with (copy_group t).
  destruct (Qgtb deltatime ((1 - g_fEpsilon) * deltatime_of t (ipoint + 1))).
  - rewrite copy_group_get by nia. unfold value_at. f_equal. lia.
  - rewrite copy_group_get by nia. reflexivity.
Qed.

(** X24: the [max] kernel returns, whatever the time into the segment,
    the larger of the values that the two waypoints of the segment hold
    for the channel. *)
Theorem max_kernel_value (t : Traj) (g : Group) (ipoint : Z)
    (deltatime : dReal) (itdata : list dReal) (j : Z) :
  (0 <= offset g)%Z -> (offset g + dof g <= vsize itdata)%Z -> (0 <= j < dof g)%Z ->
  let x0 := value_at t ipoint (offset g) j in
  let x1 := value_next t ipoint (offset g) j in
  exists out, _InterpolateMax t g ipoint deltatime itdata = Ok out
    /\ vec_get 0 out (offset g + j) = (if Qltb x0 x1 then x1 else x0)
    /\ x0 <= vec_get 0 out (offset g + j) /\ x1 <= vec_get 0 out (offset g + j).
Proof.
  intros Hoff Hfit Hj. cbv zeta. unfold _InterpolateMax.
  match goal with
  | |- context [for_channels g (fun i => Ok (@?f i)) itdata] =>
      destruct (for_channels_get g f itdata j Hoff Hfit Hj) as (out & Hout & Hget)
  end.
  exists out. split; [exact Hout|]. rewrite Hget. unfold Qmaxb, value_at, value_next.
  replace (stride t + (ipoint * stride t + offset g) + j)%Z
    with (stride t + ipoint * stride t + offset g + j)%Z by lia.
  split; [reflexivity|].
  destruct (Qltb _ _) eqn:E.
  - apply Qltb_lt in E. split; lra.
  - apply Qltb_ge in E. split; lra.
Qed.
End PolynomialFacts.

Module PolynomialExamples.
Import Ref.
Local Open Scope Q_scope.

Ltac evaluate :=
  first [ reflexivity | vm_compute; reflexivity | vm_compute; discriminate
        | vm_compute; intuition discriminate ].

Ltac ready := unfold segment_ready; do 8 (split; [evaluate|]); evaluate.

Definition values (label : string) : Group := group "joint_values" 0 1 label.
Definition velocities (label : string) : Group := group "joint_velocities" 1 1 label.
Definition accelerations (label : string) : Group :=
group "joint_accelerations" 2 1 label.

(** A joint that holds its value until the next waypoint. *)
Definition held : Traj :=
make (mkSpec [values "previous"; group "deltatime" 1 1 ""]) [0; 0; 1; 0.5].
Definition held_indexed : Traj := unwrap empty (_ComputeInternal held).

(** Position and velocity; the position is quadratic in the first layout
    and cubic in the second, where the velocity is quadratic. *)
Definition parabola : Traj :=
make (mkSpec [values "quadratic"; velocities "linear"; group "deltatime" 2 1 ""])
     [0; 0; 0; 1; 2; 0.5].
Definition parabola_indexed : Traj := unwrap empty (_ComputeInternal parabola).

Definition hermite : Traj :=
make (mkSpec [values "cubic"; velocities "quadratic"; group "deltatime" 2 1 ""])
     [0; 0; 0; 1; 2; 0.5].
Definition hermite_indexed : Traj := unwrap empty (_ComputeInternal hermite).

(** Position, velocity and acceleration, with the labels of a quintic
    position, and with those of a quartic one. *)
Definition smooth : Traj :=
make (mkSpec [values "quintic"; velocities "quartic"; accelerations "cubic";
              group "deltatime" 3 1 ""])
     [0; 0; 0; 0; 1; 2; 1; 0.5].
Definition smooth_indexed : Traj := unwrap empty (_ComputeInternal smooth).

Definition quartic : Traj :=
make (mkSpec [values "quartic"; velocities "cubic"; accelerations "quadratic";
              group "deltatime" 3 1 ""])
     [0; 0; 0; 0; 1; 2; 1; 0.5].
Definition quartic_indexed : Traj := unwrap empty (_ComputeInternal quartic).

(** Position to jerk, with the labels of a sextic position. *)
Definition sextic : Traj :=
make (mkSpec [values "sextic"; velocities "quintic"; accelerations "quartic";
              group "joint_jerks" 3 1 "cubic"; group "deltatime" 4 1 ""])
     [0; 0; 0; 0; 0; 1; 2; 1; 3; 0.5].
Definition sextic_indexed : Traj := unwrap empty (_ComputeInternal sextic).

Definition row (n : nat) : list dReal := repeat 0 n.

Lemma previous_kernel_value_witness :
  segment_ready held held_indexed (values "previous") 0
  /\ exists out,
       _InterpolatePrevious held_indexed (values "previous") 0 0.25 (row 2) = Ok out
       /\ vec_get 0 out (offset (values "previous") + 0)
          = if Qgtb 0.25 ((1 - g_fEpsilon) * deltatime_of held (0 + 1))
            then value_at held (0 + 1) (offset (values "previous")) 0
            else value_at held 0 (offset (values "previous")) 0.
Proof.
  assert (segment_ready held held_indexed (values "previous") 0) as H by ready.
  split; [exact H|].
  exact (previous_kernel_value held held_indexed (values "previous") 0 0.25 (row 2) 0
           H ltac:(evaluate) ltac:(evaluate)).
Defined.

Lemma quadratic_kernel_value_witness :
  segment_ready parabola parabola_indexed (values "quadratic") 0
  /\ (0 <= vec_get 0%Z (_vderivoffsets parabola) (offset (values "quadratic")))%Z
  /\ exists out,
       _InterpolateQuadratic parabola_indexed (values "quadratic") 0 0.25 (row 3)
       = Ok out
       /\ (Qgtb 0.25 g_fEpsilon = true ->
           vec_get 0 out (offset (values "quadratic") + 0)
           == value_at parabola 0 (offset (values "quadratic")) 0
              + 0.25 * value_at parabola 0
                         (vec_get 0%Z (_vderivoffsets parabola)
                                  (offset (values "quadratic"))) 0
              + 0.25 * 0.25
                * (value_next parabola 0
                     (vec_get 0%Z (_vderivoffsets parabola)
                              (offset (values "quadratic"))) 0
                   - value_at parabola 0
                       (vec_get 0%Z (_vderivoffsets parabola)
                                (offset (values "quadratic"))) 0)
                / (2 * deltatime_of parabola (0 + 1)))
       /\ (Qgtb 0.25 g_fEpsilon = false ->
           vec_get 0 out (offset (values "quadratic") + 0)
           = value_at parabola 0 (offset (values "quadratic")) 0).
Proof.
  assert (segment_ready parabola parabola_indexed (values "quadratic") 0)
    as H by ready.
  split; [exact H|]. split; [evaluate|].
  exact (quadratic_kernel_value parabola parabola_indexed (values "quadratic") 0
           0.25 (row 3) 0 H ltac:(evaluate) ltac:(evaluate) ltac:(evaluate)).
Defined.
Lemma quadratic_integral_boundary_witness :
  let t := hermite in let t1 := hermite_indexed in let g := velocities "quadratic" in
  let ipoint := 0%Z in let itdata := row 3 in let j := 0%Z in
  (segment_ready t t1 g ipoint) /\
  ((offset g + dof g <= vsize itdata)%Z) /\
  ((0 <= j < dof g)%Z) /\
  ((vec_get 0%Z (_vderivoffsets t) (offset g) < 0)%Z) /\
  (let integraloffset := vec_get 0%Z (_vintegraloffsets t) (offset g) in
    let d := deltatime_of t (ipoint + 1) in
    let x0 := value_at t ipoint (offset g) j in
    let x1 := value_next t ipoint (offset g) j in
    let i0 := value_at t ipoint integraloffset j in
    let i1 := value_next t ipoint integraloffset j in
    exists c1 c2,
      x0 + d * (c1 + d * c2) == x1
      /\ x0 * d + c1 * d * d / 2 + c2 * d * d * d / 3 == i1 - i0
      /\ forall deltatime, Qgtb deltatime g_fEpsilon = true ->
           exists out, _InterpolateQuadratic t1 g ipoint deltatime itdata = Ok out
             /\ vec_get 0 out (offset g + j)
                = x0 + deltatime * (c1 + deltatime * c2)).
Proof.
  intros t t1 g ipoint itdata j.
  assert (segment_ready t t1 g ipoint) as Hready by ready.
  assert ((offset g + dof g <= vsize itdata)%Z) as H1 by evaluate.
  assert ((0 <= j < dof g)%Z) as H2 by evaluate.
  assert ((vec_get 0%Z (_vderivoffsets t) (offset g) < 0)%Z) as H3 by evaluate.
  split; [exact Hready|].
  split; [exact H1|].
  split; [exact H2|].
  split; [exact H3|].
  exact (quadratic_integral_boundary t t1 g ipoint itdata j Hready H1 H2 H3).
Defined.

Lemma cubic_kernel_boundary_witness :
  let t := hermite in let t1 := hermite_indexed in let g := values "cubic" in
  let ipoint := 0%Z in let itdata := row 3 in let j := 0%Z in
  (segment_ready t t1 g ipoint) /\
  ((offset g + dof g <= vsize itdata)%Z) /\
  ((0 <= j < dof g)%Z) /\
  ((0 <= vec_get 0%Z (_vderivoffsets t) (offset g))%Z) /\
  (let derivoffset := vec_get 0%Z (_vderivoffsets t) (offset g) in
    let d := deltatime_of t (ipoint + 1) in
    let x0 := value_at t ipoint (offset g) j in
    let x1 := value_next t ipoint (offset g) j in
    let v0 := value_at t ipoint derivoffset j in
    let v1 := value_next t ipoint derivoffset j in
    exists c2 c3,
      x0 + d * (v0 + d * (c2 + d * c3)) == x1
      /\ v0 + 2 * c2 * d + 3 * c3 * d * d == v1
      /\ forall deltatime, Qgtb deltatime g_fEpsilon = true ->
           exists out, _InterpolateCubic t1 g ipoint deltatime itdata = Ok out
             /\ vec_get 0 out (offset g + j)
                = x0 + deltatime * (v0 + deltatime * (c2 + deltatime * c3))).
Proof.
  intros t t1 g ipoint itdata j.
  assert (segment_ready t t1 g ipoint) as Hready by ready.
  assert ((offset g + dof g <= vsize itdata)%Z) as H1 by evaluate.
  assert ((0 <= j < dof g)%Z) as H2 by evaluate.
  assert ((0 <= vec_get 0%Z (_vderivoffsets t) (offset g))%Z) as H3 by evaluate.
  split; [exact Hready|].
  split; [exact H1|].
  split; [exact H2|].
  split; [exact H3|].
  exact (cubic_kernel_boundary t t1 g ipoint itdata j Hready H1 H2 H3).
Defined.

Lemma cubic_integral_endpoint_witness :
  let t := smooth in let t1 := smooth_indexed in let g := accelerations "cubic" in
  let ipoint := 0%Z in let itdata := row 4 in let j := 0%Z in
  (segment_ready t t1 g ipoint) /\
  ((offset g + dof g <= vsize itdata)%Z) /\
  ((0 <= j < dof g)%Z) /\
  ((vec_get 0%Z (_vderivoffsets t) (offset g) < 0)%Z) /\
  ((0 <= vec_get 0%Z (_vintegraloffsets t) (offset g))%Z) /\
  ((0 <= vec_get 0%Z (_viioffsets t) (offset g))%Z) /\
  (Qgtb (deltatime_of t (ipoint + 1)) g_fEpsilon = true) /\
  (exists out,
      _InterpolateCubic t1 g ipoint (deltatime_of t (ipoint + 1)) itdata = Ok out
      /\ vec_get 0 out (offset g + j) == value_next t ipoint (offset g) j).
Proof.
  intros t t1 g ipoint itdata j.
  assert (segment_ready t t1 g ipoint) as Hready by ready.
  assert ((offset g + dof g <= vsize itdata)%Z) as H1 by evaluate.
  assert ((0 <= j < dof g)%Z) as H2 by evaluate.
  assert ((vec_get 0%Z (_vderivoffsets t) (offset g) < 0)%Z) as H3 by evaluate.
  assert ((0 <= vec_get 0%Z (_vintegraloffsets t) (offset g))%Z) as H4 by evaluate.
  assert ((0 <= vec_get 0%Z (_viioffsets t) (offset g))%Z) as H5 by evaluate.
  assert (Qgtb (deltatime_of t (ipoint + 1)) g_fEpsilon = true) as H6 by evaluate.
  split; [exact Hready|].
  split; [exact H1|].
  split; [exact H2|].
  split; [exact H3|].
  split; [exact H4|].
  split; [exact H5|].
  split; [exact H6|].
  exact (cubic_integral_endpoint t t1 g ipoint itdata j Hready H1 H2 H3 H4 H5 H6).
Defined.

Lemma quartic_kernel_boundary_witness :
  let t := quartic in let t1 := quartic_indexed in let g := values "quartic" in
  let ipoint := 0%Z in let itdata := row 4 in let j := 0%Z in
  (segment_ready t t1 g ipoint) /\
  ((offset g + dof g <= vsize itdata)%Z) /\
  ((0 <= j < dof g)%Z) /\
  ((0 <= vec_get 0%Z (_vderivoffsets t) (offset g))%Z) /\
  ((0 <= vec_get 0%Z (_vddoffsets t) (offset g))%Z) /\
  (let derivoffset := vec_get 0%Z (_vderivoffsets t) (offset g) in
    let ddoffset := vec_get 0%Z (_vddoffsets t) (offset g) in
    let d := deltatime_of t (ipoint + 1) in
    let x0 := value_at t ipoint (offset g) j in
    let v0 := value_at t ipoint derivoffset j in
    let v1 := value_next t ipoint derivoffset j in
    let a0 := value_at t ipoint ddoffset j in
    let a1 := value_next t ipoint ddoffset j in
    exists c3 c4,
      v0 + a0 * d + 3 * c3 * d * d + 4 * c4 * d * d * d == v1
      /\ a0 + 6 * c3 * d + 12 * c4 * d * d == a1
      /\ forall deltatime, Qgtb deltatime g_fEpsilon = true ->
           exists out, _InterpolateQuartic t1 g ipoint deltatime itdata = Ok out
             /\ vec_get 0 out (offset g + j)
                = x0 + deltatime * (v0 + deltatime * (0.5 * a0
                      + deltatime * (c3 + deltatime * c4)))).
Proof.
  intros t t1 g ipoint itdata j.
  assert (segment_ready t t1 g ipoint) as Hready by ready.
  assert ((offset g + dof g <= vsize itdata)%Z) as H1 by evaluate.
  assert ((0 <= j < dof g)%Z) as H2 by evaluate.
  assert ((0 <= vec_get 0%Z (_vderivoffsets t) (offset g))%Z) as H3 by evaluate.
  assert ((0 <= vec_get 0%Z (_vddoffsets t) (offset g))%Z) as H4 by evaluate.
  split; [exact Hready|].
  split; [exact H1|].
  split; [exact H2|].
  split; [exact H3|].
  split; [exact H4|].
  exact (quartic_kernel_boundary t t1 g ipoint itdata j Hready H1 H2 H3 H4).
Defined.

Lemma quartic_integral_boundary_witness :
  let t := smooth in let t1 := smooth_indexed in let g := velocities "quartic" in
  let ipoint := 0%Z in let itdata := row 4 in let j := 0%Z in
  (segment_ready t t1 g ipoint) /\
  ((offset g + dof g <= vsize itdata)%Z) /\
  ((0 <= j < dof g)%Z) /\
  ((0 <= vec_get 0%Z (_vderivoffsets t) (offset g))%Z) /\
  ((vec_get 0%Z (_vddoffsets t) (offset g) < 0)%Z) /\
  ((0 <= vec_get 0%Z (_vintegraloffsets t) (offset g))%Z) /\
  (let derivoffset := vec_get 0%Z (_vderivoffsets t) (offset g) in
    let integoffset := vec_get 0%Z (_vintegraloffsets t) (offset g) in
    let d := deltatime_of t (ipoint + 1) in
    let x0 := value_at t ipoint (offset g) j in
    let x1 := value_next t ipoint (offset g) j in
    let v0 := value_at t ipoint derivoffset j in
    let v1 := value_next t ipoint derivoffset j in
    let i0 := value_at t ipoint integoffset j in
    let i1 := value_next t ipoint integoffset j in
    exists c2 c3 c4,
      x0 + d * (v0 + d * (c2 + d * (c3 + d * c4))) == x1
      /\ v0 + 2 * c2 * d + 3 * c3 * d * d + 4 * c4 * d * d * d == v1
      /\ x0 * d + v0 * d * d / 2 + c2 * d * d * d / 3 + c3 * d * d * d * d / 4
         + c4 * d * d * d * d * d / 5 == i1 - i0
      /\ forall deltatime, Qgtb deltatime g_fEpsilon = true ->
           exists out, _InterpolateQuartic t1 g ipoint deltatime itdata = Ok out
             /\ vec_get 0 out (offset g + j)
                = x0 + deltatime * (v0 + deltatime * (c2
                      + deltatime * (c3 + deltatime * c4)))).
Proof.
  intros t t1 g ipoint itdata j.
  assert (segment_ready t t1 g ipoint) as Hready by ready.
  assert ((offset g + dof g <= vsize itdata)%Z) as H1 by evaluate.
  assert ((0 <= j < dof g)%Z) as H2 by evaluate.
  assert ((0 <= vec_get 0%Z (_vderivoffsets t) (offset g))%Z) as H3 by evaluate.
  assert ((vec_get 0%Z (_vddoffsets t) (offset g) < 0)%Z) as H4 by evaluate.
  assert ((0 <= vec_get 0%Z (_vintegraloffsets t) (offset g))%Z) as H5 by evaluate.
  split; [exact Hready|].
  split; [exact H1|].
  split; [exact H2|].
  split; [exact H3|].
  split; [exact H4|].
  split; [exact H5|].
  exact (quartic_integral_boundary t t1 g ipoint itdata j Hready H1 H2 H3 H4 H5).
Defined.

Lemma quintic_kernel_boundary_witness :
  let t := smooth in let t1 := smooth_indexed in let g := values "quintic" in
  let ipoint := 0%Z in let itdata := row 4 in let j := 0%Z in
  (segment_ready t t1 g ipoint) /\
  ((offset g + dof g <= vsize itdata)%Z) /\
  ((0 <= j < dof g)%Z) /\
  ((0 <= vec_get 0%Z (_vderivoffsets t) (offset g))%Z) /\
  ((0 <= vec_get 0%Z (_vddoffsets t) (offset g))%Z) /\
  (let derivoffset := vec_get 0%Z (_vderivoffsets t) (offset g) in
    let ddoffset := vec_get 0%Z (_vddoffsets t) (offset g) in
    let d := deltatime_of t (ipoint + 1) in
    let x0 := value_at t ipoint (offset g) j in
    let x1 := value_next t ipoint (offset g) j in
    let v0 := value_at t ipoint derivoffset j in
    let v1 := value_next t ipoint derivoffset j in
    let a0 := value_at t ipoint ddoffset j in
    let a1 := value_next t ipoint ddoffset j in
    exists c3 c4 c5,
      x0 + d * (v0 + d * (0.5 * a0 + d * (c3 + d * (c4 + d * c5)))) == x1
      /\ v0 + a0 * d + 3 * c3 * d * d + 4 * c4 * d * d * d
         + 5 * c5 * d * d * d * d == v1
      /\ a0 + 6 * c3 * d + 12 * c4 * d * d + 20 * c5 * d * d * d == a1
      /\ forall deltatime, Qgtb deltatime g_fEpsilon = true ->
           exists out, _InterpolateQuintic t1 g ipoint deltatime itdata = Ok out
             /\ vec_get 0 out (offset g + j)
                = x0 + deltatime * (v0 + deltatime * (0.5 * a0
                      + deltatime * (c3 + deltatime * (c4 + deltatime * c5))))).
Proof.
  intros t t1 g ipoint itdata j.
  assert (segment_ready t t1 g ipoint) as Hready by ready.
  assert ((offset g + dof g <= vsize itdata)%Z) as H1 by evaluate.
  assert ((0 <= j < dof g)%Z) as H2 by evaluate.
  assert ((0 <= vec_get 0%Z (_vderivoffsets t) (offset g))%Z) as H3 by evaluate.
  assert ((0 <= vec_get 0%Z (_vddoffsets t) (offset g))%Z) as H4 by evaluate.
  split; [exact Hready|].
  split; [exact H1|].
  split; [exact H2|].
  split; [exact H3|].
  split; [exact H4|].
  exact (quintic_kernel_boundary t t1 g ipoint itdata j Hready H1 H2 H3 H4).
Defined.

Lemma sextic_kernel_boundary_witness :
  let t := sextic in let t1 := sextic_indexed in let g := values "sextic" in
  let ipoint := 0%Z in let itdata := row 5 in let j := 0%Z in
  (segment_ready t t1 g ipoint) /\
  ((offset g + dof g <= vsize itdata)%Z) /\
  ((0 <= j < dof g)%Z) /\
  ((0 <= vec_get 0%Z (_vderivoffsets t) (offset g))%Z) /\
  ((0 <= vec_get 0%Z (_vddoffsets t) (offset g))%Z) /\
  ((0 <= vec_get 0%Z (_vdddoffsets t) (offset g))%Z) /\
  (let derivoffset := vec_get 0%Z (_vderivoffsets t) (offset g) in
    let ddoffset := vec_get 0%Z (_vddoffsets t) (offset g) in
    let dddoffset := vec_get 0%Z (_vdddoffsets t) (offset g) in
    let d := deltatime_of t (ipoint + 1) in
    let x0 := value_at t ipoint (offset g) j in
    let v0 := value_at t ipoint derivoffset j in
    let v1 := value_next t ipoint derivoffset j in
    let a0 := value_at t ipoint ddoffset j in
    let a1 := value_next t ipoint ddoffset j in
    let j0 := value_at t ipoint dddoffset j in
    let j1 := value_next t ipoint dddoffset j in
    exists c4 c5 c6,
      v0 + a0 * d + j0 * d * d / 2 + 4 * c4 * d * d * d + 5 * c5 * d * d * d * d
      + 6 * c6 * d * d * d * d * d == v1
      /\ a0 + j0 * d + 12 * c4 * d * d + 20 * c5 * d * d * d
         + 30 * c6 * d * d * d * d == a1
      /\ j0 + 24 * c4 * d + 60 * c5 * d * d + 120 * c6 * d * d * d == j1
      /\ forall deltatime, Qgtb deltatime g_fEpsilon = true ->
           exists out, _InterpolateSextic t1 g ipoint deltatime itdata = Ok out
             /\ vec_get 0 out (offset g + j)
                = x0 + deltatime * (v0 + deltatime * (0.5 * a0
                      + deltatime * (j0 / 6.0 + deltatime * (c4
                          + deltatime * (c5 + deltatime * c6)))))).
Proof.
  intros t t1 g ipoint itdata j.
  assert (segment_ready t t1 g ipoint) as Hready by ready.
  assert ((offset g + dof g <= vsize itdata)%Z) as H1 by evaluate.
  assert ((0 <= j < dof g)%Z) as H2 by evaluate.
  assert ((0 <= vec_get 0%Z (_vderivoffsets t) (offset g))%Z) as H3 by evaluate.
  assert ((0 <= vec_get 0%Z (_vddoffsets t) (offset g))%Z) as H4 by evaluate.
  assert ((0 <= vec_get 0%Z (_vdddoffsets t) (offset g))%Z) as H5 by evaluate.
  split; [exact Hready|].
  split; [exact H1|].
  split; [exact H2|].
  split; [exact H3|].
  split; [exact H4|].
  split; [exact H5|].
  exact (sextic_kernel_boundary t t1 g ipoint itdata j Hready H1 H2 H3 H4 H5).
Defined.

Lemma max_kernel_value_witness :
  exists out, _InterpolateMax hermite (values "cubic") 0 0.25 (row 3) = Ok out
    /\ vec_get 0 out (offset (values "cubic") + 0)
       = (if Qltb (value_at hermite 0 (offset (values "cubic")) 0)
                  (value_next hermite 0 (offset (values "cubic")) 0)
          then value_next hermite 0 (offset (values "cubic")) 0
          else value_at hermite 0 (offset (values "cubic")) 0)
    /\ value_at hermite 0 (offset (values "cubic")) 0
       <= vec_get 0 out (offset (values "cubic") + 0)
    /\ value_next hermite 0 (offset (values "cubic")) 0
       <= vec_get 0 out (offset (values "cubic") + 0).
Proof.
  exact (max_kernel_value hermite (values "cubic") 0 0.25 (row 3) 0
           ltac:(evaluate) ltac:(evaluate) ltac:(evaluate)).
Defined.
End PolynomialExamples.

(** ** The validators *)

Section ValidatorFacts.
Context {core : RaveCore}.
Context {R : Type}.

Local Abbreviation Traj := (GenericTrajectory R).
Local Open Scope Q_scope.

(** A loop over the channels that can only pass or throw passes when its
    body passes on every channel. *)
Lemma for_dof_passes (g : Group) (body : Z -> Result unit) :
  for_dof g body = Ok tt
  <-> forall j, (0 <= j < dof g)%Z -> body j = Ok tt.
Proof.
  unfold for_dof.
  assert (forall l acc,
            fold_left (fun acc i => check acc in body (Z.of_nat i)) l acc = Ok tt
            <-> acc = Ok tt /\ Forall (fun i => body (Z.of_nat i) = Ok tt) l)
    as Hloop.
  { induction l as [|i l IH]; intros acc; cbn [fold_left].
    - split; [intros ->; split; [reflexivity | constructor] | tauto].
    - rewrite IH. split.
      + intros [Hstep Hl]. destruct acc as [[]|e]; [|discriminate].
        split; [reflexivity|]. constructor; assumption.
      + intros [-> Hl]. inversion Hl; subst. split; assumption. }
  rewrite Hloop. split.
  - intros [_ Hall] j Hj. rewrite List.Forall_forall in Hall.
    specialize (Hall (Z.to_nat j)). rewrite Z2Nat.id in Hall by lia.
    apply Hall. apply in_seq. lia.
  - intros Hbody. split; [reflexivity|]. apply List.Forall_forall.
    intros i Hi. apply in_seq in Hi. apply Hbody. lia.
Qed.

(** The distance between the position stored at the end of a segment and
    the position that the [linear] kernel reaches there with the velocity
    stored at the end. *)
Definition linear_error (t : Traj) (g : Group) (ipoint : Z) (deltatime : dReal)
    (j : Z) : dReal :=
let derivoffset := vec_get 0%Z (_vderivoffsets t) (offset g) in
Qabs (value_next t ipoint (offset g) j
      - (value_at t ipoint (offset g) j
         + deltatime * value_next t ipoint derivoffset j)).

(** X25: [_ValidateLinear] accepts a segment of a group with a resolved
    derivative exactly when, on every channel, the position that the
    linear kernel reaches after the segment's time lies within
    [g_fEpsilonLinear] of the stored one, or misses it by [2 PI] up to that
    tolerance (a turn of a circular joint).  A group without resolved
    derivative is accepted as it is. *)
Theorem linear_validation (t : Traj) (g : Group) (ipoint : Z) (deltatime : dReal) :
  ((0 <= vec_get 0%Z (_vderivoffsets t) (offset g))%Z ->
   (_ValidateLinear t g ipoint deltatime = Ok tt
    <-> forall j, (0 <= j < dof g)%Z ->
          linear_error t g ipoint deltatime j <= g_fEpsilonLinear
          \/ Qabs (linear_error t g ipoint deltatime j - 2 * PI) <= g_fEpsilonLinear))
  /\ ((vec_get 0%Z (_vderivoffsets t) (offset g) < 0)%Z ->
      _ValidateLinear t g ipoint deltatime = Ok tt).
Proof.
  unfold _ValidateLinear. split.
  - intros Hderiv.
    replace (vec_get 0%Z (_vderivoffsets t) (offset g) >=? 0)%Z with true
      by (symmetry; apply Z.geb_le; lia).
    rewrite for_dof_passes.
    enough (forall j,
              (let deriv0 :=
                 traj_get t (stride t + ipoint * stride t
                             + vec_get 0%Z (_vderivoffsets t) (offset g) + j) in
               let expected :=
                 traj_get t (ipoint * stride t + offset g + j) + deltatime * deriv0 in
               let error :=
                 Qabs (traj_get t (stride t + ipoint * stride t + offset g + j)
                       - expected) in
               if Qgtb (Qabs (error - 2 * PI)) g_fEpsilonLinear
               then if Qleb error g_fEpsilonLinear then Ok tt
                    else invalid_segment g ipoint j
               else Ok tt) = Ok tt
              <-> linear_error t g ipoint deltatime j <= g_fEpsilonLinear
                  \/ Qabs (linear_error t g ipoint deltatime j - 2 * PI)
                     <= g_fEpsilonLinear) as Hbody.
    { split; intros H j Hj; apply Hbody, H, Hj. }
    intros j. cbv zeta.
    fold (value_next t ipoint (vec_get 0%Z (_vderivoffsets t) (offset g)) j).
    fold (value_at t ipoint (offset g) j).
    fold (value_next t ipoint (offset g) j).
    fold (linear_error t g ipoint deltatime j).
    destruct (Qgtb (Qabs (linear_error t g ipoint deltatime j - 2 * PI))
                   g_fEpsilonLinear) eqn:Eturn.
    + apply Qgtb_lt in Eturn.
      destruct (Qleb (linear_error t g ipoint deltatime j) g_fEpsilonLinear) eqn:E.
      * apply Qleb_le in E. tauto.
      * split; [discriminate|].
        intros [H|H]; [|lra]. apply Qleb_le in H. congruence.
    + unfold Qgtb in Eturn. apply negb_false_iff, Qle_bool_iff in Eturn. tauto.
  - intros Hderiv.
    replace (vec_get 0%Z (_vderivoffsets t) (offset g) >=? 0)%Z with false
      by (symmetry; rewrite Z.geb_leb; apply Z.leb_gt; lia).
    reflexivity.
Qed.

(** The distance between the position stored at the end of a segment and
    the position that the [quadratic] kernel reaches after [deltatime]. *)
Definition quadratic_error (t : Traj) (g : Group) (ipoint : Z) (deltatime : dReal)
    (j : Z) : dReal :=
let derivoffset := vec_get 0%Z (_vderivoffsets t) (offset g) in
let d := deltatime_of t (ipoint + 1) in
let deriv0 := value_at t ipoint derivoffset j in
let coeff := 0.5 * (1 / d) * (value_next t ipoint derivoffset j - deriv0) in
Qabs (value_next t ipoint (offset g) j
      - (value_at t ipoint (offset g) j
         + deltatime * (deriv0 + deltatime * coeff))).

(** X26: for a segment longer than epsilon, [_ValidateQuadratic] accepts a
    group with a resolved derivative exactly when, on every channel, the
    position that the quadratic kernel reaches after the given time lies
    within [1e-4] of the stored one, or misses it by [2 PI] up to [1e-5].
    After the whole time [d] of the segment that position is
    [x0 + d (v0 + v1) / 2]. *)
Theorem quadratic_validation (t t1 : Traj) (g : Group) (ipoint : Z)
    (deltatime : dReal) :
  segment_ready t t1 g ipoint ->
  (0 <= vec_get 0%Z (_vderivoffsets t) (offset g))%Z ->
  Qgtb deltatime g_fEpsilon = true ->
  (_ValidateQuadratic t1 g ipoint deltatime = Ok tt
   <-> forall j, (0 <= j < dof g)%Z ->
         quadratic_error t g ipoint deltatime j <= 1e-4
         \/ Qabs (quadratic_error t g ipoint deltatime j - 2 * PI) <= 1e-5)
  /\ forall j,
       quadratic_error t g ipoint (deltatime_of t (ipoint + 1)) j
       == Qabs (value_next t ipoint (offset g) j
                - (value_at t ipoint (offset g) j
                   + deltatime_of t (ipoint + 1)
                     * (value_at t ipoint
                          (vec_get 0%Z (_vderivoffsets t) (offset g)) j
                        + value_next t ipoint
                            (vec_get 0%Z (_vderivoffsets t) (offset g)) j) / 2)).
Proof.
  intros Hready Hderiv Hdelta.
  destruct (segment_inverse t t1 g ipoint Hready)
    as (Hinv & accum & inv & changed & verified & Hshape).
  pose proof (segment_in_range t t1 g ipoint) as Hrange.
  specialize (fun i => Hrange i Hready).
  pose proof Hready as (_ & _ & _ & _ & _ & _ & Hoff & _ & Hd).
  subst t1. split.
  2:{ intros j. unfold quadratic_error. cbv zeta.
      apply Qabs_wd. field. lra. }
  unfold _ValidateQuadratic.
  change (stride (with_times t accum inv changed verified)) with (stride t).
  change (traj_get (with_times t accum inv changed verified)) with (traj_get t).
  change (_vderivoffsets (with_times t accum inv changed verified))
    with (_vderivoffsets t).
  change (_vtrajdata (with_times t accum inv changed verified))
    with (_vtrajdata t).
  rewrite Hinv, Hdelta.
  replace (vec_get 0%Z (_vderivoffsets t) (offset g) >=? 0)%Z with true
    by (symmetry; apply Z.geb_le; lia).
  rewrite for_dof_passes.
  enough (forall j, (0 <= j < dof g)%Z ->
            (let deriv0 :=
               traj_get t (ipoint * stride t
                           + vec_get 0%Z (_vderivoffsets t) (offset g) + j) in
             let* inv := Ok (1 / deltatime_of t (ipoint + 1)) in
             let coeff :=
               0.5 * inv
               * (traj_get t (stride t + ipoint * stride t
                              + vec_get 0%Z (_vderivoffsets t) (offset g) + j)
                  - deriv0) in
             let expected :=
               traj_get t (ipoint * stride t + offset g + j)
               + deltatime * (deriv0 + deltatime * coeff) in
             let* next :=
               vec_at (_vtrajdata t) (stride t + ipoint * stride t + offset g + j) in
             let error := Qabs (next - expected) in
             if Qgtb (Qabs (error - 2 * PI)) 1e-5
             then if Qleb error 1e-4 then Ok tt else invalid_segment g ipoint j
             else Ok tt) = Ok tt
            <-> quadratic_error t g ipoint deltatime j <= 1e-4
                \/ Qabs (quadratic_error t g ipoint deltatime j - 2 * PI) <= 1e-5)
    as Hbody.
  { split; intros H j Hj; apply (Hbody j Hj), H, Hj. }
  intros j Hj. cbv zeta. cbn [bind].
  rewrite (vec_at_in_range 0) by (apply Hrange; exact Hj). cbn [bind].
  fold (traj_get t (stride t + ipoint * stride t + offset g + j)).
  fold (value_next t ipoint (offset g) j).
  fold (value_at t ipoint (offset g) j).
  fold (value_next t ipoint (vec_get 0%Z (_vderivoffsets t) (offset g)) j).
  fold (value_at t ipoint (vec_get 0%Z (_vderivoffsets t) (offset g)) j).
  change (Qabs (value_next t ipoint (offset g) j
                - (value_at t ipoint (offset g) j
                   + deltatime
                     * (value_at t ipoint
                          (vec_get 0%Z (_vderivoffsets t) (offset g)) j
                        + deltatime
                          * (0.5 * (1 / deltatime_of t (ipoint + 1))
                             * (value_next t ipoint
                                  (vec_get 0%Z (_vderivoffsets t) (offset g)) j
                                - value_at t ipoint
                                    (vec_get 0%Z (_vderivoffsets t) (offset g)) j))))))
    with (quadratic_error t g ipoint deltatime j).
  destruct (Qgtb (Qabs (quadratic_error t g ipoint deltatime j - 2 * PI)) 1e-5)
    eqn:Eturn.
  - apply Qgtb_lt in Eturn.
    destruct (Qleb (quadratic_error t g ipoint deltatime j) 1e-4) eqn:E.
    + apply Qleb_le in E. tauto.
    + split; [discriminate|].
      intros [H|H]; [|lra]. apply Qleb_le in H. congruence.
  - unfold Qgtb in Eturn. apply negb_false_iff, Qle_bool_iff in Eturn. tauto.
Qed.
End ValidatorFacts.

Module ValidatorExamples.
Import Ref.
Local Open Scope Q_scope.

Ltac evaluate :=
  first [ reflexivity | vm_compute; reflexivity | vm_compute; discriminate
        | vm_compute; intuition discriminate ].

(** A segment of half a second that ends with velocity 2 and has moved by
    1, and one that has moved by 3. *)
Definition with_velocity : ConfigurationSpecification :=
mkSpec [group "joint_values" 0 1 "linear"; group "joint_velocities" 1 1 "next";
        group "deltatime" 2 1 ""].
Definition consistent : Traj := make with_velocity [0; 0; 0; 1; 2; 0.5].
Definition inconsistent : Traj := make with_velocity [0; 0; 0; 3; 2; 0.5].
Definition position : Group := group "joint_values" 0 1 "linear".

Lemma linear_validation_witness :
  (0 <= vec_get 0%Z (_vderivoffsets consistent) (offset position))%Z
  /\ _ValidateLinear consistent position 0 0.5 = Ok tt
  /\ _ValidateLinear inconsistent position 0 0.5 <> Ok tt.
Proof.
  assert (0 <= vec_get 0%Z (_vderivoffsets consistent) (offset position))%Z
    as H by evaluate.
  split; [exact H|]. split.
  - apply (proj1 (linear_validation consistent position 0 0.5) H).
    intros j Hj. assert (j = 0)%Z as -> by (cbn in Hj; lia).
    left. vm_compute. discriminate.
  - intros Hok.
    destruct (proj1 (proj1 (linear_validation inconsistent position 0 0.5)
                           ltac:(evaluate)) Hok 0%Z ltac:(evaluate)) as [Hbad|Hbad];
      vm_compute in Hbad; apply Hbad; reflexivity.
Defined.

(** Constant acceleration from rest to velocity 2 in one second covers a
    distance of 1. *)
Definition accelerated : Traj :=
make (mkSpec [group "joint_values" 0 1 "quadratic";
              group "joint_velocities" 1 1 "linear"; group "deltatime" 2 1 ""])
     [0; 0; 0; 1; 2; 1].
Definition accelerated_indexed : Traj := unwrap empty (_ComputeInternal accelerated).
Definition parabolic : Group := group "joint_values" 0 1 "quadratic".

Lemma quadratic_validation_witness :
  segment_ready accelerated accelerated_indexed parabolic 0
  /\ _ValidateQuadratic accelerated_indexed parabolic 0 1 = Ok tt.
Proof.
  assert (segment_ready accelerated accelerated_indexed parabolic 0) as H
    by (unfold segment_ready; do 8 (split; [evaluate|]); evaluate).
  split; [exact H|].
  apply (proj1 (quadratic_validation accelerated accelerated_indexed parabolic 0 1
                  H ltac:(evaluate) ltac:(evaluate))).
  intros j Hj. assert (j = 0)%Z as -> by (cbn in Hj; lia).
  left. vm_compute. discriminate.
Defined.
End ValidatorExamples.

(** ** Streams the deserializer refuses *)

Section DeserializeFacts.
Context {core : RaveCore}.
Context {layout : DRealLayout}.
Context {R : Type} {readables : Readables R}.

Local Abbreviation Traj := (GenericTrajectory R).
Import Bin.

(** X27: a stream that starts with the magic number of the binary format
    followed by a version number outside 1..3 is refused, whatever comes
    after and whatever the receiving trajectory holds: [deserialize] throws
    the error "unsupported trajectory format version" with that number and
    the code [ORE_InvalidArguments]. *)
Theorem unsupported_version_is_rejected (version : Z) (rest : stream) (t : Traj) :
  0 <= version < 2 ^ 16 ->
  version < 1 \/ BINARY_TRAJECTORY_VERSION_NUMBER < version ->
  deserialize (WriteBinaryUInt16 BINARY_TRAJECTORY_MAGIC_NUMBER
               ++ WriteBinaryUInt16 version ++ rest) t
  = Err (openrave_exception (MsgUnsupportedVersion version) ORE_InvalidArguments).
Proof.
  intros Hrange Hbad. unfold deserialize.
  rewrite stream_has_header.
  rewrite ReadBinaryUInt16_Write by (unfold BINARY_TRAJECTORY_MAGIC_NUMBER; lia).
  rewrite Z.eqb_refl.
  rewrite ReadBinaryUInt16_Write by exact Hrange.
  replace ((version >? BINARY_TRAJECTORY_VERSION_NUMBER) || (version <? 1))
    with true; [reflexivity|].
  symmetry. apply orb_true_iff.
  destruct Hbad as [H|H]; [right; apply Z.ltb_lt; lia | left; apply Z.gtb_lt; lia].
Qed.
End DeserializeFacts.

Module DeserializeExamples.
Import Ref Bin SerializerExamples.

Lemma unsupported_version_is_rejected_witness :
  0 <= 4 < 2 ^ 16
  /\ (4 < 1 \/ BINARY_TRAJECTORY_VERSION_NUMBER < 4)
  /\ deserialize (WriteBinaryUInt16 BINARY_TRAJECTORY_MAGIC_NUMBER
                  ++ WriteBinaryUInt16 4 ++ []) empty
     = Err (openrave_exception (MsgUnsupportedVersion 4) ORE_InvalidArguments).
Proof.
  assert (0 <= 4 < 2 ^ 16) as H1 by lia.
  assert (4 < 1 \/ BINARY_TRAJECTORY_VERSION_NUMBER < 4) as H2
    by (right; reflexivity).
  split; [exact H1|]. split; [exact H2|].
  exact (unsupported_version_is_rejected 4 [] empty H1 H2).
Defined.
End DeserializeExamples.

(** ** The comparison of groups *)

Section OrderFacts.

(** X28: [SortGroups] is a strict weak ordering, which is what
    [std::stable_sort] asks of its comparison: no group comes before
    itself, the comparison is transitive, and so is its complement (if
    [a] is not before [b] and [b] is not before [c], then [a] is not
    before [c]). *)
Theorem SortGroups_strict_weak_order :
  (forall a, SortGroups a a = false)
  /\ (forall a b c, SortGroups a b = true -> SortGroups b c = true ->
                    SortGroups a c = true)
  /\ (forall a b c, SortGroups a b = false -> SortGroups b c = false ->
                    SortGroups a c = false).
Proof.
  assert (forall a b c, SortGroups a b = false -> SortGroups b c = false ->
                        SortGroups a c = false) as Hneg.
  { intros a b c Hab Hbc.
    exact (SortGroups_not_after_trans c b a Hbc Hab). }
  split; [|split; [|exact Hneg]].
  - intros a. destruct (SortGroups a a) eqn:E; [|reflexivity].
    rewrite <- E. now apply SortGroups_asym.
  - intros a b c Hab Hbc.
    destruct (SortGroups a c) eqn:E; [reflexivity|].
    apply SortGroups_asym in Hbc.
    rewrite (Hneg a c b E Hbc) in Hab. discriminate.
Qed.
End OrderFacts.

Module OrderExamples.
Import Ref.

(** A time group, a position group and a group outside the table. *)
Definition time : Group := group "deltatime" 0 1 "".
Definition position : Group := group "joint_values robot 0" 1 1 "linear".
Definition signal : Group := group "outputSignals" 2 1 "previous".

Lemma SortGroups_strict_weak_order_witness :
  SortGroups time position = true /\ SortGroups position signal = true
  /\ SortGroups time signal = true.
Proof.
  assert (SortGroups time position = true) as H1 by reflexivity.
  assert (SortGroups position signal = true) as H2 by reflexivity.
  split; [exact H1|]. split; [exact H2|].
  exact (proj1 (proj2 SortGroups_strict_weak_order) time position signal H1 H2).
Defined.
End OrderExamples.

(** ** Trajectories without time *)

Section UntimedFacts.
Context {core : RaveCore}.
Context {R : Type}.

Local Abbreviation Traj := (GenericTrajectory R).

Lemma find_timeoffset_none (groups : list Group) (z : Z) :
  Forall (fun g => name g <> "deltatime"%string) groups ->
  fold_left (fun t g => if String.eqb (name g) "deltatime" then offset g else t)
            groups z = z.
Proof.
  intros H. revert z. induction H as [|g l Hg _ IH]; intros z; simpl.
  - reflexivity.
  - apply String.eqb_neq in Hg. rewrite Hg. apply IH.
Qed.

(** What every operation on the waypoint buffer keeps of a trajectory
    without time. *)
Definition untimed (t : Traj) : Prop :=
_bInit t = true /\ _bChanged t = true /\ _timeoffset t = -1.

Lemma Init_untimed (spec : ConfigurationSpecification) :
  Forall (fun g => name g <> "deltatime"%string) (_vgroups spec) ->
  untimed (Init spec (new_trajectory : Traj)).
Proof.
  intros H. unfold untimed, Init. cbn.
  split; [reflexivity|]. split; [reflexivity|].
  apply find_timeoffset_none.
  apply List.Forall_forall. intros g Hg.
  rewrite List.Forall_forall in H. apply H.
  apply (Permutation_in g (Permutation_sym (stable_sort_perm SortGroups (_vgroups spec)))).
  exact Hg.
Qed.

Lemma with_trajdata_untimed (t : Traj) data verified :
  untimed t -> untimed (with_trajdata t data true verified).
Proof. intros (H1 & H2 & H3). repeat split; assumption. Qed.

Lemma Insert_untimed index pdata bOverwrite (t t' : Traj) :
  untimed t -> Insert index pdata bOverwrite t = Ok t' -> untimed t'.
Proof.
  intros Ht. unfold Insert.
  destruct (BOOST_ASSERT (_bInit t) _); cbn; [|discriminate].
  destruct (vsize pdata =? 0); [intros [= <-]; exact Ht|].
  destruct (BOOST_ASSERT (GetDOF (_spec t) >? 0) _); cbn; [|discriminate].
  destruct (assert_divides _ _); cbn; [|discriminate].
  destruct (OPENRAVE_ASSERT_OP _ _ _ _ _ _); cbn; [|discriminate].
  intros [= <-]. now apply with_trajdata_untimed.
Qed.

Lemma apply_mutation_untimed (m : Mutation) (t t' : Traj) :
  untimed t -> apply_mutation m t = Ok t' -> untimed t'.
Proof.
  intros Ht. destruct m as [index data b|index data spec b|s e|]; cbn.
  - apply Insert_untimed, Ht.
  - unfold InsertSpec.
    destruct (BOOST_ASSERT (_bInit t) _); cbn; [|discriminate].
    destruct (vsize data =? 0); [intros [= <-]; exact Ht|].
    destruct (BOOST_ASSERT (GetDOF spec >? 0) _); cbn; [|discriminate].
    destruct (assert_divides _ _); cbn; [|discriminate].
    destruct (OPENRAVE_ASSERT_OP _ _ _ _ _ _); cbn; [|discriminate].
    destruct (spec_eqb (_spec t) spec); [apply Insert_untimed, Ht|].
    match goal with |- bind ?m _ = _ -> _ => destruct m as [[[d s] i]|]; cbn; [|discriminate] end.
    match goal with |- bind ?m _ = _ -> _ => destruct m as [d'|]; cbn; [|discriminate] end.
    intros [= <-]. now apply with_trajdata_untimed.
  - unfold Remove.
    destruct (BOOST_ASSERT (_bInit t) _); cbn; [|discriminate].
    destruct (s =? e); [intros [= <-]; exact Ht|].
    destruct (BOOST_ASSERT _ _); cbn; [|discriminate].
    destruct (OPENRAVE_ASSERT_OP _ _ _ _ _ _); cbn; [|discriminate].
    intros [= <-]. now apply with_trajdata_untimed.
  - intros [= <-]. unfold ClearWaypoints.
    destruct (_bInit t); [|exact Ht].
    destruct (vsize (_vtrajdata t) >? 0); [|exact Ht].
    now apply with_trajdata_untimed.
Qed.

Lemma apply_mutations_untimed (ms : list Mutation) (t t' : Traj) :
  untimed t -> apply_mutations ms t = Ok t' -> untimed t'.
Proof.
  revert t. induction ms as [|m ms IH]; intros t Ht; cbn.
  - intros [= <-]. exact Ht.
  - destruct (apply_mutation m t) as [t1|] eqn:E; cbn; [|discriminate].
    apply IH. exact (apply_mutation_untimed m t t1 Ht E).
Qed.

(** X29: a trajectory initialised with a specification that has no group
    named [deltatime] carries no time, whatever waypoints are then
    inserted or removed: its duration is 0, and sampling it or asking for
    the first waypoint after a time fails on the assertion
    [_timeoffset>=0]. *)
Theorem trajectory_without_deltatime (spec : ConfigurationSpecification)
    (ms : list Mutation) (t : Traj) :
  Forall (fun g => name g <> "deltatime"%string) (_vgroups spec) ->
  apply_mutations ms (Init spec new_trajectory) = Ok t ->
  (exists t', GetDuration t = Ok (t', 0%Q))
  /\ (forall dbg time,
        Sample dbg t time
        = Err (openrave_exception (MsgAssertion "_timeoffset>=0") ORE_Assert))
  /\ (forall time,
        GetFirstWaypointIndexAfterTime t time
        = Err (openrave_exception (MsgAssertion "_timeoffset>=0") ORE_Assert)).
Proof.
  intros Hspec Hms.
  destruct (apply_mutations_untimed ms _ t (Init_untimed spec Hspec) Hms)
    as (Hinit & Hchanged & Htime).
  split; [|split].
  - unfold GetDuration, _ComputeInternal.
    rewrite Hinit, Hchanged, Htime. cbn. eexists. reflexivity.
  - intros dbg time. unfold Sample. rewrite Hinit, Htime. reflexivity.
  - intros time. unfold GetFirstWaypointIndexAfterTime.
    rewrite Hinit, Htime. reflexivity.
Qed.
End UntimedFacts.

Module UntimedExamples.
Import Ref.

(** Two joint values and nothing else. *)
Definition positions : ConfigurationSpecification :=
mkSpec [ group "joint_values robot 0 1" 0 2 "linear" ].

(** Two waypoints are inserted, then the first is removed. *)
Definition edits : list Mutation :=
[ MInsert 0 [1; 2; 3; 4]%Q false; MRemove 0 1 ].

Definition edited : Traj :=
unwrap empty (apply_mutations edits (Init positions new_trajectory)).

Lemma trajectory_without_deltatime_witness :
  Forall (fun g => name g <> "deltatime"%string) (_vgroups positions)
  /\ apply_mutations edits (Init positions new_trajectory) = Ok edited
  /\ (exists t', GetDuration edited = Ok (t', 0%Q)).
Proof.
  assert (Forall (fun g => name g <> "deltatime"%string) (_vgroups positions))
    as H1 by (repeat constructor; discriminate).
  assert (apply_mutations edits (Init positions new_trajectory) = Ok edited)
    as H2 by (vm_compute; reflexivity).
  split; [exact H1|]. split; [exact H2|].
  exact (proj1 (trajectory_without_deltatime positions edits edited H1 H2)).
Defined.
End UntimedExamples.

(** ** Sampling without waypoints *)

Section EmptyFacts.
Context {core : RaveCore}.
Context {R : Type}.

Local Abbreviation Traj := (GenericTrajectory R).

(** X30: sampling needs a waypoint.  On an initialised trajectory with a
    [deltatime] group whose buffer holds less than one row (for instance
    right after [Init] or [ClearWaypoints]), [Sample] at any time that is
    not negative throws "trajectory needs at least one point to sample
    from" with the code [ORE_InvalidArguments], in every debug level. *)
Theorem Sample_needs_a_waypoint (dbg : DebugLevel) (t : Traj) (time : dReal) :
  _bInit t = true ->
  0 <= _timeoffset t ->
  (0 <= time)%Q ->
  vsize (_vtrajdata t) < stride t < 2 ^ 31 ->
  Sample dbg t time
  = Err (openrave_exception MsgNeedsOnePoint ORE_InvalidArguments).
Proof.
  intros Hinit Htime Hpos Hsize.
  pose proof (vsize_nonneg (_vtrajdata t)) as Hnonneg.
  assert (GetNumWaypoints t = 0) as Hcount.
  { unfold GetNumWaypoints, dof_size. fold (stride t).
    rewrite to_size_t_small by lia. apply Z.div_small. lia. }
  assert (exists t1, _ComputeInternal t = Ok t1
                     /\ _vtrajdata t1 = _vtrajdata t /\ _spec t1 = _spec t)
    as (t1 & Hcompute & Hdata & Hspec).
  { unfold _ComputeInternal.
    destruct (negb (_bChanged t)); [now exists t|].
    replace (_timeoffset t <? 0) with false by (symmetry; apply Z.ltb_ge; lia).
    rewrite Hcount. cbn. eexists. split; [reflexivity|]. split; reflexivity. }
  unfold Sample. rewrite Hinit.
  replace (_timeoffset t >=? 0) with true
    by (symmetry; rewrite Z.geb_leb; apply Z.leb_le; lia).
  replace (Qgeb time 0) with true by (symmetry; now apply Qgeb_le).
  cbn. rewrite Hcompute. cbn.
  unfold stride at 1. rewrite Hdata, Hspec. fold (stride t).
  rewrite to_int_small by lia.
  replace (vsize (_vtrajdata t) >=? stride t) with false
    by (symmetry; rewrite Z.geb_leb; apply Z.leb_gt; lia).
  reflexivity.
Qed.
End EmptyFacts.

Module EmptyExamples.
Import Ref.

(** A trajectory of [spec_linear] whose waypoints were cleared. *)
Definition cleared : Traj :=
ClearWaypoints (make spec_linear [0; 0; 0; 1; 2; 0.5]%Q).

Lemma Sample_needs_a_waypoint_witness :
  _bInit cleared = true
  /\ 0 <= _timeoffset cleared
  /\ (0 <= 0.25)%Q
  /\ vsize (_vtrajdata cleared) < stride cleared < 2 ^ 31
  /\ Sample verifying cleared 0.25%Q
     = Err (openrave_exception MsgNeedsOnePoint ORE_InvalidArguments).
Proof.
  assert (_bInit cleared = true) as H1 by reflexivity.
  assert (0 <= _timeoffset cleared) as H2 by (vm_compute; discriminate).
  assert (0 <= 0.25)%Q as H3 by (vm_compute; discriminate).
  assert (vsize (_vtrajdata cleared) < stride cleared < 2 ^ 31) as H4
    by (split; reflexivity).
  split; [exact H1|]. split; [exact H2|]. split; [exact H3|]. split; [exact H4|].
  exact (Sample_needs_a_waypoint verifying cleared 0.25%Q H1 H2 H3 H4).
Defined.
End EmptyExamples.
